(** * Payment-confirmation core of the Runic Vault MCP server

  A shallow embedding of the TypeScript sources

  - [src/unicity/nostr.ts]           (class [NostrService])
  - [src/unicity/payment-tracker.ts] (the order store)
  - [src/store/cart.ts]              (the cart lock flag)
  - [src/tools/payment.ts]           ([checkout_with_unicity], [confirm_payment])

  together with the properties of the specification that concern them.

  Conventions of the embedding.
  - A [bigint] is a [Z]; a JavaScript [number] that holds an amount of
    cents or a count is a [Z]; a [number] that holds a duration is a [Q]
    (every finite double is a rational, and only comparisons and exact
    products are taken of them).  A [Date] is its epoch time, a [Z], and
    every [new Date()] takes the time from an explicit argument.
  - [Map<string, V>] whose iteration order is observed (the pending
    payments) is an insertion-ordered association list, [JsMap.t];
    the other maps are [gmap string V], the [Set<string>] is a [gset].
  - An [async] function is cut at its [await]s into the pieces that run
    without interruption; what is suspended between two pieces is an
    explicit task value, and the result of the awaited external call is an
    argument of the next piece.
  - A promise is a number; the table [promises] holds the settled ones
    with their first settlement, as later [resolve]/[reject] calls on a
    settled promise have no effect.
  - [console.error] output is not part of the model. *)

From Stdlib Require Import ZArith QArith Lia List Bool Ascii String.
From stdpp Require Import gmap strings list.

Local Open Scope string_scope.
Local Open Scope Z_scope.

(** ** JavaScript values used throughout *)

(** Truthiness of a string: only the empty string is falsy. *)
Definition truthy (s : string) : bool := negb (String.eqb s "").

(** Truthiness of a [string | null | undefined]. *)
Definition truthy_opt (o : option string) : bool :=
match o with
| Some s => truthy s
| None => false
end.

(** A thrown value: an [Error] with its message, or anything else. *)
Inductive Thrown : Type :=
| ThrownError (message : string)
| ThrownValue.

(** [error instanceof Error ? error.message : fallback] *)
Definition messageOf (t : Thrown) (fallback : string) : string :=
match t with
| ThrownError m => m
| ThrownValue => fallback
end.

(** [id.startsWith("@") ? id.slice(1) : id] *)
Definition normalizeId (unicityId : string) : string :=
match unicityId with
| String "@"%char rest => rest
| _ => unicityId
end.

(** ** [Map<string, V>] with its insertion order *)

Module JsMap.
Section JsMap.
Context {V : Type}.

Definition t : Type := list (string * V).

Definition empty : t := [].

Fixpoint get (k : string) (m : t) : option V :=
  match m with
  | [] => None
  | (k', v) :: m' => if String.eqb k k' then Some v else get k m'
  end.

Definition has (k : string) (m : t) : bool :=
  match get k m with
  | Some _ => true
  | None => false
  end.

(** [set] keeps the position of a key that is present and appends a new
    key at the end. *)
Fixpoint set (k : string) (v : V) (m : t) : t :=
  match m with
  | [] => [(k, v)]
  | (k', v') :: m' =>
      if String.eqb k k' then (k, v) :: m' else (k', v') :: set k v m'
  end.

(** Keys of a [Map] are unique, so deleting the entry of [k] is deleting
    every pair whose key is [k]. *)
Fixpoint delete (k : string) (m : t) : t :=
  match m with
  | [] => []
  | (k', v') :: m' =>
      if String.eqb k k' then delete k m' else (k', v') :: delete k m'
  end.

Definition values (m : t) : list V := List.map snd m.

(** [for (const [k, v] of m) if (p(v)) { found = v; break; }] *)
Fixpoint findValue (p : V -> bool) (m : t) : option V :=
  match m with
  | [] => None
  | (_, v) :: m' => if p v then Some v else findValue p m'
  end.
End JsMap.
Arguments t : clear implicits.
End JsMap.

(** ** [NostrService]: payment requests and token-transfer handling *)

Module Nostr.

(** The parts of [Config] the service reads. *)
Record Config : Type := {
  nostrRelayUrl : string;
  nametag : string;
  paymentCoinId : string;
  paymentTimeoutSeconds : Q;
}.

(** The service only tests the identity service for presence. *)
Record IdentityService : Type := { publicKeyHex : string }.

(** A [NostrClient] bound to the relay it was asked to connect to. *)
Record NostrClient : Type := { relay : string }.

Record ConfirmedPayment : Type := {
  confirmedCartId : string;
  requestEventId : string;
  transferEventId : string;
  confirmedAt : Z;
}.

(** The errors a waiter is rejected with.
    - [ErrorMessage m]: [new Error(m)] for a fixed text [m];
    - [AmountMismatch r e]: "Payment amount mismatch: received r tokens
      but expected e tokens";
    - [PaymentFailed m]: "Payment failed: m";
    - [PaymentTimeout t e]: "Payment timeout after t/1000 seconds. Payment
      request eventId: e". *)
Inductive PaymentError : Type :=
| ErrorMessage (message : string)
| AmountMismatch (received expected : Z)
| PaymentFailed (message : string)
| PaymentTimeout (timeoutMs : Q) (eventId : string).

Definition SHUTTING_DOWN : string := "NostrService shutting down".
Definition NOT_INITIALIZED : string := "NostrService not initialized".

Inductive Settlement : Type :=
| Fulfilled (payment : ConfirmedPayment)
| Rejected (error : PaymentError).

(** [PendingPaymentInternal]: the [PendingPayment] fields and the
    [resolve]/[reject] pair of the promise made by [waitForPayment].  The
    pair is the promise [waiter]; the [resolve] stored in the entry is the
    wrapped one, which first clears the time-out armed by the same call, and
    that time-out is kept under the same number. *)
Record PendingPaymentInternal : Type := {
  cartId : string;
  eventId : string;
  unicityId : string;
  customerPubkey : string;
  amountTokens : Z;
  createdAt : Z;
  waiter : nat;
}.

(** The closure given to [setTimeout]: it captures [eventId] and [timeout]
    (and the raw [reject] of its promise, the key it is stored under). *)
Record Timeout : Type := {
  timeoutEventId : string;
  timeoutMs : Q;
}.

(** A relay event as [TokenTransferProtocol] reads it, with the results of
    the two awaited calls of the handler (what [processTokenTransfer] writes
    to disk is not part of the model):
    - [tokenData]: [parseTokenTransfer(event, keyManager)] rejects, or
      yields the token JSON text;
    - [processed]: [JSON.parse(tokenJson)] followed by
      [processTokenTransfer(payloadObj)] throws, or yields
      [finalizationSuccess]. *)
Record Event : Type := {
  id : string;
  isTokenTransfer : bool;
  replyToEventId : option string;
  sender : string;
  amount : option Z;
  tokenData : Thrown + string;
  processed : Thrown + bool;
}.

(** What the service does that is visible outside it, in order. *)
Inductive Effect : Type :=
| Connect (url : string)
| Subscribe (pubkey : string)
| Unsubscribe (subscriptionId : string)
| Disconnect
| Resolve (p : nat) (payment : ConfirmedPayment)
| Reject (p : nat) (error : PaymentError).

(** The fields of the class, followed by the run-time environment they live
    in: the promises settled so far, the armed time-outs, the transfer
    handlers suspended at an [await] (each holds the event and the pending
    payment it matched), the next free number and the effects so far. *)
Record State : Type := {
  client : option NostrClient;
  config : option Config;
  identityService : option IdentityService;
  pendingPayments : JsMap.t PendingPaymentInternal;
  confirmedPayments : gmap string ConfirmedPayment;
  transferSubscriptionId : option string;
  isInitialized : bool;
  promises : gmap nat Settlement;
  timers : gmap nat Timeout;
  transfers : gmap nat (Event * PendingPaymentInternal);
  nextId : nat;
  effects : list Effect;
}.

Definition fresh : State := {|
  client := None; config := None; identityService := None;
  pendingPayments := JsMap.empty; confirmedPayments := ∅;
  transferSubscriptionId := None; isInitialized := false;
  promises := ∅; timers := ∅; transfers := ∅; nextId := 0%nat; effects := [];
|}.

(** *** Field updates *)

Definition withService
    (c : option NostrClient) (cfg : option Config) (ids : option IdentityService)
    (sub : option string) (init : bool) (s : State) : State := {|
  client := c; config := cfg; identityService := ids;
  pendingPayments := pendingPayments s; confirmedPayments := confirmedPayments s;
  transferSubscriptionId := sub; isInitialized := init;
  promises := promises s; timers := timers s; transfers := transfers s;
  nextId := nextId s; effects := effects s;
|}.

Definition withPending (m : JsMap.t PendingPaymentInternal) (s : State) : State := {|
  client := client s; config := config s; identityService := identityService s;
  pendingPayments := m; confirmedPayments := confirmedPayments s;
  transferSubscriptionId := transferSubscriptionId s; isInitialized := isInitialized s;
  promises := promises s; timers := timers s; transfers := transfers s;
  nextId := nextId s; effects := effects s;
|}.

Definition withConfirmed (m : gmap string ConfirmedPayment) (s : State) : State := {|
  client := client s; config := config s; identityService := identityService s;
  pendingPayments := pendingPayments s; confirmedPayments := m;
  transferSubscriptionId := transferSubscriptionId s; isInitialized := isInitialized s;
  promises := promises s; timers := timers s; transfers := transfers s;
  nextId := nextId s; effects := effects s;
|}.

Definition withPromises (m : gmap nat Settlement) (s : State) : State := {|
  client := client s; config := config s; identityService := identityService s;
  pendingPayments := pendingPayments s; confirmedPayments := confirmedPayments s;
  transferSubscriptionId := transferSubscriptionId s; isInitialized := isInitialized s;
  promises := m; timers := timers s; transfers := transfers s;
  nextId := nextId s; effects := effects s;
|}.

Definition withTimers (m : gmap nat Timeout) (s : State) : State := {|
  client := client s; config := config s; identityService := identityService s;
  pendingPayments := pendingPayments s; confirmedPayments := confirmedPayments s;
  transferSubscriptionId := transferSubscriptionId s; isInitialized := isInitialized s;
  promises := promises s; timers := m; transfers := transfers s;
  nextId := nextId s; effects := effects s;
|}.

Definition withTransfers (m : gmap nat (Event * PendingPaymentInternal)) (s : State) : State := {|
  client := client s; config := config s; identityService := identityService s;
  pendingPayments := pendingPayments s; confirmedPayments := confirmedPayments s;
  transferSubscriptionId := transferSubscriptionId s; isInitialized := isInitialized s;
  promises := promises s; timers := timers s; transfers := m;
  nextId := nextId s; effects := effects s;
|}.

Definition withNextId (n : nat) (s : State) : State := {|
  client := client s; config := config s; identityService := identityService s;
  pendingPayments := pendingPayments s; confirmedPayments := confirmedPayments s;
  transferSubscriptionId := transferSubscriptionId s; isInitialized := isInitialized s;
  promises := promises s; timers := timers s; transfers := transfers s;
  nextId := n; effects := effects s;
|}.

Definition emit (e : Effect) (s : State) : State := {|
  client := client s; config := config s; identityService := identityService s;
  pendingPayments := pendingPayments s; confirmedPayments := confirmedPayments s;
  transferSubscriptionId := transferSubscriptionId s; isInitialized := isInitialized s;
  promises := promises s; timers := timers s; transfers := transfers s;
  nextId := nextId s; effects := effects s ++ [e];
|}.

(** *** Promises *)

(** The first settlement of a promise stays; a later one is dropped. *)
Definition settle (p : nat) (o : Settlement) (m : gmap nat Settlement) : gmap nat Settlement :=
  match m !! p with
  | Some _ => m
  | None => <[p := o]> m
  end.

(** [reject(error)] of the promise [p]. *)
Definition rejectPromise (p : nat) (e : PaymentError) (s : State) : State :=
  emit (Reject p e) (withPromises (settle p (Rejected e) (promises s)) s).

(** [pending.reject(error)] *)
Definition reject (pending : PendingPaymentInternal) (e : PaymentError) (s : State) : State :=
  rejectPromise (waiter pending) e s.

(** [pending.resolve(payment)]: the wrapped resolve,
    [clearTimeout(timeoutId); originalResolve(payment)]. *)
Definition resolve (pending : PendingPaymentInternal) (c : ConfirmedPayment) (s : State) : State :=
  let s1 := withTimers (delete (waiter pending) (timers s)) s in
  emit (Resolve (waiter pending) c)
       (withPromises (settle (waiter pending) (Fulfilled c) (promises s1)) s1).

(** What the promise [p] has delivered to whoever awaits it. *)
Definition delivered (s : State) (p : nat) : option Settlement := promises s !! p.

(** *** [initialize] *)

(** [subscribeToTokenTransfers()]; [subscriptionId] is what
    [client.subscribe(filter, listener)] returns. *)
Definition subscribeToTokenTransfers (subscriptionId : string) (s : State) : State :=
  match client s, identityService s with
  | Some _, Some ids =>
      withService (client s) (config s) (identityService s)
        (Some subscriptionId) (isInitialized s)
        (emit (Subscribe (publicKeyHex ids)) s)
  | _, _ => s
  end.

(** [initialize] up to [await this.client.connect(..)]. *)
Definition initialize (cfg : Config) (ids : IdentityService) (s : State) : State :=
  if isInitialized s then s
  else
    emit (Connect (nostrRelayUrl cfg))
      (withService (Some {| relay := nostrRelayUrl cfg |}) (Some cfg) (Some ids)
         (transferSubscriptionId s) (isInitialized s) s).

(** The rest of [initialize], run once [connect] has succeeded (when it
    rejects, nothing more is run). *)
Definition initialize_connected (subscriptionId : string) (s : State) : State :=
  let s1 := subscribeToTokenTransfers subscriptionId s in
  withService (client s1) (config s1) (identityService s1)
    (transferSubscriptionId s1) true s1.

(** [this.isInitialized && (this.client?.isConnected() ?? false)];
    [clientConnected] is what [client.isConnected()] answers. *)
Definition isConnected (clientConnected : bool) (s : State) : bool :=
  isInitialized s && match client s with Some _ => clientConnected | None => false end.

(** *** [waitForPayment] *)

Record WaitArgs : Type := {
  argCartId : string;
  argEventId : string;
  argUnicityId : string;
  argCustomerPubkey : string;
  argAmountTokens : Z;
  argTimeoutMs : option Q;
}.

(** The promise returned by [waitForPayment]: rejected at once, fulfilled at
    once with the stored confirmation, or the pending promise [p]. *)
Inductive WaitResult : Type :=
| WaitThrows (t : Thrown)
| WaitReturns (existing : ConfirmedPayment)
| WaitPending (p : nat).

Definition waitForPayment (a : WaitArgs) (now : Z) (s : State) : WaitResult * State :=
  match config s with
  | None => (WaitThrows (ThrownError NOT_INITIALIZED), s)
  | Some cfg =>
      let timeout :=
        match argTimeoutMs a with
        | Some t => t
        | None => (paymentTimeoutSeconds cfg * 1000)%Q
        end in
      match confirmedPayments s !! argCartId a with
      | Some existing => (WaitReturns existing, s)
      | None =>
          let p := nextId s in
          let pendingPayment := {|
            cartId := argCartId a;
            eventId := argEventId a;
            unicityId := normalizeId (argUnicityId a);
            customerPubkey := argCustomerPubkey a;
            amountTokens := argAmountTokens a;
            createdAt := now;
            waiter := p;
          |} in
          (WaitPending p,
           withNextId (S p)
             (withTimers
                (<[p := {| timeoutEventId := argEventId a; timeoutMs := timeout |}]> (timers s))
                (withPending (JsMap.set (argEventId a) pendingPayment (pendingPayments s)) s)))
      end
  end.

(** The callback of [setTimeout] in [waitForPayment], run when the time-out
    [p] fires. *)
Definition timeoutFires (p : nat) (s : State) : State :=
  match timers s !! p with
  | None => s
  | Some t =>
      let s1 := withTimers (delete p (timers s)) s in
      if JsMap.has (timeoutEventId t) (pendingPayments s1) then
        rejectPromise p (PaymentTimeout (timeoutMs t) (timeoutEventId t))
          (withPending (JsMap.delete (timeoutEventId t) (pendingPayments s1)) s1)
      else s1
  end.

(** *** [handleIncomingTransfer] *)

(** Matching: the reply-to event id first, then the first pending payment
    of the sender. *)
Definition matchPending (ev : Event) (s : State) : option PendingPaymentInternal :=
  let byReplyTo :=
    match replyToEventId ev with
    | Some r => if truthy r then JsMap.get r (pendingPayments s) else None
    | None => None
    end in
  match byReplyTo with
  | Some pending => Some pending
  | None =>
      JsMap.findValue (fun pending => String.eqb (customerPubkey pending) (sender ev))
        (pendingPayments s)
  end.

(** The [catch] block. *)
Definition transferFailed (ev : Event) (pending : PendingPaymentInternal)
    (error : Thrown) (s : State) : State :=
  if truthy_opt (replyToEventId ev) then
    reject pending
      (PaymentFailed (messageOf error "Failed to process token transfer"))
      (withPending (JsMap.delete (eventId pending) (pendingPayments s)) s)
  else s.

(** The end of the [try] block: record the confirmation, remove the pending
    payment, resolve. *)
Definition confirmTransfer (ev : Event) (pending : PendingPaymentInternal)
    (now : Z) (s : State) : State :=
  let confirmed := {|
    confirmedCartId := cartId pending;
    requestEventId := eventId pending;
    transferEventId := id ev;
    confirmedAt := now;
  |} in
  let s1 := withConfirmed (<[cartId pending := confirmed]> (confirmedPayments s)) s in
  let s2 := withPending (JsMap.delete (eventId pending) (pendingPayments s1)) s1 in
  resolve pending confirmed s2.

(** From the amount check to the end of the [try] block. *)
Definition settleTransfer (ev : Event) (pending : PendingPaymentInternal)
    (now : Z) (s : State) : State :=
  match amount ev with
  | Some transferAmount =>
      if negb (transferAmount =? amountTokens pending) then
        reject pending
          (AmountMismatch transferAmount (amountTokens pending))
          (withPending (JsMap.delete (eventId pending) (pendingPayments s)) s)
      else confirmTransfer ev pending now s
  | None => confirmTransfer ev pending now s
  end.

(** The handler up to its first [await]: it runs when the event arrives. *)
Definition handleIncomingTransfer (ev : Event) (s : State) : State :=
  if negb (isTokenTransfer ev) then s
  else
    match matchPending ev s with
    | None => s
    | Some pending =>
        match identityService s with
        | None =>
            transferFailed ev pending (ThrownError "IdentityService not initialized") s
        | Some _ =>
            withNextId (S (nextId s))
              (withTransfers (<[nextId s := (ev, pending)]> (transfers s)) s)
        end
    end.

(** The rest of the handler [h], run once its awaited calls are done. *)
Definition transferProcessed (h : nat) (now : Z) (s : State) : State :=
  match transfers s !! h with
  | None => s
  | Some (ev, pending) =>
      let s1 := withTransfers (delete h (transfers s)) s in
      match tokenData ev with
      | inl error => transferFailed ev pending error s1
      | inr tokenJson =>
          if negb (truthy tokenJson) then
            transferFailed ev pending (ThrownError "Empty token data") s1
          else
            match processed ev with
            | inl error => transferFailed ev pending error s1
            | inr _finalizationSuccess => settleTransfer ev pending now s1
            end
      end
  end.

(** *** Queries *)

Definition getConfirmedPayment (cart : string) (s : State) : option ConfirmedPayment :=
  confirmedPayments s !! cart.

Definition isPaymentConfirmed (cart : string) (s : State) : bool :=
  bool_decide (is_Some (confirmedPayments s !! cart)).


Definition getPendingPaymentByCartId (cart : string) (s : State) : option PendingPaymentInternal :=
  JsMap.findValue (fun pending => String.eqb (cartId pending) cart) (pendingPayments s).

(** *** [shutdown] *)

Definition rejectAll (l : list PendingPaymentInternal) (s : State) : State :=
  fold_left (fun s pending => reject pending (ErrorMessage SHUTTING_DOWN) s) l s.

Definition shutdown (s : State) : State :=
  let s' :=
    match client s with
    | Some _ =>
        let s1 :=
          match transferSubscriptionId s with
          | Some sub =>
              if truthy sub then
                withService (client s) (config s) (identityService s) None
                  (isInitialized s) (emit (Unsubscribe sub) s)
              else s
          | None => s
          end in
        let s2 := rejectAll (JsMap.values (pendingPayments s1)) s1 in
        let s3 := withPending JsMap.empty s2 in
        let s4 := emit Disconnect s3 in
        withService None (config s4) (identityService s4)
          (transferSubscriptionId s4) (isInitialized s4) s4
    | None => s
    end in
  withService (client s') None None (transferSubscriptionId s') false s'.

(** *** [resolvePubkeyWithRetry] and [sendPaymentRequest] *)

(** What the resolution does on the relay and on the clock, in order. *)
Inductive RelayIO : Type :=
| Query (nametag : string)
| Delay (ms : Z).

(** The [for] loop; [lookup attempt] is what
    [await this.client.queryPubkeyByNametag(cleanId)] yields at that
    attempt, a [string | null] as the client declares it, and [remaining]
    counts the iterations left, [maxRetries + 1 - attempt].  The loop is
    taken in one piece: the service is not shut down while it is suspended
    at a lookup or a pause. *)
Fixpoint retryLoop (lookup : nat -> option string) (cleanId : string)
    (maxRetries attempt remaining : nat) : list RelayIO * option string :=
  match remaining with
  | O => ([], None)
  | S remaining' =>
      if truthy_opt (lookup attempt) then ([Query cleanId], lookup attempt)
      else
        let delay :=
          if (attempt <? maxRetries)%nat
          then [Delay (1000 * 2 ^ (Z.of_nat attempt - 1))]
          else [] in
        let '(io, result) := retryLoop lookup cleanId maxRetries (S attempt) remaining' in
        (Query cleanId :: delay ++ io, result)
  end.

Definition DEFAULT_MAX_RETRIES : nat := 3.

Definition resolvePubkeyWithRetry (unicity : string) (maxRetries : nat)
    (lookup : nat -> option string) (s : State)
    : Thrown + (list RelayIO * option string) :=
  match client s with
  | None => inl (ThrownError NOT_INITIALIZED)
  | Some _ => inr (retryLoop lookup (normalizeId unicity) maxRetries 1 maxRetries)
  end.

Definition resolveUnicityId (unicity : string) (lookup : nat -> option string) (s : State)
    : Thrown + (list RelayIO * option string) :=
  match client s with
  | None => inl (ThrownError NOT_INITIALIZED)
  | Some _ => resolvePubkeyWithRetry unicity DEFAULT_MAX_RETRIES lookup s
  end.

Record PaymentRequestResult : Type := {
  resultEventId : string;
  resultAmountTokens : Z;
  recipientNametag : string;
  coinId : string;
  resultCustomerPubkey : string;
}.

(** [publish] is the result of [await this.client.sendPaymentRequest(..)]:
    it rejects, or yields the id of the published event. *)
Definition sendPaymentRequest (cart unicity : string) (tokens : Z)
    (lookup : nat -> option string) (publish : Thrown + string) (s : State)
    : Thrown + PaymentRequestResult :=
  match client s, config s, identityService s with
  | Some _, Some cfg, Some _ =>
      let normalizedId := normalizeId unicity in
      match resolvePubkeyWithRetry normalizedId DEFAULT_MAX_RETRIES lookup s with
      | inl t => inl t
      | inr (_, Some pubkey) =>
          if truthy pubkey then
            match publish with
            | inl t => inl t
            | inr published =>
                inr {| resultEventId := published;
                       resultAmountTokens := tokens;
                       recipientNametag := nametag cfg;
                       coinId := paymentCoinId cfg;
                       resultCustomerPubkey := pubkey |}
            end
          else
            inl (ThrownError
                   ("Could not resolve Unicity ID @" ++ normalizedId ++ " to a public key"))
      | inr (_, None) =>
          inl (ThrownError
                 ("Could not resolve Unicity ID @" ++ normalizedId ++ " to a public key"))
      end
  | _, _, _ => inl (ThrownError NOT_INITIALIZED)
  end.

(** *** Runs of the service *)

(** What can happen to a service, one uninterrupted piece at a time.
    [Connected] is the continuation of [initialize] and [Reconnected] the
    [onReconnected] listener; a run may take them at any time, which only
    adds runs to those of the program. *)
Inductive Action : Type :=
| Initialize (cfg : Config) (ids : IdentityService)
| Connected (subscriptionId : string)
| Reconnected (subscriptionId : string)
| WaitForPayment (a : WaitArgs) (now : Z)
| TimeoutFires (p : nat)
| TransferArrives (ev : Event)
| TransferProcessed (h : nat) (now : Z)
| Shutdown.

Definition exec (a : Action) (s : State) : State :=
  match a with
  | Initialize cfg ids => initialize cfg ids s
  | Connected sub => initialize_connected sub s
  | Reconnected sub => subscribeToTokenTransfers sub s
  | WaitForPayment args now => snd (waitForPayment args now s)
  | TimeoutFires p => timeoutFires p s
  | TransferArrives ev => handleIncomingTransfer ev s
  | TransferProcessed h now => transferProcessed h now s
  | Shutdown => shutdown s
  end.

Definition run (trace : list Action) (s : State) : State :=
  fold_left (fun s a => exec a s) trace s.

End Nostr.

(** ** The order store, [payment-tracker.ts] *)

Module Tracker.

Inductive OrderStatus : Type :=
| pending
| awaiting_payment
| paid
| cancelled
| payment_timeout.

Definition OrderStatus_eqb (a b : OrderStatus) : bool :=
  match a, b with
  | pending, pending
  | awaiting_payment, awaiting_payment
  | paid, paid
  | cancelled, cancelled
  | payment_timeout, payment_timeout => true
  | _, _ => false
  end.

Record Order : Type := {
  id : string;
  cartId : string;
  status : OrderStatus;
  totalAmountCents : Z;
  currency : string;
  paymentEventId : option string;
  unicityId : option string;
  createdAt : Z;
  updatedAt : Z;
  paidAt : option Z;
}.

(** [const orders: Map<string, Order>].  An order is only reached through
    this map, so changing a field of the object is replacing the entry. *)
Abbreviation Orders := (gmap string Order).

(** [uuid] is the value of [randomUUID()] and [now] of [new Date()]. *)
Definition trackOrder (cart : string) (total : Z) (cur : string)
    (uuid : string) (now : Z) (orders : Orders) : Order * Orders :=
  let order := {|
    id := uuid; cartId := cart; status := pending;
    totalAmountCents := total; currency := cur;
    paymentEventId := None; unicityId := None;
    createdAt := now; updatedAt := now; paidAt := None;
  |} in
  (order, <[cart := order]> orders).

Definition getOrderByCartId (cart : string) (orders : Orders) : option Order :=
  orders !! cart.

Definition getOrderStatus (cart : string) (orders : Orders) : option OrderStatus :=
  status <$> orders !! cart.

(** [now] is the first [new Date()] of the call and [paidNow] the second,
    taken only when the new status is [paid]. *)
Definition updateOrderStatus (cart : string) (st : OrderStatus)
    (now paidNow : Z) (orders : Orders) : option Order * Orders :=
  match orders !! cart with
  | None => (None, orders)
  | Some order =>
      let order' := {|
        id := id order; cartId := cartId order; status := st;
        totalAmountCents := totalAmountCents order; currency := currency order;
        paymentEventId := paymentEventId order; unicityId := unicityId order;
        createdAt := createdAt order; updatedAt := now;
        paidAt := if OrderStatus_eqb st paid then Some paidNow else paidAt order;
      |} in
      (Some order', <[cart := order']> orders)
  end.

Definition markAwaitingPayment (cart event unicity : string)
    (now : Z) (orders : Orders) : option Order * Orders :=
  match orders !! cart with
  | None => (None, orders)
  | Some order =>
      let order' := {|
        id := id order; cartId := cartId order; status := awaiting_payment;
        totalAmountCents := totalAmountCents order; currency := currency order;
        paymentEventId := Some event; unicityId := Some unicity;
        createdAt := createdAt order; updatedAt := now;
        paidAt := paidAt order;
      |} in
      (Some order', <[cart := order']> orders)
  end.

Definition markPaid (cart : string) (now paidNow : Z) (orders : Orders) :=
  updateOrderStatus cart paid now paidNow orders.

Definition markCancelled (cart : string) (now : Z) (orders : Orders) :=
  updateOrderStatus cart cancelled now now orders.

Definition markPaymentTimeout (cart : string) (now : Z) (orders : Orders) :=
  updateOrderStatus cart payment_timeout now now orders.

(** The lifecycle of the specification: the transitions it allows. *)
Inductive lifecycle : OrderStatus -> OrderStatus -> Prop :=
| request_issued : lifecycle pending awaiting_payment
| payment_confirmed : lifecycle awaiting_payment paid
| checkout_aborted : lifecycle awaiting_payment cancelled
| deadline_exceeded : lifecycle awaiting_payment payment_timeout.

Definition terminal (st : OrderStatus) : bool :=
  match st with
  | paid | cancelled | payment_timeout => true
  | pending | awaiting_payment => false
  end.

End Tracker.

(** ** The cart store, [store/cart.ts] (the part the checkout uses) *)

Module Carts.

Record CartLine : Type := {
  lineId : string;
  variantId : string;
  variantTitle : string;
  productTitle : string;
  quantity : Z;
  unitPriceCents : Z;
  lineTotalCents : Z;
}.

Record Cart : Type := {
  id : string;
  lines : list CartLine;
  subtotalCents : Z;
  currency : string;
  createdAt : Z;
  updatedAt : Z;
  lockedForCheckout : option bool;
}.

Abbreviation Carts := (gmap string Cart).

Definition getCart (cart : string) (carts : Carts) : option Cart := carts !! cart.

Definition setLocked (flag : bool) (now : Z) (c : Cart) : Cart := {|
  id := id c; lines := lines c; subtotalCents := subtotalCents c;
  currency := currency c; createdAt := createdAt c; updatedAt := now;
  lockedForCheckout := Some flag;
|}.

Definition lockCartForCheckout (cart : string) (now : Z) (carts : Carts) : bool * Carts :=
  match carts !! cart with
  | None => (false, carts)
  | Some c => (true, <[cart := setLocked true now c]> carts)
  end.

Definition unlockCart (cart : string) (now : Z) (carts : Carts) : bool * Carts :=
  match carts !! cart with
  | None => (false, carts)
  | Some c => (true, <[cart := setLocked false now c]> carts)
  end.

(** [cart?.lockedForCheckout ?? false] *)
Definition isCartLocked (cart : string) (carts : Carts) : bool :=
  match carts !! cart with
  | Some c => default false (lockedForCheckout c)
  | None => false
  end.

End Carts.

(** ** The payment tools, [tools/payment.ts] *)

Module Tools.

(** What [getVariantById] tells about a variant. *)
Record Variant : Type := {
  availableForSale : bool;
  quantityAvailable : option Z;
}.

Inductive InventoryError : Type :=
| VariantGone (line : Carts.CartLine)
| OutOfStock (line : Carts.CartLine)
| Insufficient (line : Carts.CartLine) (available : Z).

(** The inventory loop; [getVariantById v] is the result of
    [await getVariantById(v)], which rejects, yields [null] or a variant. *)
Fixpoint inventoryLoop (getVariantById : string -> Thrown + option Variant)
    (lines : list Carts.CartLine) (inventoryErrors : list InventoryError)
    : Thrown + list InventoryError :=
  match lines with
  | [] => inr inventoryErrors
  | line :: rest =>
      match getVariantById (Carts.variantId line) with
      | inl t => inl t
      | inr None =>
          inventoryLoop getVariantById rest (inventoryErrors ++ [VariantGone line])
      | inr (Some variant) =>
          if negb (availableForSale variant) then
            inventoryLoop getVariantById rest (inventoryErrors ++ [OutOfStock line])
          else
            match quantityAvailable variant with
            | Some available =>
                if available <? Carts.quantity line then
                  inventoryLoop getVariantById rest
                    (inventoryErrors ++ [Insufficient line available])
                else inventoryLoop getVariantById rest inventoryErrors
            | None => inventoryLoop getVariantById rest inventoryErrors
            end
      end
  end.

(** The module state: [checkoutLocks] and the two stores it imports. *)
Record Store : Type := {
  checkoutLocks : gset string;
  carts : Carts.Carts;
  orders : Tracker.Orders;
}.

Definition withLocks (l : gset string) (st : Store) : Store :=
  {| checkoutLocks := l; carts := carts st; orders := orders st |}.

(** [checkoutLocks.add(cartId)] *)
Definition acquire (cart : string) (st : Store) : Store :=
  withLocks ({[cart]} ∪ checkoutLocks st) st.

(** The [finally] block: [checkoutLocks.delete(cartId)]. *)
Definition release (cart : string) (st : Store) : Store :=
  withLocks (checkoutLocks st ∖ {[cart]}) st.

Definition isCheckoutInProgress (cart : string) (st : Store) : bool :=
  bool_decide (cart ∈ checkoutLocks st).

(** The replies of [checkout_with_unicity], by the text they carry. *)
Inductive CheckoutResponse : Type :=
| InProgress (cart : string)
| CartNotFound (cart : string)
| CartEmpty (cart : string)
| InventoryIssues (inventoryErrors : list InventoryError)
| AlreadyPaid (cart order : string)
| PaymentPending (cart : string) (paymentEventId : option string)
| NotConnected
| RequestFailed (message : string)
| CheckoutFailed (message : string)
| RequestSent (cart : string) (request : Nostr.PaymentRequestResult).

Definition isError (r : CheckoutResponse) : bool :=
  match r with
  | RequestSent _ _ => false
  | _ => true
  end.

(** A checkout suspended in the inventory loop.  [invCart] is the cart
    object found at the entry; the operations on carts embedded here change
    a cart in its lock flag and its time stamp only, so what the handler
    reads from the object after an [await] is what it holds here (an
    [add_to_cart] or [remove_from_cart] that runs in between is outside the
    embedding). *)
Record InventoryTask : Type := {
  invCartId : string;
  invUnicityId : string;
  invCart : Carts.Cart;
}.

(** A checkout suspended at [await nostrService.sendPaymentRequest(..)];
    [reqAmountTokens] is [BigInt(cart.subtotalCents)]. *)
Record RequestTask : Type := {
  reqCartId : string;
  reqUnicityId : string;
  reqCart : Carts.Cart;
  reqAmountTokens : Z;
}.

(** The handler of [checkout_with_unicity] from its entry to the first
    [await]. *)
Definition checkout_entry (cart unicity : string) (st : Store)
    : (CheckoutResponse + InventoryTask) * Store :=
  if isCheckoutInProgress cart st then (inl (InProgress cart), st)
  else
    let st1 := acquire cart st in
    match Carts.getCart cart (carts st1) with
    | None => (inl (CartNotFound cart), release cart st1)
    | Some c =>
        match Carts.lines c with
        | [] => (inl (CartEmpty cart), release cart st1)
        | _ :: _ =>
            (inr {| invCartId := cart; invUnicityId := unicity; invCart := c |}, st1)
        end
    end.

(** From the end of the inventory loop to the payment request;
    [connected] is [nostrService.isConnected()]. *)
Definition checkout_afterInventory (task : InventoryTask)
    (getVariantById : string -> Thrown + option Variant) (connected : bool)
    (st : Store) : (CheckoutResponse + RequestTask) * Store :=
  let cart := invCartId task in
  match inventoryLoop getVariantById (Carts.lines (invCart task)) [] with
  | inl t =>
      (inl (CheckoutFailed (messageOf t "Unknown error occurred")), release cart st)
  | inr (e :: es) => (inl (InventoryIssues (e :: es)), release cart st)
  | inr [] =>
      let proceed :=
        if negb connected then (inl NotConnected, release cart st)
        else
          (inr {| reqCartId := cart; reqUnicityId := invUnicityId task;
                  reqCart := invCart task;
                  reqAmountTokens := Carts.subtotalCents (invCart task) |}, st) in
      match Tracker.getOrderByCartId cart (orders st) with
      | Some existingOrder =>
          match Tracker.status existingOrder with
          | Tracker.paid =>
              (inl (AlreadyPaid cart (Tracker.id existingOrder)), release cart st)
          | Tracker.awaiting_payment =>
              (inl (PaymentPending cart (Tracker.paymentEventId existingOrder)),
               release cart st)
          | _ => proceed
          end
      | None => proceed
      end
  end.

(** From the result of the payment request to the end; [uuid] and the three
    times are those of [trackOrder], [markAwaitingPayment] and
    [lockCartForCheckout]. *)
Definition checkout_afterRequest (task : RequestTask)
    (result : Thrown + Nostr.PaymentRequestResult)
    (uuid : string) (now1 now2 now3 : Z) (st : Store) : CheckoutResponse * Store :=
  let cart := reqCartId task in
  match result with
  | inl t => (RequestFailed (messageOf t "Unknown error"), release cart st)
  | inr paymentRequest =>
      let orders1 :=
        snd (Tracker.trackOrder cart (Carts.subtotalCents (reqCart task))
               (Carts.currency (reqCart task)) uuid now1 (orders st)) in
      let orders2 :=
        snd (Tracker.markAwaitingPayment cart (Nostr.resultEventId paymentRequest)
               (reqUnicityId task) now2 orders1) in
      let carts1 := snd (Carts.lockCartForCheckout cart now3 (carts st)) in
      (RequestSent cart paymentRequest,
       release cart {| checkoutLocks := checkoutLocks st; carts := carts1; orders := orders2 |})
  end.

(** The handler of [checkout_with_unicity], run from its entry to its reply
    with nothing in between. *)
Definition checkout_with_unicity (cart unicity : string)
    (getVariantById : string -> Thrown + option Variant) (connected : bool)
    (result : Thrown + Nostr.PaymentRequestResult)
    (uuid : string) (now1 now2 now3 : Z) (st : Store) : CheckoutResponse * Store :=
  match checkout_entry cart unicity st with
  | (inl r, st1) => (r, st1)
  | (inr t1, st1) =>
      match checkout_afterInventory t1 getVariantById connected st1 with
      | (inl r, st2) => (r, st2)
      | (inr t2, st2) => checkout_afterRequest t2 result uuid now1 now2 now3 st2
      end
  end.

(** *** Concurrent invocations *)

Inductive Suspended : Type :=
| AtInventory (t : InventoryTask)
| AtRequest (t : RequestTask).

Definition taskCart (t : Suspended) : string :=
  match t with
  | AtInventory t => invCartId t
  | AtRequest t => reqCartId t
  end.

(** The store, the invocations suspended at an [await], the replies given
    so far and the number of the next invocation. *)
Record Server : Type := {
  store : Store;
  suspended : gmap nat Suspended;
  replies : gmap nat CheckoutResponse;
  nextCall : nat;
}.

Definition idle (st : Store) : Server :=
  {| store := st; suspended := ∅; replies := ∅; nextCall := 0%nat |}.

Inductive ToolEvent : Type :=
| Invoke (cart unicity : string)
| InventoryDone (call : nat) (getVariantById : string -> Thrown + option Variant)
    (connected : bool)
| RequestDone (call : nat) (result : Thrown + Nostr.PaymentRequestResult)
    (uuid : string) (now1 now2 now3 : Z).

Definition finish (call : nat) (r : CheckoutResponse) (st : Store) (sv : Server) : Server :=
  {| store := st; suspended := delete call (suspended sv);
     replies := <[call := r]> (replies sv); nextCall := nextCall sv |}.

Definition suspend (call : nat) (t : Suspended) (st : Store) (sv : Server) : Server :=
  {| store := st; suspended := <[call := t]> (suspended sv);
     replies := replies sv; nextCall := nextCall sv |}.

Definition step (e : ToolEvent) (sv : Server) : Server :=
  match e with
  | Invoke cart unicity =>
      let call := nextCall sv in
      let sv' := {| store := store sv; suspended := suspended sv;
                    replies := replies sv; nextCall := S call |} in
      match checkout_entry cart unicity (store sv) with
      | (inl r, st) => finish call r st sv'
      | (inr t, st) => suspend call (AtInventory t) st sv'
      end
  | InventoryDone call getVariantById connected =>
      match suspended sv !! call with
      | Some (AtInventory t) =>
          match checkout_afterInventory t getVariantById connected (store sv) with
          | (inl r, st) => finish call r st sv
          | (inr t', st) => suspend call (AtRequest t') st sv
          end
      | _ => sv
      end
  | RequestDone call result uuid now1 now2 now3 =>
      match suspended sv !! call with
      | Some (AtRequest t) =>
          let '(r, st) := checkout_afterRequest t result uuid now1 now2 now3 (store sv) in
          finish call r st sv
      | _ => sv
      end
  end.

Definition serve (events : list ToolEvent) (sv : Server) : Server :=
  fold_left (fun sv e => step e sv) events sv.

(** *** [confirm_payment]: the wait window *)

(** A [number] accepted by the input schema [z.number()], which refuses
    [NaN]. *)
Inductive number : Type :=
| NegInfinity
| Finite (q : Q)
| Infinity.

Definition number_le (a b : number) : bool :=
  match a, b with
  | NegInfinity, _ => true
  | _, Infinity => true
  | Finite x, Finite y => Qle_bool x y
  | _, _ => false
  end.

Definition Math_max (a b : number) : number := if number_le b a then a else b.
Definition Math_min (a b : number) : number := if number_le a b then a else b.

(** [Math.min(Math.max(waitSeconds ?? 0, 0), 120)] *)
Definition effectiveWaitSeconds (waitSeconds : option number) : number :=
  Math_min (Math_max (default (Finite 0) waitSeconds) (Finite 0)) (Finite 120).

End Tools.

(** * Notions used in the statements *)

Module NostrSpec.
Import Nostr.

(** The relay traffic of [n] attempts starting at attempt [a] when none
    but possibly the last one succeeds: a query per attempt and, between
    two attempts, a pause of [1000 * 2 ^ (attempt - 1)] milliseconds. *)
Fixpoint backoff (cleanId : string) (a n : nat) : list RelayIO :=
  match n with
  | O => []
  | S O => [Query cleanId]
  | S n' =>
      Query cleanId :: Delay (1000 * 2 ^ (Z.of_nat a - 1)) :: backoff cleanId (S a) n'
  end.

Definition queries (io : list RelayIO) : nat :=
  length (List.filter (fun x => match x with Query _ => true | Delay _ => false end) io).

Definition never_found : nat -> option string := fun _ => None.

Definition found_at (k : nat) (pubkey : string) : nat -> option string :=
  fun attempt => if (attempt =? k)%nat then Some pubkey else None.

(** A service whose [initialize] has completed: it has a client and the id
    of its token-transfer subscription. *)
Definition initialized (s : State) : Prop :=
  isInitialized s = true
  /\ is_Some (client s)
  /\ exists sub, transferSubscriptionId s = Some sub /\ truthy sub = true.

(** The handler [h] is suspended with the event [ev] and the pending
    payment it was matched to. *)
Definition inFlight (s : State) (h : nat) (ev : Event) (pending : PendingPaymentInternal) : Prop :=
  transfers s !! h = Some (ev, pending).

(** The awaited calls of the handler went through: the token data was
    decrypted to a non-empty text, and parsing and processing it did not
    throw. *)
Definition payloadProcessed (ev : Event) : Prop :=
  exists tokenJson finalizationSuccess,
    tokenData ev = inr tokenJson
    /\ truthy tokenJson = true
    /\ processed ev = inr finalizationSuccess.

(** Among the effects [new], a rejection with the amount-mismatch error. *)
Definition mismatchRaised (new : list Effect) : Prop :=
  exists p received expected, In (Reject p (AmountMismatch received expected)) new.

(** The confirmation made of [pending] and [ev] at the time [now]. *)
Definition confirmationOf (ev : Event) (pending : PendingPaymentInternal) (now : Z)
    : ConfirmedPayment := {|
  confirmedCartId := cartId pending;
  requestEventId := eventId pending;
  transferEventId := id ev;
  confirmedAt := now;
|}.

(** The action registers a pending payment under the event id [e] (or
    would, on the slow path of [waitForPayment]). *)
Definition registers (e : string) (a : Action) : bool :=
  match a with
  | WaitForPayment args _ => String.eqb (argEventId args) e
  | _ => false
  end.

(** Every pending payment is stored under its own event id. *)
Definition keyed (s : State) : Prop :=
  forall k pending, In (k, pending) (pendingPayments s) -> eventId pending = k.

(** Nothing in the service refers to the event id [e]: no pending payment,
    no armed time-out, no suspended handler. *)
Definition unreferenced (e : string) (s : State) : Prop :=
  JsMap.get e (pendingPayments s) = None
  /\ (forall q t, timers s !! q = Some t -> timeoutEventId t <> e)
  /\ (forall h ev pending, transfers s !! h = Some (ev, pending) -> eventId pending <> e).

(** The waiter [p] is indexed under the event id [e]: its pending payment
    is there, its time-out is armed, and whatever else mentions [e] belongs
    to [p]. *)
Definition indexed (e : string) (p : nat) (s : State) : Prop :=
  (exists pending, JsMap.get e (pendingPayments s) = Some pending /\ waiter pending = p)
  /\ (exists t, timers s !! p = Some t /\ timeoutEventId t = e)
  /\ (forall k pending, In (k, pending) (pendingPayments s) ->
        eventId pending = e -> waiter pending = p)
  /\ (forall q t, timers s !! q = Some t -> timeoutEventId t = e -> q = p)
  /\ (forall h ev pending, transfers s !! h = Some (ev, pending) ->
        eventId pending = e -> waiter pending = p).

(** The waiter [p] of the event id [e] while nobody else uses [e]: as long
    as [p] is not settled, it is indexed under [e]. *)
Definition tracked (e : string) (p : nat) (s : State) : Prop :=
  (p < nextId s)%nat /\ (promises s !! p = None -> indexed e p s).

(** The waiter [p] that nothing can settle any more: it is pending, no
    pending payment and no suspended handler holds its [resolve]/[reject],
    and its time-out is gone. *)
Definition orphaned (p : nat) (s : State) : Prop :=
  (p < nextId s)%nat
  /\ promises s !! p = None
  /\ timers s !! p = None
  /\ (forall k pending, In (k, pending) (pendingPayments s) -> waiter pending <> p)
  /\ (forall h ev pending, transfers s !! h = Some (ev, pending) -> waiter pending <> p).

(** Every number in use was handed out: it is below the next free one. *)
Definition allocated (s : State) : Prop :=
  (forall q o, promises s !! q = Some o -> (q < nextId s)%nat)
  /\ (forall q t, timers s !! q = Some t -> (q < nextId s)%nat)
  /\ (forall k pending, In (k, pending) (pendingPayments s) ->
        (waiter pending < nextId s)%nat)
  /\ (forall h ev pending, transfers s !! h = Some (ev, pending) ->
        (waiter pending < nextId s)%nat).

(** The states a service goes through, from its construction. *)
Definition reachable (s : State) : Prop := exists trace, s = run trace fresh.

(** The pending payment that [waitForPayment a] registers at the time [now]
    for the promise [p]. *)
Definition registered (a : WaitArgs) (now : Z) (p : nat) : PendingPaymentInternal := {|
  cartId := argCartId a;
  eventId := argEventId a;
  unicityId := normalizeId (argUnicityId a);
  customerPubkey := argCustomerPubkey a;
  amountTokens := argAmountTokens a;
  createdAt := now;
  waiter := p;
|}.

(** The outcomes a waiter registered with [a] can be given. *)
Inductive outcomeOf (a : WaitArgs) : Settlement -> Prop :=
| outcome_confirmed transfer at_ :
    outcomeOf a (Fulfilled {| confirmedCartId := argCartId a;
                              requestEventId := argEventId a;
                              transferEventId := transfer;
                              confirmedAt := at_ |})
| outcome_mismatch received :
    received <> argAmountTokens a ->
    outcomeOf a (Rejected (AmountMismatch received (argAmountTokens a)))
| outcome_failed message :
    outcomeOf a (Rejected (PaymentFailed message))
| outcome_timeout t :
    outcomeOf a (Rejected (PaymentTimeout t (argEventId a)))
| outcome_shutdown :
    outcomeOf a (Rejected (ErrorMessage SHUTTING_DOWN)).

(** Whatever can still settle the promise [p] was made by the call
    [waitForPayment a] at the time [now], and what [p] has been given, if
    anything, is an outcome of that call. *)
Definition owned (a : WaitArgs) (now : Z) (p : nat) (s : State) : Prop :=
  (p < nextId s)%nat
  /\ (forall k pending, In (k, pending) (pendingPayments s) ->
        waiter pending = p -> pending = registered a now p)
  /\ (forall h ev pending, transfers s !! h = Some (ev, pending) ->
        waiter pending = p -> pending = registered a now p)
  /\ (forall t, timers s !! p = Some t -> timeoutEventId t = argEventId a)
  /\ (forall o, promises s !! p = Some o -> outcomeOf a o).

(** *** Sample data *)

Definition sample_config : Config := {|
  nostrRelayUrl := "wss://relay.example"; nametag := "runic-vault";
  paymentCoinId := "coin-1"; paymentTimeoutSeconds := 120;
|}.

Definition sample_identity : IdentityService := {| publicKeyHex := "02ab" |}.

Definition sample_wait : WaitArgs := {|
  argCartId := "cart-1"; argEventId := "evt-1"; argUnicityId := "@alice";
  argCustomerPubkey := "pk-alice"; argAmountTokens := 4999;
  argTimeoutMs := Some 5000%Q;
|}.

Definition connected_service : State :=
  run [Initialize sample_config sample_identity; Connected "sub-123"] fresh.

(** An initialized service on which one [waitForPayment] is pending. *)
Definition waiting_service : State :=
  run [Initialize sample_config sample_identity; Connected "sub-123";
       WaitForPayment sample_wait 1000] fresh.

(** The pending payment that [waiting_service] holds. *)
Definition sample_pending : PendingPaymentInternal := {|
  cartId := "cart-1"; eventId := "evt-1"; unicityId := "alice";
  customerPubkey := "pk-alice"; amountTokens := 4999; createdAt := 1000;
  waiter := 0;
|}.

(** A transfer of [tokens] from the expected sender, in reply to
    [replyTo], whose token data is [data]. *)
Definition sample_transfer (replyTo : option string) (tokens : option Z)
    (data : Thrown + string) : Event := {|
  id := "transfer-1"; isTokenTransfer := true; replyToEventId := replyTo;
  sender := "pk-alice"; amount := tokens; tokenData := data;
  processed := inr true;
|}.

End NostrSpec.

Module TrackerSpec.
Import Tracker.

(** The transitions the tools make on an order, as they call them. *)
Inductive Transition : Type :=
| MarkAwaitingPayment (event unicity : string)
| MarkPaid
| MarkCancelled
| MarkPaymentTimeout.

Definition target (t : Transition) : OrderStatus :=
  match t with
  | MarkAwaitingPayment _ _ => awaiting_payment
  | MarkPaid => paid
  | MarkCancelled => cancelled
  | MarkPaymentTimeout => payment_timeout
  end.

Definition transition (t : Transition) (cart : string) (now paidNow : Z)
    (orders : Orders) : option Order * Orders :=
  match t with
  | MarkAwaitingPayment event unicity => markAwaitingPayment cart event unicity now orders
  | MarkPaid => markPaid cart now paidNow orders
  | MarkCancelled => markCancelled cart now orders
  | MarkPaymentTimeout => markPaymentTimeout cart now orders
  end.

Definition paid_order : Order := {|
  id := "order-1"; cartId := "cart-1"; status := paid;
  totalAmountCents := 4999; currency := "USD";
  paymentEventId := Some "evt-1"; unicityId := Some "@alice";
  createdAt := 100; updatedAt := 200; paidAt := Some 200;
|}.

End TrackerSpec.

Module ToolsSpec.
Import Tools.

(** The number of the interval [0, 120] nearest to [x]. *)
Definition clamp_0_120 (x : number) : number :=
  match x with
  | NegInfinity => Finite 0
  | Infinity => Finite 120
  | Finite q =>
      if negb (Qle_bool 0 q) then Finite 0
      else if negb (Qle_bool q 120) then Finite 120
      else Finite q
  end.

(** The lock set is the set of the carts of the suspended invocations, no
    two of which are on the same cart. *)
Definition coherent (sv : Server) : Prop :=
  (forall c, c ∈ checkoutLocks (store sv) <->
             exists i t, suspended sv !! i = Some t /\ taskCart t = c)
  /\ (forall i j t1 t2,
        suspended sv !! i = Some t1 -> suspended sv !! j = Some t2 ->
        taskCart t1 = taskCart t2 -> i = j)
  /\ (forall i t, suspended sv !! i = Some t -> (i < nextCall sv)%nat).

(** The order made by a successful checkout. *)
Definition orderOf (task : RequestTask) (request : Nostr.PaymentRequestResult)
    (uuid : string) (now1 now2 : Z) : Tracker.Order := {|
  Tracker.id := uuid;
  Tracker.cartId := reqCartId task;
  Tracker.status := Tracker.awaiting_payment;
  Tracker.totalAmountCents := Carts.subtotalCents (reqCart task);
  Tracker.currency := Carts.currency (reqCart task);
  Tracker.paymentEventId := Some (Nostr.resultEventId request);
  Tracker.unicityId := Some (reqUnicityId task);
  Tracker.createdAt := now1;
  Tracker.updatedAt := now2;
  Tracker.paidAt := None;
|}.

(** *** Sample data *)

Definition sample_line : Carts.CartLine := {|
  Carts.lineId := "line-1"; Carts.variantId := "variant-1";
  Carts.variantTitle := "Near Mint"; Carts.productTitle := "Charizard";
  Carts.quantity := 1; Carts.unitPriceCents := 4999; Carts.lineTotalCents := 4999;
|}.

Definition sample_cart : Carts.Cart := {|
  Carts.id := "cart-1"; Carts.lines := [sample_line]; Carts.subtotalCents := 4999;
  Carts.currency := "USD"; Carts.createdAt := 10; Carts.updatedAt := 20;
  Carts.lockedForCheckout := None;
|}.

Definition sample_store : Store := {|
  checkoutLocks := ∅;
  carts := {[ "cart-1" := sample_cart ]};
  orders := ∅;
|}.

Definition in_stock : string -> Thrown + option Variant :=
  fun _ => inr (Some {| availableForSale := true; quantityAvailable := Some 3 |}).

Definition sample_request : Nostr.PaymentRequestResult := {|
  Nostr.resultEventId := "evt-1"; Nostr.resultAmountTokens := 4999;
  Nostr.recipientNametag := "runic-vault"; Nostr.coinId := "coin-1";
  Nostr.resultCustomerPubkey := "pk-alice";
|}.

End ToolsSpec.


(** * The rest of the stores and tools

  The modules below embed what the sources hold besides the payment core:
  - [src/types.ts]                   ([sanitizeForDisplay])
  - [src/store/cart.ts]              (the whole cart store)
  - [src/unicity/payment-tracker.ts] (deleting and pruning orders)
  - [src/shopify/client.ts]          ([executeQuery], the retries)
  - [src/unicity/nostr.ts]           (the remaining queries, the singleton)
  - [src/tools/payment.ts]           ([confirm_payment], the whole handler)
  - [src/tools/cart.ts]              ([add_to_cart], [remove_from_cart])
  - [src/store/buylist.ts], [src/tools/buylist.ts] (the buy list) *)

From Stdlib Require SpecFloat.

(** ** [sanitizeForDisplay], [types.ts] *)

Module Display.

(** A JavaScript string whose length and characters are looked at: the
    list of its UTF-16 code units.  [length], [slice] and a regular
    expression without the [u] flag all work on code units. *)
Definition JsString : Type := list N.

(** ["..."] *)
Definition ELLIPSIS : JsString := [46; 46; 46]%N.

(** ["&lt;"] and ["&gt;"] *)
Definition AMP_LT : JsString := [38; 108; 116; 59]%N.
Definition AMP_GT : JsString := [38; 103; 116; 59]%N.

Definition LESS_THAN : N := 60.
Definition GREATER_THAN : N := 62.

(** The class [[\x00-\x1f\x7f]]. *)
Definition isControl (c : N) : bool := ((c <=? 31) || (c =? 127))%N.

(** [s.replace(/c/g, by)] for a single code unit [c]. *)
Definition replaceAll (c : N) (by_ : JsString) (s : JsString) : JsString :=
  flat_map (fun x => if (x =? c)%N then by_ else [x]) s.

(** [input.length > 100 ? input.slice(0, 100) + "..." : input] *)
Definition truncate (input : JsString) : JsString :=
  if (100 <? length input)%nat then (firstn 100 input ++ ELLIPSIS)%list else input.

(** The function on strings (its callers pass the [string] that the input
    schema has checked, so the [typeof] test at its head does not fire). *)
Definition sanitizeForDisplay (input : JsString) : JsString :=
  let truncated := truncate input in
  replaceAll GREATER_THAN AMP_GT
    (replaceAll LESS_THAN AMP_LT
       (List.filter (fun c => negb (isControl c)) truncated)).

End Display.

(** ** The cart store, [store/cart.ts] (all of it) *)

Module CartStore.

(** What the store reads of a [ShopifyProduct] and of a [ShopifyVariant]. *)
Record ShopifyProduct : Type := {
  title : string;
  handle : string;
}.

Record Money : Type := {
  amount : string;
  currencyCode : string;
}.

Module ShopifyVariant.
Record t : Type := {
  id : string;
  title : string;
  price : Money;
}.
End ShopifyVariant.

Module CartLine.
Record t : Type := {
  id : string;
  variantId : string;
  variantTitle : string;
  productTitle : string;
  productHandle : string;
  quantity : Z;
  unitPriceCents : Z;
  lineTotalCents : Z;
  currency : string;
}.
End CartLine.

(** The full [Cart]; [Carts.Cart] above is what the checkout reads of it. *)
Record Cart : Type := {
  id : string;
  lines : list CartLine.t;
  subtotalCents : Z;
  currency : string;
  createdAt : Z;
  updatedAt : Z;
  lockedForCheckout : option bool;
}.

(** [const carts: Map<string, Cart>], whose order [getAllCarts] and
    [pruneOldCarts] go through.  A cart object is reached through the map
    by the functions of this module, so changing the object is replacing
    the entry. *)
Abbreviation Store := (JsMap.t Cart).

Inductive CartError : Type :=
| cart_not_found
| cart_locked
| currency_mismatch (cartCurrency variantCurrency : string)
| line_not_found.

(** [CartOperationResult]; the [message] of a failure is fixed by its
    [error], but for the two currencies that [currency_mismatch] names. *)
Inductive CartOperationResult : Type :=
| Success (cart : Cart)
| Failure (error : CartError).

(** [uuid] is the value of [randomUUID()] and [now] of [new Date()]. *)
Definition createCart (uuid : string) (now : Z) (carts : Store) : Cart * Store :=
  let cart := {|
    id := uuid; lines := []; subtotalCents := 0; currency := "AED";
    createdAt := now; updatedAt := now; lockedForCheckout := None;
  |} in
  (cart, JsMap.set uuid cart carts).

Definition getCart (cartId : string) (carts : Store) : option Cart :=
  JsMap.get cartId carts.

Definition setLocked (flag : bool) (now : Z) (cart : Cart) : Cart := {|
  id := id cart; lines := lines cart; subtotalCents := subtotalCents cart;
  currency := currency cart; createdAt := createdAt cart; updatedAt := now;
  lockedForCheckout := Some flag;
|}.

Definition lockCartForCheckout (cartId : string) (now : Z) (carts : Store) : bool * Store :=
  match JsMap.get cartId carts with
  | None => (false, carts)
  | Some cart => (true, JsMap.set cartId (setLocked true now cart) carts)
  end.

Definition unlockCart (cartId : string) (now : Z) (carts : Store) : bool * Store :=
  match JsMap.get cartId carts with
  | None => (false, carts)
  | Some cart => (true, JsMap.set cartId (setLocked false now cart) carts)
  end.

(** [cart?.lockedForCheckout ?? false] *)
Definition isCartLocked (cartId : string) (carts : Store) : bool :=
  match JsMap.get cartId carts with
  | Some cart => default false (lockedForCheckout cart)
  | None => false
  end.

(** [cart.lines.reduce((sum, line) => sum + line.lineTotalCents, 0)] *)
Definition sumLines (lines : list CartLine.t) : Z :=
  fold_left (fun sum line => sum + CartLine.lineTotalCents line) lines 0.

(** [recalculateCart(cart)]: the subtotal, and the currency of the first
    line when there is one. *)
Definition recalculateCart (cart : Cart) : Cart := {|
  id := id cart; lines := lines cart;
  subtotalCents := sumLines (lines cart);
  currency :=
    match lines cart with
    | [] => currency cart
    | first :: _ => CartLine.currency first
    end;
  createdAt := createdAt cart; updatedAt := updatedAt cart;
  lockedForCheckout := lockedForCheckout cart;
|}.

Definition withLines (l : list CartLine.t) (cart : Cart) : Cart := {|
  id := id cart; lines := l; subtotalCents := subtotalCents cart;
  currency := currency cart; createdAt := createdAt cart;
  updatedAt := updatedAt cart; lockedForCheckout := lockedForCheckout cart;
|}.

Definition touch (now : Z) (cart : Cart) : Cart := {|
  id := id cart; lines := lines cart; subtotalCents := subtotalCents cart;
  currency := currency cart; createdAt := createdAt cart;
  updatedAt := now; lockedForCheckout := lockedForCheckout cart;
|}.

(** [existingLine.quantity += quantity] and the line total after it. *)
Definition increase (quantity : Z) (line : CartLine.t) : CartLine.t := {|
  CartLine.id := CartLine.id line;
  CartLine.variantId := CartLine.variantId line;
  CartLine.variantTitle := CartLine.variantTitle line;
  CartLine.productTitle := CartLine.productTitle line;
  CartLine.productHandle := CartLine.productHandle line;
  CartLine.quantity := CartLine.quantity line + quantity;
  CartLine.unitPriceCents := CartLine.unitPriceCents line;
  CartLine.lineTotalCents :=
    CartLine.unitPriceCents line * (CartLine.quantity line + quantity);
  CartLine.currency := CartLine.currency line;
|}.

(** [cart.lines.find(line => line.variantId === variant.id)] followed by
    the update of the line found: [None] when there is no such line. *)
Fixpoint increaseExisting (variant : string) (quantity : Z) (lines : list CartLine.t)
    : option (list CartLine.t) :=
  match lines with
  | [] => None
  | line :: rest =>
      if String.eqb (CartLine.variantId line) variant
      then Some (increase quantity line :: rest)
      else option_map (cons line) (increaseExisting variant quantity rest)
  end.

(** [lines.findIndex(line => line.id === lineId)] followed by
    [lines.splice(lineIndex, 1)]: [None] when the index is [-1]. *)
Fixpoint removeLine (lineId : string) (lines : list CartLine.t)
    : option (list CartLine.t) :=
  match lines with
  | [] => None
  | line :: rest =>
      if String.eqb (CartLine.id line) lineId then Some rest
      else option_map (cons line) (removeLine lineId rest)
  end.

Section Prices.

(** [dollarsToCents(amount)], that is [Math.round(parseFloat(amount) *
    100)]: a function of the text of the price, taken here to yield a
    number of cents (the price that Shopify reports parses to a number). *)
Variable dollarsToCents : string -> Z.

(** [quantity] is the fourth argument, 1 when the caller leaves it out;
    [uuid] is the [randomUUID()] of a new line, [now] the [new Date()]. *)
Definition addToCart (cartId : string) (product : ShopifyProduct)
    (variant : ShopifyVariant.t) (quantity : Z) (uuid : string) (now : Z)
    (carts : Store) : CartOperationResult * Store :=
  match JsMap.get cartId carts with
  | None => (Failure cart_not_found, carts)
  | Some cart =>
      if default false (lockedForCheckout cart) then (Failure cart_locked, carts)
      else if negb (Nat.eqb (length (lines cart)) 0)
              && negb (String.eqb (currency cart)
                         (currencyCode (ShopifyVariant.price variant)))
      then (Failure (currency_mismatch (currency cart)
                       (currencyCode (ShopifyVariant.price variant))), carts)
      else
        let lines' :=
          match increaseExisting (ShopifyVariant.id variant) quantity (lines cart) with
          | Some updated => updated
          | None =>
              let unitPriceCents := dollarsToCents (amount (ShopifyVariant.price variant)) in
              (lines cart ++ [ {|
                CartLine.id := uuid;
                CartLine.variantId := ShopifyVariant.id variant;
                CartLine.variantTitle := ShopifyVariant.title variant;
                CartLine.productTitle := title product;
                CartLine.productHandle := handle product;
                CartLine.quantity := quantity;
                CartLine.unitPriceCents := unitPriceCents;
                CartLine.lineTotalCents := unitPriceCents * quantity;
                CartLine.currency := currencyCode (ShopifyVariant.price variant);
              |} ])%list
          end in
        let cart' := touch now (recalculateCart (withLines lines' cart)) in
        (Success cart', JsMap.set cartId cart' carts)
  end.

End Prices.

Definition removeFromCart (cartId lineId : string) (now : Z) (carts : Store)
    : CartOperationResult * Store :=
  match JsMap.get cartId carts with
  | None => (Failure cart_not_found, carts)
  | Some cart =>
      if default false (lockedForCheckout cart) then (Failure cart_locked, carts)
      else
        match removeLine lineId (lines cart) with
        | None => (Failure line_not_found, carts)
        | Some rest =>
            let cart' := touch now (recalculateCart (withLines rest cart)) in
            (Success cart', JsMap.set cartId cart' carts)
        end
  end.

Definition clearCart (cartId : string) (now : Z) (carts : Store) : option Cart * Store :=
  match JsMap.get cartId carts with
  | None => (None, carts)
  | Some cart =>
      let cart' := {|
        id := id cart; lines := []; subtotalCents := 0;
        currency := currency cart; createdAt := createdAt cart;
        updatedAt := now; lockedForCheckout := lockedForCheckout cart;
      |} in
      (Some cart', JsMap.set cartId cart' carts)
  end.

(** [carts.delete(cartId)] and its answer. *)
Definition deleteCart (cartId : string) (carts : Store) : bool * Store :=
  (JsMap.has cartId carts, JsMap.delete cartId carts).

Definition getAllCarts (carts : Store) : list Cart := JsMap.values carts.

Definition clearAllCarts (carts : Store) : Store := JsMap.empty.

Definition DEFAULT_CART_TTL_MS : Z := 24 * 60 * 60 * 1000.

(** The loop of [pruneOldCarts]: it goes through the entries in their
    order, deletes from the map those that are too old and counts them
    ([now] is [Date.now()]). *)
Definition pruneOldCarts (maxAgeMs : Z) (now : Z) (carts : Store) : nat * Store :=
  fold_left
    (fun '(prunedCount, remaining) '(cartId, cart) =>
       if maxAgeMs <? now - updatedAt cart
       then (S prunedCount, JsMap.delete cartId remaining)
       else (prunedCount, remaining))
    carts (0%nat, carts).

Definition getCartCount (carts : Store) : nat := length carts.

(** *** Runs of the store *)

(** The calls a client of the module can make that change the store. *)
Inductive Call : Type :=
| CreateCart (uuid : string) (now : Z)
| AddToCart (cartId : string) (product : ShopifyProduct) (variant : ShopifyVariant.t)
    (quantity : Z) (uuid : string) (now : Z)
| RemoveFromCart (cartId lineId : string) (now : Z)
| ClearCart (cartId : string) (now : Z)
| LockCartForCheckout (cartId : string) (now : Z)
| UnlockCart (cartId : string) (now : Z)
| DeleteCart (cartId : string)
| ClearAllCarts
| PruneOldCarts (maxAgeMs now : Z).

Definition call (dollarsToCents : string -> Z) (c : Call) (carts : Store) : Store :=
  match c with
  | CreateCart uuid now => snd (createCart uuid now carts)
  | AddToCart cartId product variant quantity uuid now =>
      snd (addToCart dollarsToCents cartId product variant quantity uuid now carts)
  | RemoveFromCart cartId lineId now => snd (removeFromCart cartId lineId now carts)
  | ClearCart cartId now => snd (clearCart cartId now carts)
  | LockCartForCheckout cartId now => snd (lockCartForCheckout cartId now carts)
  | UnlockCart cartId now => snd (unlockCart cartId now carts)
  | DeleteCart cartId => snd (deleteCart cartId carts)
  | ClearAllCarts => clearAllCarts carts
  | PruneOldCarts maxAgeMs now => snd (pruneOldCarts maxAgeMs now carts)
  end.

Definition calls (dollarsToCents : string -> Z) (l : list Call) (carts : Store) : Store :=
  fold_left (fun carts c => call dollarsToCents c carts) l carts.

End CartStore.

(** ** The order store, [payment-tracker.ts]: deleting and pruning *)

Module TrackerStore.
Import Tracker.

(** [orders.delete(cartId)] and its answer. *)
Definition deleteOrder (cart : string) (orders : Orders) : bool * Orders :=
  (bool_decide (is_Some (orders !! cart)), delete cart orders).

Definition clearAllOrders (orders : Orders) : Orders := ∅.

Definition getOrderCount (orders : Orders) : nat := size orders.

Definition DEFAULT_ORDER_TTL_MS : Z := 24 * 60 * 60 * 1000.

(** The loop of [pruneOldOrders] over the entries of the map; [now] is
    [Date.now()].  An entry whose status is not among [terminalStatuses]
    is passed over; the others are deleted and counted when they are too
    old.  The loop deletes nothing but the entry it is at, so that the
    order in which it goes through the map does not matter to what it
    leaves and returns. *)
Definition pruneOldOrders (maxAgeMs now : Z) (orders : Orders) : nat * Orders :=
  map_fold
    (fun cartId order '(prunedCount, remaining) =>
       if negb (terminal (status order)) then (prunedCount, remaining)
       else if maxAgeMs <? now - updatedAt order
            then (S prunedCount, delete cartId remaining)
            else (prunedCount, remaining))
    (0%nat, orders) orders.

End TrackerStore.

(** ** The Shopify client, [shopify/client.ts]: [executeQuery] *)

Module Shopify.

(** The errors of [executeQuery]:
    - [Thrown_ message]: what [fetch] or [response.json()] rejected with,
      as the [catch] block keeps it,
      [error instanceof Error ? error : new Error(String(error))], by its
      message;
    - [RequestFailed status statusText]: "Shopify API request failed:
      status statusText";
    - [MissingData]: "Shopify API returned invalid response: missing data
      property";
    - [AfterRetries]: "Shopify API request failed after retries". *)
Inductive QueryError : Type :=
| Thrown_ (message : string)
| RequestFailed (status : Z) (statusText : string)
| MissingData
| AfterRetries.

Section Query.

(** The type of [result.data]. *)
Context {D : Type}.

(** The body of a response: [data] is absent when [result.data] is
    falsy. *)
Record Result : Type := {
  data : option D;
  errors : list string;
}.

(** A response, with what [await response.json()] gives: it rejects with
    an error (by its message), or yields the body. *)
Record Response : Type := {
  ok : bool;
  status : Z;
  statusText : string;
  json : string + Result;
}.

(** What [await fetch(..)] gives: it rejects, or yields a response. *)
Inductive Fetched : Type :=
| FetchRejects (message : string)
| FetchResolves (response : Response).

(** What the function does on the network and on the clock, in order. *)
Inductive IO : Type :=
| Fetch
| Delay (ms : Z).

(** [RETRY_CONFIG] *)
Definition maxRetries : nat := 3.
Definition baseDelayMs : Z := 1000.
Definition retryableStatuses : list Z := [429; 500; 502; 503; 504].

(** [RETRY_CONFIG.baseDelayMs * Math.pow(2, attempt)] *)
Definition delayMs (attempt : nat) : Z := baseDelayMs * 2 ^ Z.of_nat attempt.

(** The [for] loop from [attempt] on; [fetch attempt] is what the request
    of that attempt gives and [remaining] counts the iterations left,
    [maxRetries + 1 - attempt].  The value is the traffic and either the
    error thrown or the result returned. *)
Fixpoint attempts (fetch : nat -> Fetched) (attempt remaining : nat)
    (lastError : option QueryError) : list IO * (QueryError + Result) :=
  match remaining with
  | O => ([], inl (default AfterRetries lastError))
  | S remaining' =>
      (* [continue] after the pause, with [lastError] as it is then *)
      let retry (lastError' : option QueryError) :=
        let '(io, outcome) := attempts fetch (S attempt) remaining' lastError' in
        (Fetch :: Delay (delayMs attempt) :: io, outcome) in
      (* the [catch] block *)
      let caught (error : QueryError) :=
        if (attempt <? maxRetries)%nat then retry (Some error)
        else
          let '(io, outcome) := attempts fetch (S attempt) remaining' (Some error) in
          (Fetch :: io, outcome) in
      match fetch attempt with
      | FetchRejects message => caught (Thrown_ message)
      | FetchResolves response =>
          if negb (ok response) then
            if existsb (Z.eqb (status response)) retryableStatuses
               && (attempt <? maxRetries)%nat
            then retry lastError
            else caught (RequestFailed (status response) (statusText response))
          else
            match json response with
            | inl message => caught (Thrown_ message)
            | inr result =>
                match data result with
                | None => caught MissingData
                | Some _ => ([Fetch], inr result)
                end
            end
      end
  end.

Definition executeQuery (fetch : nat -> Fetched) : list IO * (QueryError + Result) :=
  attempts fetch 0 (S maxRetries) None.

End Query.

Arguments Result : clear implicits.
Arguments Response : clear implicits.
Arguments Fetched : clear implicits.

End Shopify.

(** ** [NostrService]: the remaining query *)

Module NostrQueries.
Import Nostr.


End NostrQueries.

(** ** The payment tools, [tools/payment.ts]: [confirm_payment] *)

Module Payment.
Import Tools.

(** What the handler works on: the stores of the tools and the service
    that [getNostrService()] returns. *)
Record World : Type := {
  store : Store;
  service : Nostr.State;
}.

Definition withOrders (o : Tracker.Orders) (w : World) : World := {|
  store := {| checkoutLocks := checkoutLocks (store w); carts := carts (store w);
              orders := o |};
  service := service w;
|}.

Definition withCarts (c : Carts.Carts) (w : World) : World := {|
  store := {| checkoutLocks := checkoutLocks (store w); carts := c;
              orders := orders (store w) |};
  service := service w;
|}.

Definition withNostr (s : Nostr.State) (w : World) : World :=
  {| store := store w; service := s |}.

(** The replies of [confirm_payment], by the text they carry:
    - [NoOrder]: "No order found for cart ..";
    - [AlreadyConfirmed]: "Payment already confirmed for cart ..";
    - [NotAwaitingPayment]: "Order for cart .. is not awaiting payment.
      Current status: ..";
    - [ServiceNotConnected]: "Payment service is not connected. ..";
    - [PaymentConfirmed]: [formatPaymentConfirmation(order, confirmed)];
    - [StillPending]: "## Payment Pending ..";
    - [Unresolved]: "Could not resolve Unicity ID @..";
    - [TimedOut]: "## Payment Timeout .. No payment received within ..
      seconds. .. Event ID: .. Error: ..";
    - [NoPendingPayment]: "No pending payment found for cart ..";
    - [ConfirmFailed]: "Error confirming payment: ..". *)
Inductive ConfirmResponse : Type :=
| NoOrder (cart : string)
| AlreadyConfirmed (cart : string) (order : Tracker.Order)
| NotAwaitingPayment (cart : string) (status : Tracker.OrderStatus)
| ServiceNotConnected
| PaymentConfirmed (order : Tracker.Order) (payment : Nostr.ConfirmedPayment)
| StillPending (order : Tracker.Order)
| Unresolved (unicityId : string)
| TimedOut (seconds : number) (eventId : string) (error : Nostr.PaymentError)
| NoPendingPayment (cart : string)
| ConfirmFailed (message : string).

(** The replies that carry [isError: true]. *)
Definition confirmIsError (r : ConfirmResponse) : bool :=
  match r with
  | AlreadyConfirmed _ _ | PaymentConfirmed _ _ | StillPending _ => false
  | _ => true
  end.

(** [effectiveWaitSeconds === 0] *)
Definition isZero (n : number) : bool :=
  match n with
  | Finite q => Qeq_bool q 0
  | _ => false
  end.

(** [effectiveWaitSeconds * 1000] as the time-out handed to
    [waitForPayment].  The clamp yields a finite number; the other two
    cases are there for the function to be total. *)
Definition milliseconds (n : number) : Q :=
  match n with
  | Finite q => (q * 1000)%Q
  | _ => 0%Q
  end.

(** A call suspended at [await nostrService.resolveUnicityId(..)].
    [resOrder] is the order object found at the entry; the tools change
    an order object in its status and its time stamps only once
    [checkout_with_unicity] has made it, so that the fields the handler
    reads from the object after an [await] are those it holds here. *)
Record ResolveTask : Type := {
  resCartId : string;
  resOrder : Tracker.Order;
  resEventId : string;
  resUnicityId : string;
  resSeconds : number;
}.

(** A call suspended at [await nostrService.waitForPayment(..)], with the
    promise that the call returned. *)
Record WaitTask : Type := {
  waitCartId : string;
  waitOrder : Tracker.Order;
  waitEventId : string;
  waitSeconds : number;
  awaited : Nostr.WaitResult;
}.

Inductive ConfirmTask : Type :=
| AtResolve (t : ResolveTask)
| AtWait (t : WaitTask).

(** [await nostrService.waitForPayment(..)] inside its [try]: the call
    is made, and the handler is suspended on the promise it returned. *)
Definition startWaiting (cart : string) (order : Tracker.Order) (seconds : number)
    (a : Nostr.WaitArgs) (now : Z) (w : World) : ConfirmTask * World :=
  let '(result, s) := Nostr.waitForPayment a now (service w) in
  (AtWait {| waitCartId := cart; waitOrder := order;
             waitEventId := Nostr.argEventId a; waitSeconds := seconds;
             awaited := result |},
   withNostr s w).

(** The handler from its entry to its first [await]; [clientConnected] is
    what the relay client answers to [isConnected()], [now1] and [now2]
    are the times of the [new Date()] calls made on the way (those of
    [markPaid], or that of [waitForPayment]). *)
Definition confirm_entry (cart : string) (waitSeconds : option number)
    (clientConnected : bool) (now1 now2 : Z) (w : World)
    : (ConfirmResponse + ConfirmTask) * World :=
  let seconds := effectiveWaitSeconds waitSeconds in
  match Tracker.getOrderByCartId cart (orders (store w)) with
  | None => (inl (NoOrder cart), w)
  | Some order =>
      match Tracker.status order with
      | Tracker.paid => (inl (AlreadyConfirmed cart order), w)
      | Tracker.awaiting_payment =>
          if negb (Nostr.isConnected clientConnected (service w))
          then (inl ServiceNotConnected, w)
          else
            match Nostr.getConfirmedPayment cart (service w) with
            | Some confirmedPayment =>
                (inl (PaymentConfirmed order confirmedPayment),
                 withOrders (snd (Tracker.markPaid cart now1 now2 (orders (store w)))) w)
            | None =>
                if isZero seconds then (inl (StillPending order), w)
                else
                  match Nostr.getPendingPaymentByCartId cart (service w) with
                  | Some pendingPayment =>
                      let '(task, w') :=
                        startWaiting cart order seconds
                          {| Nostr.argCartId := cart;
                             Nostr.argEventId := Nostr.eventId pendingPayment;
                             Nostr.argUnicityId := Nostr.unicityId pendingPayment;
                             Nostr.argCustomerPubkey := Nostr.customerPubkey pendingPayment;
                             Nostr.argAmountTokens := Nostr.amountTokens pendingPayment;
                             Nostr.argTimeoutMs := Some (milliseconds seconds) |}
                          now1 w in
                      (inr task, w')
                  | None =>
                      match Tracker.paymentEventId order, Tracker.unicityId order with
                      | Some paymentEventId, Some unicityId =>
                          if truthy paymentEventId && truthy unicityId then
                            (inr (AtResolve {| resCartId := cart; resOrder := order;
                                               resEventId := paymentEventId;
                                               resUnicityId := unicityId;
                                               resSeconds := seconds |}), w)
                          else (inl (NoPendingPayment cart), w)
                      | _, _ => (inl (NoPendingPayment cart), w)
                      end
                  end
            end
      | st => (inl (NotAwaitingPayment cart st), w)
      end
  end.

(** The handler from the result of [resolveUnicityId] (it rejects, or
    yields a public key or [null]) to the next [await]. *)
Definition confirm_afterResolve (task : ResolveTask)
    (resolved : Thrown + option string) (now : Z) (w : World)
    : (ConfirmResponse + ConfirmTask) * World :=
  match resolved with
  | inl t => (inl (ConfirmFailed (messageOf t "Unknown error occurred")), w)
  | inr customerPubkey =>
      match customerPubkey with
      | Some pubkey =>
          if truthy pubkey then
            let '(task', w') :=
              startWaiting (resCartId task) (resOrder task) (resSeconds task)
                {| Nostr.argCartId := resCartId task;
                   Nostr.argEventId := resEventId task;
                   Nostr.argUnicityId := resUnicityId task;
                   Nostr.argCustomerPubkey := pubkey;
                   Nostr.argAmountTokens := Tracker.totalAmountCents (resOrder task);
                   Nostr.argTimeoutMs := Some (milliseconds (resSeconds task)) |}
                now w in
            (inr task', w')
          else (inl (Unresolved (resUnicityId task)), w)
      | None => (inl (Unresolved (resUnicityId task)), w)
      end
  end.

(** What the awaited promise has settled to, if it has: a call of
    [waitForPayment] that throws gives a rejected promise, the fast path
    a fulfilled one. *)
Definition settlement (r : Nostr.WaitResult) (s : Nostr.State) : option Nostr.Settlement :=
  match r with
  | Nostr.WaitThrows t =>
      Some (Nostr.Rejected (Nostr.ErrorMessage (messageOf t "Unknown error")))
  | Nostr.WaitReturns existing => Some (Nostr.Fulfilled existing)
  | Nostr.WaitPending p => Nostr.delivered s p
  end.

(** The handler from the settlement of the awaited promise to its reply;
    [now1] and [now2] are the times of [markPaid], or of
    [markPaymentTimeout] and [unlockCart]. *)
Definition confirm_afterWait (task : WaitTask) (outcome : Nostr.Settlement)
    (now1 now2 : Z) (w : World) : ConfirmResponse * World :=
  let cart := waitCartId task in
  match outcome with
  | Nostr.Fulfilled confirmed =>
      (PaymentConfirmed (waitOrder task) confirmed,
       withOrders (snd (Tracker.markPaid cart now1 now2 (orders (store w)))) w)
  | Nostr.Rejected error =>
      let w1 := withOrders (snd (Tracker.markPaymentTimeout cart now1 (orders (store w)))) w in
      let w2 := withCarts (snd (Carts.unlockCart cart now2 (carts (store w1)))) w1 in
      (TimedOut (waitSeconds task) (waitEventId task) error, w2)
  end.

(** *** The server: the tools and the service together *)

(** The checkout tool with its suspended calls, the service, and the
    calls of [confirm_payment] that are suspended, with the replies given
    so far. *)
Record System : Type := {
  checkout : Server;
  nostr : Nostr.State;
  confirming : gmap nat ConfirmTask;
  confirmations : gmap nat ConfirmResponse;
  nextConfirm : nat;
}.

Definition boot (carts0 : Carts.Carts) : System := {|
  checkout := idle {| checkoutLocks := ∅; carts := carts0; orders := ∅ |};
  nostr := Nostr.fresh;
  confirming := ∅;
  confirmations := ∅;
  nextConfirm := 0%nat;
|}.

Definition world (sys : System) : World :=
  {| store := Tools.store (checkout sys); service := nostr sys |}.

(** The system with the world [w] in place of its own. *)
Definition withWorld (w : World) (sys : System) : System := {|
  checkout := {| Tools.store := store w; suspended := suspended (checkout sys);
                 replies := replies (checkout sys); nextCall := nextCall (checkout sys) |};
  nostr := service w;
  confirming := confirming sys;
  confirmations := confirmations sys;
  nextConfirm := nextConfirm sys;
|}.

Definition answer (call : nat) (r : ConfirmResponse) (sys : System) : System := {|
  checkout := checkout sys; nostr := nostr sys;
  confirming := delete call (confirming sys);
  confirmations := <[call := r]> (confirmations sys);
  nextConfirm := nextConfirm sys;
|}.

Definition park (call : nat) (t : ConfirmTask) (sys : System) : System := {|
  checkout := checkout sys; nostr := nostr sys;
  confirming := <[call := t]> (confirming sys);
  confirmations := confirmations sys;
  nextConfirm := nextConfirm sys;
|}.

Definition proceed (call : nat) (r : (ConfirmResponse + ConfirmTask) * World)
    (sys : System) : System :=
  match r with
  | (inl reply, w) => answer call reply (withWorld w sys)
  | (inr task, w) => park call task (withWorld w sys)
  end.

(** What happens on the server, one uninterrupted piece at a time: a
    piece of the service (an event of the relay, a time-out, ..), a piece
    of a checkout, or a piece of a [confirm_payment] call. *)
Inductive Happening : Type :=
| OfService (a : Nostr.Action)
| OfCheckout (e : ToolEvent)
| ConfirmInvoked (cart : string) (waitSeconds : option number)
    (clientConnected : bool) (now1 now2 : Z)
| ConfirmResolved (call : nat) (resolved : Thrown + option string) (now : Z)
| ConfirmSettled (call : nat) (now1 now2 : Z).

Definition happen (h : Happening) (sys : System) : System :=
  match h with
  | OfService a =>
      {| checkout := checkout sys; nostr := Nostr.exec a (nostr sys);
         confirming := confirming sys; confirmations := confirmations sys;
         nextConfirm := nextConfirm sys |}
  | OfCheckout e =>
      {| checkout := step e (checkout sys); nostr := nostr sys;
         confirming := confirming sys; confirmations := confirmations sys;
         nextConfirm := nextConfirm sys |}
  | ConfirmInvoked cart waitSeconds clientConnected now1 now2 =>
      let call := nextConfirm sys in
      let sys' := {| checkout := checkout sys; nostr := nostr sys;
                     confirming := confirming sys; confirmations := confirmations sys;
                     nextConfirm := S call |} in
      proceed call (confirm_entry cart waitSeconds clientConnected now1 now2 (world sys)) sys'
  | ConfirmResolved call resolved now =>
      match confirming sys !! call with
      | Some (AtResolve t) => proceed call (confirm_afterResolve t resolved now (world sys)) sys
      | _ => sys
      end
  | ConfirmSettled call now1 now2 =>
      match confirming sys !! call with
      | Some (AtWait t) =>
          match settlement (awaited t) (nostr sys) with
          | Some outcome =>
              let '(reply, w) := confirm_afterWait t outcome now1 now2 (world sys) in
              answer call reply (withWorld w sys)
          | None => sys
          end
      | _ => sys
      end
  end.

Definition happenings (l : list Happening) (sys : System) : System :=
  fold_left (fun sys h => happen h sys) l sys.

End Payment.

(** ** The cart tools, [tools/cart.ts] *)

Module CartTools.
Import CartStore.

(** What [getVariantById] yields: the variant, with its product and its
    availability. *)
Record VariantWithProduct : Type := {
  variant : ShopifyVariant.t;
  product : ShopifyProduct;
  availableForSale : bool;
  quantityAvailable : option Z;
}.

(** The replies of [add_to_cart] and [remove_from_cart], by the text they
    carry:
    - [CartNotFound]: "Cart not found with ID ..";
    - [VariantNotFound v hint]: "Variant not found with ID ..", followed
      by the hint on the GID format when [hint] holds;
    - [NotAvailable]: ".. is not available." and the out-of-stock message;
    - [CannotAdd q available existing]: "Cannot add q of ..", followed by
      "You already have the maximum available quantity .." when nothing
      more can be added, and by "Only .. more can be added .." otherwise;
    - [CartLocked]: "Cart .. is locked for checkout and cannot be
      modified. ..";
    - [CurrencyMismatch]: the message of the store;
    - [AddFailed]: "Failed to add item to cart.";
    - [LineNotFound]: "Line item not found with ID .. in cart ..";
    - [RemoveFailed]: "Failed to remove item from cart.";
    - [ToolFailed m]: "Error adding to cart: m" or "Error removing from
      cart: m";
    - [Added]: "Added to cart: .." and the summary of the cart;
    - [Removed]: "Item removed from cart." and the summary of the cart. *)
Inductive CartResponse : Type :=
| CartNotFound (cartId : string)
| VariantNotFound (variantId : string) (hint : bool)
| NotAvailable (v : VariantWithProduct)
| CannotAdd (quantity available existing : Z)
| CartLocked (cartId : string)
| CurrencyMismatch (cartCurrency variantCurrency : string)
| AddFailed
| LineNotFound (lineId cartId : string)
| RemoveFailed
| ToolFailed (message : string)
| Added (v : VariantWithProduct) (quantity : Z) (cart : Cart)
| Removed (cart : Cart).

Definition isError (r : CartResponse) : bool :=
  match r with
  | Added _ _ _ | Removed _ => false
  | _ => true
  end.



(** A call of [add_to_cart] suspended at [await getVariantById(..)]. *)
Record AddTask : Type := {
  addCartId : string;
  addVariantId : string;
  addQuantity : Z;
}.

(** [add_to_cart] from its entry to its [await]. *)
Definition add_to_cart_entry (cartId variantId : string) (quantity : Z) (carts : Store)
    : CartResponse + AddTask :=
  match getCart cartId carts with
  | None => inl (CartNotFound cartId)
  | Some _ =>
      inr {| addCartId := cartId; addVariantId := variantId; addQuantity := quantity |}
  end.

Section Prices.
Variable dollarsToCents : string -> Z.


End Prices.

(** [remove_from_cart], which runs from its entry to its reply without an
    [await]. *)
Definition remove_from_cart (cartId lineId : string) (now : Z) (carts : Store)
    : CartResponse * Store :=
  match getCart cartId carts with
  | None => (CartNotFound cartId, carts)
  | Some existingCart =>
      if default false (lockedForCheckout existingCart) then (CartLocked cartId, carts)
      else
        match removeFromCart cartId lineId now carts with
        | (Success updatedCart, carts') => (Removed updatedCart, carts')
        | (Failure line_not_found, carts') => (LineNotFound lineId cartId, carts')
        | (Failure cart_locked, carts') => (CartLocked cartId, carts')
        | (Failure _, carts') => (RemoveFailed, carts')
        end
  end.

(** [get_cart]: the cart, for [formatCartSummary], or the error. *)
Definition get_cart (cartId : string) (carts : Store) : CartResponse + Cart :=
  match getCart cartId carts with
  | None => inl (CartNotFound cartId)
  | Some cart => inr cart
  end.

End CartTools.

(** ** The buy list, [store/buylist.ts] *)

Module Buylist.

Inductive BuylistRequestStatus : Type :=
| pending
| approved
| rejected.

Record BuylistRequest : Type := {
  id : string;
  variantId : string;
  productHandle : string;
  productTitle : string;
  variantTitle : string;
  quantity : Z;
  offerPriceCents : Z;
  retailPriceCents : Z;
  currency : string;
  sellerUnicityId : string;
  status : BuylistRequestStatus;
  createdAt : Z;
  updatedAt : Z;
}.


(** [const buylistRequests: Map<string, BuylistRequest>] *)
Abbreviation Requests := (JsMap.t BuylistRequest).


Definition getBuylistRequest (requestId : string) (requests : Requests)
    : option BuylistRequest :=
  JsMap.get requestId requests.

Definition updateBuylistRequestStatus (requestId : string) (st : BuylistRequestStatus)
    (now : Z) (requests : Requests) : option BuylistRequest * Requests :=
  match JsMap.get requestId requests with
  | None => (None, requests)
  | Some request =>
      let request' := {|
        id := id request;
        variantId := variantId request;
        productHandle := productHandle request;
        productTitle := productTitle request;
        variantTitle := variantTitle request;
        quantity := quantity request;
        offerPriceCents := offerPriceCents request;
        retailPriceCents := retailPriceCents request;
        currency := currency request;
        sellerUnicityId := sellerUnicityId request;
        status := st;
        createdAt := createdAt request;
        updatedAt := now;
      |} in
      (Some request', JsMap.set requestId request' requests)
  end.

Definition getRequestsBySeller (seller : string) (requests : Requests)
    : list BuylistRequest :=
  List.filter (fun request => String.eqb (sellerUnicityId request) seller)
    (JsMap.values requests).

Definition getAllBuylistRequests (requests : Requests) : list BuylistRequest :=
  JsMap.values requests.

Definition deleteBuylistRequest (requestId : string) (requests : Requests)
    : bool * Requests :=
  (JsMap.has requestId requests, JsMap.delete requestId requests).

Definition clearAllBuylistRequests (requests : Requests) : Requests := JsMap.empty.

Definition getBuylistRequestCount (requests : Requests) : nat := length requests.

End Buylist.

(** ** The buy list tools, [tools/buylist.ts] *)

Module BuylistTools.
Import Buylist.

(** *** The offer price

    [Math.floor(retailPriceCents * BUYBACK_PERCENTAGE)] is a product of
    doubles.  It is taken here on a price that is an integer of cents, as
    the other amounts are, with the double arithmetic of the Standard
    Library: [SFmul 53 1024] is the IEEE 754 product in binary64, rounded
    to the nearest, ties to even. *)

(** [BUYBACK_PERCENTAGE]: the double nearest to 0.7, which is
    [6305039478318694 * 2 ^ -53]. *)
Definition BUYBACK_PERCENTAGE : SpecFloat.spec_float :=
  SpecFloat.S754_finite false 6305039478318694 (-53).


(** The double of an integer. *)
Definition toDouble (n : Z) : SpecFloat.spec_float :=
  SpecFloat.binary_normalize 53 1024 n 0 false.

(** [Math.floor] of a double that is finite, as an integer (on the other
    doubles, which the product of a price by 0.7 is not, the value here is
    [0]). *)
Definition Math_floor (x : SpecFloat.spec_float) : Z :=
  match x with
  | SpecFloat.S754_finite s m e =>
      let down := if 0 <=? e then Z.pos m * 2 ^ e else Z.shiftr (Z.pos m) (- e) in
      let exact := if 0 <=? e then true else Z.land (Z.pos m) (Z.ones (- e)) =? 0 in
      if s then (if exact then - down else - down - 1) else down
  | _ => 0
  end.

Definition calculateOfferPrice (retailPriceCents : Z) : Z :=
  Math_floor (SpecFloat.SFmul 53 1024 (toDouble retailPriceCents) BUYBACK_PERCENTAGE).

(** *** [submit_to_buylist] and [check_buylist_status] *)

(** What the tools read of the variant that [getVariantById] yields. *)
Record Variant : Type := {
  variantId_ : string;
  variantTitle_ : string;
  productTitle_ : string;
  productHandle_ : string;
  amount : string;
  currencyCode : string;
  quantityAvailable : option Z;
}.

(** The replies of the two tools, by the text they carry:
    - [QuantityTooSmall]: "Quantity must be at least 1.";
    - [VariantNotFound]: "Variant not found with ID ..";
    - [NotTracked]: "Inventory is not tracked for .. Unable to accept
      buyback submissions.";
    - [NotBuying]: "Runic Vault is not currently purchasing .. Current
      inventory (.. units) is at or above our threshold.";
    - [SubmitFailed]: "Error submitting to buy list: ..";
    - [Submitted]: "## Buy List Submission .. Request #.. pending
      approval. ..";
    - [RequestNotFound]: "Buy list request not found with ID ..";
    - [Status]: "## Buy List Request Status ..", with the status message
      of the request. *)
Inductive BuylistResponse : Type :=
| QuantityTooSmall
| VariantNotFound (variantId : string)
| NotTracked (v : Variant)
| NotBuying (v : Variant) (available : Z)
| SubmitFailed (message : string)
| Submitted (request : BuylistRequest)
| RequestNotFound (requestId : string)
| Status (request : BuylistRequest) (statusMessage : string).

Definition isError (r : BuylistResponse) : bool :=
  match r with
  | Submitted _ | Status _ _ => false
  | _ => true
  end.



Section Prices.
Variable dollarsToCents : string -> Z.


End Prices.

(** The [switch] on the status. *)
Definition statusMessage (st : BuylistRequestStatus) : string :=
  match st with
  | pending => "Pending approval from Runic Vault"
  | approved => "Approved - awaiting shipping details"
  | rejected => "Runic Vault declined this purchase"
  end.

Definition check_buylist_status (requestId : string) (requests : Requests)
    : BuylistResponse :=
  match getBuylistRequest requestId requests with
  | None => RequestNotFound requestId
  | Some request => Status request (statusMessage (status request))
  end.

End BuylistTools.

(** * Notions used in the statements on the rest of the code *)

Module DisplaySpec.
Import Display.

(** A code unit that is displayed as it is: no control character and no
    angle bracket. *)
Definition harmless (c : N) : Prop :=
  isControl c = false /\ c <> LESS_THAN /\ c <> GREATER_THAN.

(** What the two replacements make of one code unit. *)
Definition escape (c : N) : JsString :=
  if (c =? LESS_THAN)%N then AMP_LT
  else if (c =? GREATER_THAN)%N then AMP_GT
  else [c].

(** ["cart-1"] *)
Definition sample_name : JsString := [99; 97; 114; 116; 45; 49]%N.

End DisplaySpec.

Module CartSpec.
Import CartStore.

(** The sum of the line totals. *)
Definition total (lines : list CartLine.t) : Z :=
  fold_right (fun line sum => CartLine.lineTotalCents line + sum) 0 lines.

(** The total of a line is its unit price times its quantity. *)
Definition priced (line : CartLine.t) : Prop :=
  CartLine.lineTotalCents line = CartLine.unitPriceCents line * CartLine.quantity line.

(** The lines are in the currency [c]. *)
Definition inCurrency (c : string) (lines : list CartLine.t) : Prop :=
  List.Forall (fun line => CartLine.currency line = c) lines.

(** A cart whose figures agree: the subtotal is the sum of the line
    totals, every line is priced, every line is in the currency of the
    cart and no two lines are of the same variant. *)
Definition consistent (cart : Cart) : Prop :=
  subtotalCents cart = total (lines cart)
  /\ List.Forall priced (lines cart)
  /\ inCurrency (currency cart) (lines cart)
  /\ List.NoDup (List.map CartLine.variantId (lines cart)).

Definition keys (carts : Store) : list string := List.map fst carts.

(** A store as a [Map] is: one entry per key; and every cart is stored
    under its own id and is consistent. *)
Definition sound (carts : Store) : Prop :=
  List.NoDup (keys carts)
  /\ forall k cart, In (k, cart) carts -> id cart = k /\ consistent cart.

(** The entry is older than [maxAgeMs] at the time [now]. *)
Definition expired (maxAgeMs now : Z) (entry : string * Cart) : bool :=
  maxAgeMs <? now - updatedAt (snd entry).

(** No expired entry of [entries] has the key of [x]. *)
Definition spared (maxAgeMs now : Z) (entries : list (string * Cart))
    (x : string * Cart) : bool :=
  forallb (fun y => negb (expired maxAgeMs now y && String.eqb (fst y) (fst x))) entries.

(** The line that [addToCart] makes for a variant that the cart lacks. *)
Definition lineOf (dollarsToCents : string -> Z) (product : ShopifyProduct)
    (variant : ShopifyVariant.t) (quantity : Z) (uuid : string) : CartLine.t := {|
  CartLine.id := uuid;
  CartLine.variantId := ShopifyVariant.id variant;
  CartLine.variantTitle := ShopifyVariant.title variant;
  CartLine.productTitle := title product;
  CartLine.productHandle := handle product;
  CartLine.quantity := quantity;
  CartLine.unitPriceCents := dollarsToCents (amount (ShopifyVariant.price variant));
  CartLine.lineTotalCents :=
    dollarsToCents (amount (ShopifyVariant.price variant)) * quantity;
  CartLine.currency := currencyCode (ShopifyVariant.price variant);
|}.

(** The lines of a cart after a successful [addToCart]. *)
Definition linesAfter (dollarsToCents : string -> Z) (product : ShopifyProduct)
    (variant : ShopifyVariant.t) (quantity : Z) (uuid : string)
    (lines : list CartLine.t) : list CartLine.t :=
  match increaseExisting (ShopifyVariant.id variant) quantity lines with
  | Some updated => updated
  | None => (lines ++ [lineOf dollarsToCents product variant quantity uuid])%list
  end.

(** *** Sample data *)

Definition sample_product : ShopifyProduct :=
  {| title := "Charizard"; handle := "charizard" |}.

Definition sample_variant : ShopifyVariant.t := {|
  ShopifyVariant.id := "gid://shopify/ProductVariant/1";
  ShopifyVariant.title := "Near Mint";
  ShopifyVariant.price := {| amount := "49.99"; currencyCode := "AED" |};
|}.

(** A price list for the samples. *)
Definition sample_prices (amount : string) : Z :=
  if String.eqb amount "49.99" then 4999 else 100.

(** A store with one empty cart. *)
Definition one_cart : Store := snd (createCart "cart-1" 10 JsMap.empty).

Definition empty_cart : Cart := fst (createCart "cart-1" 10 JsMap.empty).

(** What the checkout reads of a line and of a cart. *)
Definition lineView (line : CartLine.t) : Carts.CartLine := {|
  Carts.lineId := CartLine.id line;
  Carts.variantId := CartLine.variantId line;
  Carts.variantTitle := CartLine.variantTitle line;
  Carts.productTitle := CartLine.productTitle line;
  Carts.quantity := CartLine.quantity line;
  Carts.unitPriceCents := CartLine.unitPriceCents line;
  Carts.lineTotalCents := CartLine.lineTotalCents line;
|}.

Definition view (cart : Cart) : Carts.Cart := {|
  Carts.id := id cart;
  Carts.lines := List.map lineView (lines cart);
  Carts.subtotalCents := subtotalCents cart;
  Carts.currency := currency cart;
  Carts.createdAt := createdAt cart;
  Carts.updatedAt := updatedAt cart;
  Carts.lockedForCheckout := lockedForCheckout cart;
|}.



End CartSpec.

Module TrackerStoreSpec.
Import Tracker TrackerStore.

(** The order is in a terminal status and was last updated more than
    [maxAgeMs] before [now]. *)
Definition prunable (maxAgeMs now : Z) (order : Order) : bool :=
  terminal (status order) && (maxAgeMs <? now - updatedAt order).

(** An order of the cart [cart] in the status [st], last updated at
    [at_]. *)
Definition order_in (cart : string) (st : OrderStatus) (at_ : Z) : Order := {|
  id := "order-" ++ cart; cartId := cart; status := st;
  totalAmountCents := 4999; currency := "AED";
  paymentEventId := Some "evt-1"; unicityId := Some "alice";
  createdAt := at_; updatedAt := at_; paidAt := None;
|}.

Definition sample_orders : Orders :=
  {[ "cart-1" := order_in "cart-1" paid 0;
     "cart-2" := order_in "cart-2" awaiting_payment 0 ]}.

End TrackerStoreSpec.

Module ShopifySpec.
Import Shopify.

(** The error that an attempt ends with when it does not return: the one
    its [catch] block would keep, or the one it would throw were the
    status not retried. *)
Definition failure {D : Type} (f : Fetched D) : option QueryError :=
  match f with
  | FetchRejects message => Some (Thrown_ message)
  | FetchResolves response =>
      if negb (ok response)
      then Some (RequestFailed (status response) (statusText response))
      else
        match json response with
        | inl message => Some (Thrown_ message)
        | inr result =>
            match data result with
            | None => Some MissingData
            | Some _ => None
            end
        end
  end.

(** The body that an attempt returns. *)
Definition success {D : Type} (f : Fetched D) : option (Result D) :=
  match f with
  | FetchResolves response =>
      if ok response then
        match json response with
        | inr result =>
            match data result with
            | Some _ => Some result
            | None => None
            end
        | inl _ => None
        end
      else None
  | FetchRejects _ => None
  end.

(** The traffic of the attempts from [a] on when the first [n] of them
    fail and the next one is the last: a request per attempt and, between
    two attempts, a pause of [1000 * 2 ^ attempt] milliseconds. *)
Fixpoint schedule (a n : nat) : list IO :=
  match n with
  | O => [Fetch]
  | S n' => Fetch :: Delay (1000 * 2 ^ Z.of_nat a) :: schedule (S a) n'
  end.

(** The requests of a traffic. *)
Definition requests (io : list IO) : nat :=
  length (List.filter (fun x => match x with Fetch => true | Delay _ => false end) io).

(** A server that answers [404 Not Found] to every request. *)
Definition not_found : nat -> Fetched unit := fun _ =>
  FetchResolves {| ok := false; status := 404; statusText := "Not Found";
                   json := inl "no body" |}.

End ShopifySpec.

Module NostrRunSpec.
Import Nostr NostrSpec.

(** The pending payment was registered by a [waitForPayment] of the
    trace. *)
Definition expectedIn (trace : list Action) (pending : PendingPaymentInternal) : Prop :=
  exists a now,
    In (WaitForPayment a now) trace /\ pending = registered a now (waiter pending).

(** The confirmation [c] of the cart [cart] answers a [waitForPayment] of
    the trace, for that cart and under the event id that [c] names, and
    records a transfer that arrived in the trace. *)
Definition answersIn (trace : list Action) (cart : string) (c : ConfirmedPayment) : Prop :=
  exists a now ev,
    In (WaitForPayment a now) trace
    /\ In (TransferArrives ev) trace
    /\ isTokenTransfer ev = true
    /\ argCartId a = cart
    /\ confirmedCartId c = cart
    /\ requestEventId c = argEventId a
    /\ transferEventId c = id ev.

(** Whatever the service holds came with the trace: its pending payments
    and those of its suspended handlers were registered in it, the events
    of the suspended handlers arrived in it, and its confirmations answer
    it. *)
Definition traced (trace : list Action) (s : State) : Prop :=
  (forall k pending, In (k, pending) (pendingPayments s) -> expectedIn trace pending)
  /\ (forall h ev pending, transfers s !! h = Some (ev, pending) ->
        expectedIn trace pending
        /\ In (TransferArrives ev) trace /\ isTokenTransfer ev = true)
  /\ (forall cart c, confirmedPayments s !! cart = Some c -> answersIn trace cart c).

(** A waiter is fulfilled only with a confirmation that the service has
    recorded for the cart. *)
Definition recorded (s : State) : Prop :=
  forall p c, promises s !! p = Some (Fulfilled c) ->
    is_Some (confirmedPayments s !! confirmedCartId c).

(** A transfer in reply to ["evt-1"] that goes through. *)
Definition good_transfer : Event :=
  sample_transfer (Some "evt-1") (Some 4999) (inr "{}").

(** The service after that transfer has confirmed the payment of
    ["cart-1"]. *)
Definition paid_service : State :=
  run [TransferArrives good_transfer; TransferProcessed 1 2000] waiting_service.

(** The run that leads to [paid_service]. *)
Definition paid_trace : list Action :=
  [Initialize sample_config sample_identity; Connected "sub-123";
   WaitForPayment sample_wait 1000;
   TransferArrives good_transfer; TransferProcessed 1 2000].

(** The confirmation that [paid_service] holds. *)
Definition sample_confirmation : ConfirmedPayment := {|
  confirmedCartId := "cart-1"; requestEventId := "evt-1";
  transferEventId := "transfer-1"; confirmedAt := 2000;
|}.

End NostrRunSpec.

Module PaymentSpec.
Import Tools Payment.

(** Every order that is marked [paid] is for a cart whose payment the
    service has confirmed. *)
Definition settled (orders : Tracker.Orders) (s : Nostr.State) : Prop :=
  forall cart order,
    orders !! cart = Some order ->
    Tracker.status order = Tracker.paid ->
    is_Some (Nostr.confirmedPayments s !! cart).

(** The promise that a suspended [confirm_payment] awaits can only be
    fulfilled for the cart of the call. *)
Definition backed (s : Nostr.State) (t : WaitTask) : Prop :=
  match awaited t with
  | Nostr.WaitPending p =>
      exists a now, NostrSpec.owned a now p s /\ Nostr.argCartId a = waitCartId t
  | Nostr.WaitReturns _ => is_Some (Nostr.confirmedPayments s !! waitCartId t)
  | Nostr.WaitThrows _ => True
  end.

(** What holds of the orders, the service and the suspended calls of
    [confirm_payment] throughout a run of the server. *)
Definition sane (orders : Tracker.Orders) (s : Nostr.State)
    (tasks : gmap nat ConfirmTask) : Prop :=
  settled orders s
  /\ NostrSpec.allocated s
  /\ NostrRunSpec.recorded s
  /\ forall call t, tasks !! call = Some (AtWait t) -> backed s t.

Definition healthy (sys : System) : Prop :=
  sane (orders (Tools.store (checkout sys))) (nostr sys) (confirming sys).

(** What a piece of [confirm_payment] may do to the world [w]: nothing;
    or mark the order of the cart as paid when the service holds a
    confirmation for the cart; or call [waitForPayment] for the cart and
    suspend on the promise. *)
Definition piece (cart : string) (w : World)
    (r : (ConfirmResponse + ConfirmTask) * World) : Prop :=
  (snd r = w /\ forall t, fst r <> inr (AtWait t))
  \/ (exists reply now1 now2,
        fst r = inl reply
        /\ is_Some (Nostr.confirmedPayments (service w) !! cart)
        /\ snd r = withOrders (snd (Tracker.markPaid cart now1 now2 (orders (store w)))) w)
  \/ (exists a now t,
        fst r = inr (AtWait t)
        /\ Nostr.argCartId a = cart
        /\ waitCartId t = cart
        /\ awaited t = fst (Nostr.waitForPayment a now (service w))
        /\ snd r = withNostr (Nostr.exec (Nostr.WaitForPayment a now) (service w)) w).

(** The wait window that the input asks for is absent, zero or
    negative. *)
Definition noWait (waitSeconds : option number) : Prop :=
  waitSeconds = None
  \/ exists x, waitSeconds = Some x /\ number_le x (Finite 0) = true.

(** An order that awaits its payment, as a checkout leaves it. *)
Definition awaiting_order : Tracker.Order := {|
  Tracker.id := "order-1"; Tracker.cartId := "cart-1";
  Tracker.status := Tracker.awaiting_payment;
  Tracker.totalAmountCents := 4999; Tracker.currency := "USD";
  Tracker.paymentEventId := Some "evt-1"; Tracker.unicityId := Some "alice";
  Tracker.createdAt := 100; Tracker.updatedAt := 200; Tracker.paidAt := None;
|}.

(** The stores after the checkout of ["cart-1"]: the order awaits its
    payment and the cart is locked. *)
Definition awaiting_store : Store := {|
  checkoutLocks := ∅;
  carts := {[ "cart-1" := Carts.setLocked true 200 ToolsSpec.sample_cart ]};
  orders := {[ "cart-1" := awaiting_order ]};
|}.

Definition awaiting_world : World :=
  {| store := awaiting_store; service := NostrSpec.waiting_service |}.


(** A piece of the server during which nobody waits for a payment: any
    but a [waitForPayment], and of [confirm_payment] only a call without
    a wait window. *)
Definition unattended (h : Happening) : bool :=
  match h with
  | OfService (Nostr.WaitForPayment _ _) => false
  | ConfirmInvoked _ waitSeconds _ _ _ => isZero (effectiveWaitSeconds waitSeconds)
  | _ => true
  end.

(** The service holds no pending payment, no suspended handler and no
    confirmation, and no [confirm_payment] is suspended. *)
Definition deaf (sys : System) : Prop :=
  Nostr.pendingPayments (nostr sys) = []
  /\ Nostr.transfers (nostr sys) = ∅
  /\ Nostr.confirmedPayments (nostr sys) = ∅
  /\ confirming sys = ∅.

(** A run in which ["cart-1"] is checked out and the customer pays at
    once, before any [confirm_payment] waits. *)
Definition early_payment : list Happening :=
  [OfService (Nostr.Initialize NostrSpec.sample_config NostrSpec.sample_identity);
   OfService (Nostr.Connected "sub-123");
   OfCheckout (Invoke "cart-1" "@alice");
   OfCheckout (InventoryDone 0 ToolsSpec.in_stock true);
   OfCheckout (RequestDone 0 (inr ToolsSpec.sample_request) "order-1" 100 200 300);
   OfService (Nostr.TransferArrives NostrRunSpec.good_transfer);
   ConfirmInvoked "cart-1" None true 400 400].

(** A run of the server in which ["cart-1"] is checked out, paid for and
    confirmed. *)
Definition sample_run : list Happening :=
  [OfService (Nostr.Initialize NostrSpec.sample_config NostrSpec.sample_identity);
   OfService (Nostr.Connected "sub-123");
   OfCheckout (Invoke "cart-1" "@alice");
   OfCheckout (InventoryDone 0 ToolsSpec.in_stock true);
   OfCheckout (RequestDone 0 (inr ToolsSpec.sample_request) "order-1" 100 200 300);
   ConfirmInvoked "cart-1" (Some (Finite 5)) true 400 400;
   ConfirmResolved 0 (inr (Some "pk-alice")) 1000;
   OfService (Nostr.TransferArrives NostrRunSpec.good_transfer);
   OfService (Nostr.TransferProcessed 1 2000);
   ConfirmSettled 0 3000 3000].




(** No variant is sold out: every look-up finds a variant for sale whose
    stock is not tracked. *)
Definition plenty : string -> Thrown + option Variant :=
  fun _ => inr (Some {| availableForSale := true; quantityAvailable := None |}).

End PaymentSpec.

Module BuylistSpec.
Import Buylist BuylistTools.

(** [p] holds of the [n] integers from [x] on. *)
Fixpoint holdsFrom (n : nat) (x : Z) (p : Z -> bool) : bool :=
  match n with
  | O => true
  | S n' => p x && holdsFrom n' (x + 1) p
  end.

(** The offer for the retail price [x] is seventy per cent of it rounded
    down to the cent, or one cent less. *)
Definition fair (x : Z) : bool :=
  (7 * x / 10 - 1 <=? calculateOfferPrice x) && (calculateOfferPrice x <=? 7 * x / 10).

(** The prices for which the offers are computed one by one below: up to
    999.99. *)
Definition PRICES_CHECKED : Z := 100000.

(** *** Sample data *)

Definition sample_prices (amount : string) : Z :=
  if String.eqb amount "0.90" then 90 else 1999.

(** A variant of which [stock] pieces are in stock, sold at 0.90. *)
Definition sample_variant (stock : option Z) : Variant := {|
  variantId_ := "gid://shopify/ProductVariant/1";
  variantTitle_ := "Near Mint";
  productTitle_ := "Pikachu";
  productHandle_ := "pikachu";
  amount := "0.90";
  currencyCode := "AED";
  quantityAvailable := stock;
|}.


End BuylistSpec.
(** * Properties *)

Local Open Scope list_scope.

(** ** Facts about [JsMap] *)

Module JsMapFacts.
Section JsMapFacts.
Context {V : Type}.
Implicit Types (m : JsMap.t V) (k : string) (v : V).
Import JsMap.

Lemma get_set_eq k v m : get k (set k v m) = Some v.
Proof.
  induction m as [|[k' v'] m IH]; simpl.
  - now rewrite String.eqb_refl.
  - destruct (String.eqb k k') eqn:E; simpl; rewrite ?E; auto.
    now rewrite String.eqb_refl.
Qed.

Lemma get_set_ne k k' v m : k <> k' -> get k' (set k v m) = get k' m.
Proof.
  intros Hne. induction m as [|[k0 v0] m IH]; simpl.
  - destruct (String.eqb k' k) eqn:E; auto.
    apply String.eqb_eq in E. congruence.
  - destruct (String.eqb k k0) eqn:E; simpl.
    + apply String.eqb_eq in E. subst k0.
      destruct (String.eqb k' k) eqn:E'; auto.
      apply String.eqb_eq in E'. congruence.
    + now rewrite IH.
Qed.

Lemma get_delete_eq k m : get k (delete k m) = None.
Proof.
  induction m as [|[k' v'] m IH]; simpl; auto.
  destruct (String.eqb k k') eqn:E; simpl; rewrite ?E; auto.
Qed.

Lemma get_delete_ne k k' m : k <> k' -> get k' (delete k m) = get k' m.
Proof.
  intros Hne. induction m as [|[k0 v0] m IH]; simpl; auto.
  destruct (String.eqb k k0) eqn:E; simpl.
  - apply String.eqb_eq in E. subst k0.
    destruct (String.eqb k' k) eqn:E'; auto.
    apply String.eqb_eq in E'. congruence.
  - now rewrite IH.
Qed.

Lemma has_true k m : has k m = true <-> exists v, get k m = Some v.
Proof.
  unfold has. destruct (get k m); split; eauto; try discriminate.
  intros [v Hv]. discriminate.
Qed.

Lemma get_In k v m : get k m = Some v -> In (k, v) m.
Proof.
  induction m as [|[k' v'] m IH]; simpl; [discriminate|].
  destruct (String.eqb k k') eqn:E.
  - apply String.eqb_eq in E. intros [= ->]. subst. now left.
  - intros H. right. auto.
Qed.

Lemma In_get k v m : In (k, v) m -> get k m <> None.
Proof.
  induction m as [|[k' v'] m IH]; simpl; [tauto|].
  intros [[= -> ->]|Hin].
  - now rewrite String.eqb_refl.
  - destruct (String.eqb k k'); [discriminate|auto].
Qed.

Lemma In_set k v x m : In x (set k v m) -> x = (k, v) \/ In x m.
Proof.
  induction m as [|[k' v'] m IH]; simpl.
  - intros [<-|[]]. now left.
  - destruct (String.eqb k k'); simpl.
    + intros [<-|Hin]; auto.
    + intros [<-|Hin]; auto. destruct (IH Hin); auto.
Qed.

Lemma In_delete k x m : In x (delete k m) -> In x m /\ fst x <> k.
Proof.
  induction m as [|[k' v'] m IH]; simpl; [tauto|].
  destruct (String.eqb k k') eqn:E; simpl.
  - intros Hin. destruct (IH Hin). auto.
  - intros [<-|Hin].
    + split; auto. simpl. intros ->. now rewrite String.eqb_refl in E.
    + destruct (IH Hin). auto.
Qed.

Lemma findValue_In p m v :
  findValue p m = Some v -> p v = true /\ exists k, In (k, v) m.
Proof.
  induction m as [|[k' v'] m IH]; simpl; [discriminate|].
  destruct (p v') eqn:E.
  - intros [= ->]. eauto.
  - intros H. destruct (IH H) as [? [k ?]]. eauto.
Qed.

Lemma In_values v m : In v (values m) <-> exists k, In (k, v) m.
Proof.
  unfold values. rewrite in_map_iff. split.
  - intros [[k v0] [<- Hin]]. eauto.
  - intros [k Hin]. exists (k, v). auto.
Qed.
End JsMapFacts.
End JsMapFacts.

(** ** Alias resolution: [resolvePubkeyWithRetry] *)

Module ResolverFacts.
Import Nostr NostrSpec.

(** When every attempt from [a] on fails, the loop makes all the attempts
    left and gives up. *)
Lemma retryLoop_exhausted lookup cleanId maxRetries remaining a :
  (a + remaining = S maxRetries)%nat ->
  (forall k, (a <= k <= maxRetries)%nat -> truthy_opt (lookup k) = false) ->
  retryLoop lookup cleanId maxRetries a remaining = (backoff cleanId a remaining, None).
Proof.
  revert a. induction remaining as [|r IH]; intros a Hsum Hfail; [reflexivity|].
  cbn [retryLoop]. rewrite Hfail by lia.
  destruct r as [|r'].
  - assert (a = maxRetries) by lia. subst a.
    rewrite Nat.ltb_irrefl. reflexivity.
  - rewrite (IH (S a)) by (try lia; intros; apply Hfail; lia).
    assert ((a <? maxRetries)%nat = true) as -> by (apply Nat.ltb_lt; lia).
    reflexivity.
Qed.

(** When attempt [a + n] is the first one to succeed, the loop stops there,
    after [n] failed attempts and as many pauses. *)
Lemma retryLoop_first_success lookup cleanId maxRetries remaining a n :
  (a + remaining = S maxRetries)%nat ->
  (n < remaining)%nat ->
  (forall k, (a <= k < a + n)%nat -> truthy_opt (lookup k) = false) ->
  truthy_opt (lookup (a + n)%nat) = true ->
  retryLoop lookup cleanId maxRetries a remaining
  = (backoff cleanId a (S n), lookup (a + n)%nat).
Proof.
  revert a remaining. induction n as [|n IH]; intros a remaining Hsum Hlt Hfail Hok.
  - destruct remaining as [|r]; [lia|]. cbn [retryLoop].
    rewrite Nat.add_0_r in Hok |- *. now rewrite Hok.
  - destruct remaining as [|r]; [lia|]. cbn [retryLoop].
    rewrite Hfail by lia.
    assert ((a <? maxRetries)%nat = true) as -> by (apply Nat.ltb_lt; lia).
    rewrite (IH (S a) r); try lia.
    + replace (S a + n)%nat with (a + S n)%nat by lia. reflexivity.
    + intros k Hk. apply Hfail. lia.
    + replace (S a + n)%nat with (a + S n)%nat by lia. exact Hok.
Qed.

(** C7.  With the default budget of three attempts: when every lookup
    yields nothing the resolution makes exactly three queries, pausing 1000
    and then 2000 milliseconds between them, and returns [null]; when
    attempt [k] is the first to succeed it returns that key right after
    query [k], without a further pause; and the call throws exactly when
    the service has no client, that is when it is not initialized. *)
Theorem resolution_retries_three_times s unicity lookup :
  let cleanId := normalizeId unicity in
  let result := resolvePubkeyWithRetry unicity DEFAULT_MAX_RETRIES lookup s in
  (is_Some (client s) ->
   (forall k, truthy_opt (lookup k) = false) ->
   result = inr ([Query cleanId; Delay 1000; Query cleanId; Delay 2000; Query cleanId], None)
   /\ resolveUnicityId unicity lookup s = result)
  /\ (is_Some (client s) ->
      forall k, (1 <= k <= 3)%nat ->
      (forall j, (1 <= j < k)%nat -> truthy_opt (lookup j) = false) ->
      truthy_opt (lookup k) = true ->
      exists io, result = inr (io, lookup k)
        /\ io = backoff cleanId 1 k
        /\ queries io = k
        /\ last io = Some (Query cleanId))
  /\ ((exists t, result = inl t) <-> client s = None).
Proof.
  intros cleanId result. subst result cleanId.
  unfold resolveUnicityId, resolvePubkeyWithRetry, DEFAULT_MAX_RETRIES.
  split; [|split].
  - intros [c Hc] Hfail. rewrite Hc.
    rewrite (retryLoop_exhausted lookup (normalizeId unicity) 3 3 1); auto.
  - intros [c Hc] k Hk Hfail Hok. rewrite Hc.
    destruct k as [|k]; [lia|].
    rewrite (retryLoop_first_success lookup (normalizeId unicity) 3 3 1 k);
      [| lia | lia | intros j Hj; apply Hfail; lia | exact Hok].
    exists (backoff (normalizeId unicity) 1 (S k)). repeat split.
    + destruct k as [|[|[|k]]]; try lia; reflexivity.
    + destruct k as [|[|[|k]]]; try lia; reflexivity.
  - split.
    + intros [t Ht]. destruct (client s); [discriminate|reflexivity].
    + intros ->. eauto.
Qed.

Lemma resolution_retries_three_times_witness :
  resolvePubkeyWithRetry "@nobody" DEFAULT_MAX_RETRIES never_found connected_service
  = inr ([Query "nobody"; Delay 1000; Query "nobody"; Delay 2000; Query "nobody"], None)
  /\ (exists io,
        resolvePubkeyWithRetry "@bob" DEFAULT_MAX_RETRIES (found_at 2 "pk-bob") connected_service
        = inr (io, Some "pk-bob")
        /\ io = [Query "bob"; Delay 1000; Query "bob"])
  /\ (exists t, resolvePubkeyWithRetry "@bob" DEFAULT_MAX_RETRIES never_found fresh = inl t).
Proof.
  destruct (resolution_retries_three_times connected_service "@nobody" never_found)
    as [Hnone _].
  destruct (resolution_retries_three_times connected_service "@bob" (found_at 2 "pk-bob"))
    as [_ [Hfirst _]].
  destruct (resolution_retries_three_times fresh "@bob" never_found) as [_ [_ Hthrow]].
  split; [|split].
  - apply Hnone; [now exists {| relay := "wss://relay.example" |}|reflexivity].
  - destruct (Hfirst (ex_intro _ {| relay := "wss://relay.example" |} eq_refl) 2%nat)
      as [io [Hio [Hshape _]]]; [lia| |reflexivity|].
    + intros j Hj. assert (j = 1%nat) as -> by lia. reflexivity.
    + exists io. split; [exact Hio|exact Hshape].
  - apply Hthrow. reflexivity.
Defined.

End ResolverFacts.

(** ** The order store: status transitions *)

Module TrackerFacts.
Import Tracker TrackerSpec.

(** C6, as stated, fails: [markAwaitingPayment], which is no administrative
    override, takes a paid order back to [awaiting_payment], and [markPaid]
    takes a cancelled order to [paid]; neither step is one of the
    lifecycle. *)
Lemma terminal_orders_can_be_moved :
  let orders : Orders := {[ "cart-1" := paid_order ]} in
  terminal (status paid_order) = true
  /\ getOrderStatus "cart-1"
       (snd (markAwaitingPayment "cart-1" "evt-2" "@bob" 300 orders))
     = Some awaiting_payment
  /\ ~ lifecycle paid awaiting_payment
  /\ getOrderStatus "cart-1"
       (snd (markPaid "cart-1" 400 401 (snd (markCancelled "cart-1" 300 orders))))
     = Some paid
  /\ ~ lifecycle cancelled paid.
Proof.
  repeat split; try reflexivity; intros H; inversion H.
Qed.

(** C6, amended.  The tracker applies every transition without looking at
    the current status: whatever the status of the order of [cart], each of
    [markAwaitingPayment], [markPaid], [markCancelled], [markPaymentTimeout]
    and [updateOrderStatus] leaves it in the requested status with
    [updatedAt] set to the time of the call; [paid] also stamps [paidAt],
    the other statuses leave it; the identity, the cart, the amount, the
    currency and the creation time stay, and no other order is touched. *)
Theorem transitions_are_unguarded_and_stamped
    (orders : Orders) (cart : string) (order : Order) (now paidNow : Z) :
  orders !! cart = Some order ->
  (forall st,
     exists order',
       updateOrderStatus cart st now paidNow orders = (Some order', <[cart := order']> orders)
       /\ status order' = st
       /\ updatedAt order' = now
       /\ paidAt order' = (if OrderStatus_eqb st paid then Some paidNow else paidAt order)
       /\ paymentEventId order' = paymentEventId order
       /\ unicityId order' = unicityId order)
  /\ (forall t,
        exists order',
          transition t cart now paidNow orders = (Some order', <[cart := order']> orders)
          /\ status order' = target t
          /\ updatedAt order' = now
          /\ (t = MarkPaid -> paidAt order' = Some paidNow)
          /\ (t <> MarkPaid -> paidAt order' = paidAt order)
          /\ (forall event unicity, t = MarkAwaitingPayment event unicity ->
              paymentEventId order' = Some event /\ unicityId order' = Some unicity)
          /\ id order' = id order /\ cartId order' = cartId order
          /\ totalAmountCents order' = totalAmountCents order
          /\ currency order' = currency order
          /\ createdAt order' = createdAt order
          /\ forall other, other <> cart ->
               snd (transition t cart now paidNow orders) !! other = orders !! other).
Proof.
  intros Hcart. split.
  - intros st. unfold updateOrderStatus. rewrite Hcart.
    eexists. split; [reflexivity|]. simpl. auto.
  - intros t.
    destruct t; unfold transition, markPaid, markCancelled, markPaymentTimeout,
      markAwaitingPayment, updateOrderStatus; rewrite Hcart;
      (eexists; split; [reflexivity|]); simpl;
      repeat split; try congruence;
      try (intros; now rewrite lookup_insert_ne by congruence).
Qed.

Lemma transitions_are_unguarded_and_stamped_witness :
  exists order',
    markPaymentTimeout "cart-1" 500 ({[ "cart-1" := paid_order ]} : Orders)
    = (Some order', <[ "cart-1" := order' ]> ({[ "cart-1" := paid_order ]} : Orders))
    /\ status order' = payment_timeout
    /\ updatedAt order' = 500.
Proof.
  destruct (transitions_are_unguarded_and_stamped
              ({[ "cart-1" := paid_order ]} : Orders) "cart-1" paid_order 500 500)
    as [_ H]; [reflexivity|].
  destruct (H MarkPaymentTimeout) as [order' [Heq [Hst [Hup _]]]].
  exists order'. split; [exact Heq|]. split; [exact Hst|exact Hup].
Defined.

(** The order the checkout tool makes is in [pending] and its first
    transition is the one of the lifecycle. *)
Lemma checkout_follows_lifecycle cart total cur uuid now event unicity now' orders :
  let '(order, orders1) := trackOrder cart total cur uuid now orders in
  status order = pending
  /\ exists order',
       markAwaitingPayment cart event unicity now' orders1
       = (Some order', <[cart := order']> orders1)
       /\ lifecycle (status order) (status order').
Proof.
  simpl. split; [reflexivity|].
  unfold markAwaitingPayment. rewrite lookup_insert_eq.
  eexists. split; [reflexivity|]. constructor.
Qed.

End TrackerFacts.

(** ** The service: promises, confirmations, shutdown *)

Module NostrFacts.
Import Nostr NostrSpec.

(** *** Settling a promise *)

Lemma settle_stable p o (m : gmap nat Settlement) q x :
  m !! q = Some x -> settle p o m !! q = Some x.
Proof.
  intros H. unfold settle. destruct (m !! p) eqn:E; auto.
  destruct (decide (p = q)) as [->|Hne]; [congruence|].
  now rewrite lookup_insert_ne.
Qed.

Lemma settle_other p o (m : gmap nat Settlement) q :
  p <> q -> settle p o m !! q = m !! q.
Proof.
  intros H. unfold settle. destruct (m !! p); auto. now rewrite lookup_insert_ne.
Qed.

Lemma settle_unsettled p o (m : gmap nat Settlement) :
  m !! p = None -> settle p o m !! p = Some o.
Proof. intros H. unfold settle. rewrite H. apply lookup_insert_eq. Qed.

Lemma settle_settles p o (m : gmap nat Settlement) : is_Some (settle p o m !! p).
Proof.
  destruct (m !! p) eqn:E.
  - exists s. now apply settle_stable.
  - exists o. now apply settle_unsettled.
Qed.

(** *** [rejectAll] *)

Lemma rejectAll_frame l s :
  client (rejectAll l s) = client s
  /\ config (rejectAll l s) = config s
  /\ identityService (rejectAll l s) = identityService s
  /\ pendingPayments (rejectAll l s) = pendingPayments s
  /\ confirmedPayments (rejectAll l s) = confirmedPayments s
  /\ transferSubscriptionId (rejectAll l s) = transferSubscriptionId s
  /\ isInitialized (rejectAll l s) = isInitialized s
  /\ timers (rejectAll l s) = timers s
  /\ transfers (rejectAll l s) = transfers s
  /\ nextId (rejectAll l s) = nextId s
  /\ effects (rejectAll l s)
     = effects s ++ List.map (fun p => Reject (waiter p) (ErrorMessage SHUTTING_DOWN)) l.
Proof.
  revert s. induction l as [|p l IH]; intros s; simpl.
  - rewrite app_nil_r. repeat split.
  - destruct (IH (reject p (ErrorMessage SHUTTING_DOWN) s))
      as (H1 & H2 & H3 & H4 & H5 & H6 & H7 & H8 & H9 & H10 & H11).
    unfold rejectAll in *. simpl.
    rewrite H1, H2, H3, H4, H5, H6, H7, H8, H9, H10, H11.
    simpl. rewrite <- app_assoc. repeat split.
Qed.

Lemma rejectAll_stable l s q x :
  promises s !! q = Some x -> promises (rejectAll l s) !! q = Some x.
Proof.
  revert s. induction l as [|p l IH]; intros s H; simpl; auto.
  apply IH. simpl. now apply settle_stable.
Qed.

Lemma rejectAll_rejects l s p :
  In p l ->
  promises s !! waiter p = None ->
  promises (rejectAll l s) !! waiter p = Some (Rejected (ErrorMessage SHUTTING_DOWN)).
Proof.
  revert s. induction l as [|p0 l IH]; intros s Hin Hnone; [destruct Hin|].
  simpl. destruct (decide (waiter p0 = waiter p)) as [Heq|Hne].
  - apply rejectAll_stable. simpl. rewrite Heq. now apply settle_unsettled.
  - destruct Hin as [->|Hin]; [congruence|].
    apply IH; auto. simpl. now rewrite settle_other.
Qed.

(** *** C8: waiting on a confirmed cart *)

(** C8.  On an initialized service, [waitForPayment] for a cart that has an
    entry in [confirmedPayments] returns that entry and changes nothing: no
    pending payment is registered and no time-out armed; so a second call
    finds the same state and returns the identical confirmation, which is
    also what [getConfirmedPayment] reads. *)
Theorem wait_on_confirmed_cart_is_idempotent s cart confirmed a1 a2 now1 now2 :
  is_Some (config s) ->
  confirmedPayments s !! cart = Some confirmed ->
  argCartId a1 = cart ->
  argCartId a2 = cart ->
  waitForPayment a1 now1 s = (WaitReturns confirmed, s)
  /\ waitForPayment a2 now2 (snd (waitForPayment a1 now1 s)) = (WaitReturns confirmed, s)
  /\ getConfirmedPayment cart s = Some confirmed.
Proof.
  intros [cfg Hcfg] Hconfirmed H1 H2.
  assert (Hwait : forall a now, argCartId a = cart ->
            waitForPayment a now s = (WaitReturns confirmed, s)).
  { intros a now Ha. unfold waitForPayment. now rewrite Hcfg, Ha, Hconfirmed. }
  split; [now apply Hwait|]. split; [|exact Hconfirmed].
  rewrite (Hwait a1 now1 H1). simpl. now apply Hwait.
Qed.

(** *** C10: shutdown *)

Lemma initialize_initialized cfg ids sub s :
  isInitialized s = false ->
  truthy sub = true ->
  initialized (initialize_connected sub (initialize cfg ids s)).
Proof.
  intros Hinit Hsub. unfold initialize_connected, subscribeToTokenTransfers, initialize.
  rewrite Hinit. simpl. repeat split; eauto.
Qed.


Lemma wait_on_confirmed_cart_is_idempotent_witness :
  let ev := sample_transfer (Some "evt-1") (Some 4999) (inr "{}") in
  let s := run [TransferArrives ev; TransferProcessed 1 2000] waiting_service in
  waitForPayment sample_wait 3000 s = (WaitReturns (confirmationOf ev sample_pending 2000), s)
  /\ waitForPayment sample_wait 4000 (snd (waitForPayment sample_wait 3000 s))
     = (WaitReturns (confirmationOf ev sample_pending 2000), s).
Proof.
  cbv zeta.
  set (ev := sample_transfer (Some "evt-1") (Some 4999) (inr "{}")).
  set (s := run [TransferArrives ev; TransferProcessed 1 2000] waiting_service).
  destruct (wait_on_confirmed_cart_is_idempotent s "cart-1"
              (confirmationOf ev sample_pending 2000) sample_wait sample_wait 3000 4000)
    as (Hfirst & Hsecond & _).
  - exists sample_config. reflexivity.
  - reflexivity.
  - reflexivity.
  - reflexivity.
  - split; [exact Hfirst|exact Hsecond].
Defined.


End NostrFacts.

(** ** The correlator: [handleIncomingTransfer] *)

Module TransferFacts.
Import Nostr NostrSpec.

(** How an event gets matched: by its reply-to id, or else by its sender. *)
Lemma matchPending_sound ev s pending :
  matchPending ev s = Some pending ->
  (exists r, replyToEventId ev = Some r
     /\ JsMap.get r (pendingPayments s) = Some pending)
  \/ (customerPubkey pending = sender ev
      /\ exists k, In (k, pending) (pendingPayments s)).
Proof.
  unfold matchPending. destruct (replyToEventId ev) as [r|] eqn:Er.
  - destruct (truthy r).
    + destruct (JsMap.get r (pendingPayments s)) as [p|] eqn:Eg.
      * intros [= <-]. left. eauto.
      * intros H. apply JsMapFacts.findValue_In in H as [Hp Hin].
        right. split; [now apply String.eqb_eq|exact Hin].
    + intros H. apply JsMapFacts.findValue_In in H as [Hp Hin].
      right. split; [now apply String.eqb_eq|exact Hin].
  - intros H. apply JsMapFacts.findValue_In in H as [Hp Hin].
    right. split; [now apply String.eqb_eq|exact Hin].
Qed.

Lemma matchPending_sound_In ev s pending :
  matchPending ev s = Some pending -> exists k, In (k, pending) (pendingPayments s).
Proof.
  intros H. apply matchPending_sound in H as [(r & _ & Hg)|[_ Hin]]; [|exact Hin].
  exists r. now apply JsMapFacts.get_In.
Qed.

(** A matched token transfer is handed to a handler that suspends. *)
Lemma arrival_suspends ev s pending :
  isTokenTransfer ev = true ->
  matchPending ev s = Some pending ->
  is_Some (identityService s) ->
  inFlight (handleIncomingTransfer ev s) (nextId s) ev pending.
Proof.
  intros Htt Hm [i Hi]. unfold handleIncomingTransfer, inFlight.
  rewrite Htt, Hm, Hi. simpl. apply lookup_insert_eq.
Qed.

(** An event that is no token transfer, or matches nothing, is dropped. *)
Lemma unmatched_is_dropped ev s :
  isTokenTransfer ev = false \/ matchPending ev s = None ->
  handleIncomingTransfer ev s = s.
Proof.
  unfold handleIncomingTransfer. intros [->| ->]; [reflexivity|].
  now destruct (negb (isTokenTransfer ev)).
Qed.

Lemma transferProcessed_processed s h ev pending now :
  inFlight s h ev pending ->
  payloadProcessed ev ->
  transferProcessed h now s
  = settleTransfer ev pending now (withTransfers (delete h (transfers s)) s).
Proof.
  intros Hin (json & ok & Hdata & Htruthy & Hproc).
  unfold transferProcessed. rewrite Hin, Hdata, Htruthy, Hproc. reflexivity.
Qed.

(** The [catch] block never confirms and never raises a mismatch. *)
Lemma transferFailed_effects ev pending error s :
  confirmedPayments (transferFailed ev pending error s) = confirmedPayments s
  /\ exists new,
       effects (transferFailed ev pending error s) = effects s ++ new
       /\ ~ mismatchRaised new
       /\ forall p c, ~ In (Resolve p c) new.
Proof.
  unfold transferFailed. destruct (truthy_opt (replyToEventId ev)).
  - split; [reflexivity|]. eexists. split; [reflexivity|]. split.
    + intros (p & r & e & [H|[]]). discriminate.
    + intros p c [H|[]]. discriminate.
  - split; [reflexivity|]. exists []. split; [now rewrite app_nil_r|]. split.
    + intros (p & r & e & []).
    + intros p c [].
Qed.

(** What a handler does once resumed, whatever its event: its effects are
    at most one settlement, and a mismatch is only raised for an amount
    that differs. *)
Lemma transferProcessed_effects s h ev pending now :
  inFlight s h ev pending ->
  exists new,
    effects (transferProcessed h now s) = effects s ++ new
    /\ (mismatchRaised new ->
        exists a, amount ev = Some a /\ a <> amountTokens pending)
    /\ ((exists p c, In (Resolve p c) new) ->
        amount ev = None \/ amount ev = Some (amountTokens pending)).
Proof.
  intros Hin. unfold transferProcessed. rewrite Hin.
  set (s1 := withTransfers _ s).
  assert (Hfail : forall error, exists new,
            effects (transferFailed ev pending error s1) = effects s ++ new
            /\ (mismatchRaised new ->
                exists a, amount ev = Some a /\ a <> amountTokens pending)
            /\ ((exists p c, In (Resolve p c) new) ->
                amount ev = None \/ amount ev = Some (amountTokens pending))).
  { intros error.
    destruct (transferFailed_effects ev pending error s1) as [_ (new & He & Hm & Hr)].
    exists new. split; [exact He|]. split; [tauto|].
    intros (p & c & H). exfalso. eapply Hr; eauto. }
  destruct (tokenData ev) as [error|json]; [apply Hfail|].
  destruct (truthy json); [|apply Hfail].
  destruct (processed ev) as [error|ok]; [apply Hfail|].
  unfold settleTransfer. destruct (amount ev) as [a|] eqn:Ea.
  - destruct (a =? amountTokens pending) eqn:Eeq; simpl.
    + eexists. split; [reflexivity|]. split.
      * intros (p & r & e & [H|[]]). discriminate.
      * intros _. right. f_equal. now apply Z.eqb_eq.
    + eexists. split; [reflexivity|]. split.
      * intros _. exists a. split; [reflexivity|]. now apply Z.eqb_neq.
      * intros (p & c & [H|[]]). discriminate.
  - eexists. split; [reflexivity|]. split.
    + intros (p & r & e & [H|[]]). discriminate.
    + auto.
Qed.

(** C2, as stated, fails: a transfer matched by its sender whose amount,
    4998, is not the expected 4999, but whose token data cannot be
    decrypted, leaves the pending payment in the index and its waiter
    pending; the handler ends in its [catch] block, which rejects only
    transfers that name the request in their reply-to tag. *)
Lemma mismatch_with_unreadable_payload_is_ignored :
  let ev := sample_transfer None (Some 4998) (inl (ThrownError "decrypt failed")) in
  let s := run [TransferArrives ev; TransferProcessed 1 2000] waiting_service in
  (exists pending,
     matchPending ev waiting_service = Some pending
     /\ amountTokens pending = 4999
     /\ amount ev = Some 4998
     /\ JsMap.get (eventId pending) (pendingPayments s) = Some pending
     /\ delivered s (waiter pending) = None)
  /\ effects s = effects waiting_service.
Proof.
  cbv zeta. split; [|reflexivity].
  eexists. split; [reflexivity|]. repeat split.
Qed.

(** C2, amended.  For a transfer matched to a pending payment whose handler
    is resumed, and whose amount is not the expected one: no confirmation
    is recorded for the cart, whatever the payload; and when the payload
    was decrypted, parsed and processed without an exception, the pending
    payment is removed from the index and its [reject] is called once,
    with the amount-mismatch error, which is what its waiter receives
    unless it was settled before. *)
Theorem mismatch_rejects_and_removes s h ev pending now a :
  inFlight s h ev pending ->
  amount ev = Some a ->
  a <> amountTokens pending ->
  let s' := transferProcessed h now s in
  confirmedPayments s' = confirmedPayments s
  /\ (payloadProcessed ev ->
      JsMap.get (eventId pending) (pendingPayments s') = None
      /\ effects s'
         = effects s ++ [Reject (waiter pending) (AmountMismatch a (amountTokens pending))]
      /\ (delivered s (waiter pending) = None ->
          delivered s' (waiter pending)
          = Some (Rejected (AmountMismatch a (amountTokens pending))))
      /\ ~ inFlight s' h ev pending).
Proof.
  intros Hin Ha Hne s'. subst s'. split.
  - unfold transferProcessed. rewrite Hin.
    set (s1 := withTransfers _ s).
    assert (Hfail : forall error,
              confirmedPayments (transferFailed ev pending error s1) = confirmedPayments s).
    { intros error. now destruct (transferFailed_effects ev pending error s1) as [-> _]. }
    destruct (tokenData ev) as [error|json]; [apply Hfail|].
    destruct (truthy json); [|apply Hfail].
    destruct (processed ev) as [error|ok]; [apply Hfail|].
    unfold settleTransfer. rewrite Ha.
    apply Z.eqb_neq in Hne. rewrite Hne. reflexivity.
  - intros Hok. rewrite (transferProcessed_processed s h ev pending now Hin Hok).
    unfold settleTransfer. rewrite Ha.
    apply Z.eqb_neq in Hne. rewrite Hne. cbn [negb].
    split; [|split; [|split]].
    + apply JsMapFacts.get_delete_eq.
    + reflexivity.
    + unfold delivered. simpl. apply NostrFacts.settle_unsettled.
    + unfold inFlight. simpl. now rewrite lookup_delete_eq.
Qed.

Lemma mismatch_rejects_and_removes_witness :
  let ev := sample_transfer (Some "evt-1") (Some 4998) (inr "{}") in
  let s' := transferProcessed 1 2000 (handleIncomingTransfer ev waiting_service) in
  JsMap.get "evt-1" (pendingPayments s') = None
  /\ delivered s' 0 = Some (Rejected (AmountMismatch 4998 4999))
  /\ confirmedPayments s' = confirmedPayments waiting_service.
Proof.
  cbv zeta.
  set (ev := sample_transfer (Some "evt-1") (Some 4998) (inr "{}")).
  destruct (mismatch_rejects_and_removes (handleIncomingTransfer ev waiting_service)
              1 ev sample_pending 2000 4998) as [Hconfirmed Hrest];
    [reflexivity|reflexivity|discriminate|].
  destruct Hrest as (Hgone & _ & Hdelivered & _).
  { exists "{}", true. repeat split. }
  split; [exact Hgone|]. split; [|exact Hconfirmed].
  apply Hdelivered. reflexivity.
Defined.

(** C3, as stated, fails, and for the same reason: when the token data of
    a matched transfer is empty or cannot be read, the handler never
    reaches the amount check.  A transfer in reply to the request with the
    amount 4998 for 4999 is then rejected as a processing failure, not as a
    mismatch; a transfer matched by its sender that carries no amount is
    not confirmed. *)
Lemma unreadable_payload_skips_the_amount_check :
  let ev1 := sample_transfer (Some "evt-1") (Some 4998) (inr "") in
  let s1 := run [TransferArrives ev1; TransferProcessed 1 2000] waiting_service in
  let ev2 := sample_transfer None None (inl (ThrownError "decrypt failed")) in
  let s2 := run [TransferArrives ev2; TransferProcessed 1 2000] waiting_service in
  (matchPending ev1 waiting_service = Some sample_pending
   /\ amount ev1 = Some 4998
   /\ amountTokens sample_pending = 4999
   /\ effects s1
      = effects waiting_service ++ [Reject 0 (PaymentFailed "Empty token data")]
   /\ delivered s1 0 = Some (Rejected (PaymentFailed "Empty token data")))
  /\ (matchPending ev2 waiting_service = Some sample_pending
      /\ amount ev2 = None
      /\ confirmedPayments s2 !! "cart-1" = None
      /\ delivered s2 0 = None
      /\ effects s2 = effects waiting_service).
Proof.
  cbv zeta. repeat split.
Qed.

(** C3, amended.  For a transfer matched to a pending payment whose handler
    is resumed: the amount-mismatch failure is raised only if the event
    carries an amount and it differs from [amountTokens]; and when the
    payload was decrypted, parsed and processed without an exception, it is
    raised if the amount differs, while an event that carries no amount is
    not validated at all: the payment is confirmed for the cart, removed
    from the index and its waiter resolved with the confirmation. *)
Theorem amount_is_validated_only_when_present s h ev pending now :
  inFlight s h ev pending ->
  let s' := transferProcessed h now s in
  exists new,
    effects s' = effects s ++ new
    /\ (mismatchRaised new ->
        exists a, amount ev = Some a /\ a <> amountTokens pending)
    /\ (payloadProcessed ev ->
        ((exists a, amount ev = Some a /\ a <> amountTokens pending) ->
         mismatchRaised new)
        /\ (amount ev = None ->
            new = [Resolve (waiter pending) (confirmationOf ev pending now)]
            /\ confirmedPayments s' !! cartId pending
               = Some (confirmationOf ev pending now)
            /\ JsMap.get (eventId pending) (pendingPayments s') = None
            /\ (delivered s (waiter pending) = None ->
                delivered s' (waiter pending)
                = Some (Fulfilled (confirmationOf ev pending now))))).
Proof.
  intros Hin s'. subst s'.
  destruct (transferProcessed_effects s h ev pending now Hin) as (new & Hnew & Honly & _).
  exists new. split; [exact Hnew|]. split; [exact Honly|].
  intros Hok. rewrite (transferProcessed_processed s h ev pending now Hin Hok) in *.
  unfold settleTransfer in *. split.
  - intros (a & Ha & Hne). rewrite Ha in Hnew.
    apply Z.eqb_neq in Hne. rewrite Hne in Hnew. cbn in Hnew.
    apply app_inv_head in Hnew. subst new.
    exists (waiter pending), a, (amountTokens pending). now left.
  - intros Hnone. rewrite Hnone in *. cbn in Hnew.
    apply app_inv_head in Hnew. subst new.
    split; [reflexivity|]. split; [|split].
    + cbn. apply lookup_insert_eq.
    + cbn. apply JsMapFacts.get_delete_eq.
    + intros Hd. unfold delivered. cbn. now apply NostrFacts.settle_unsettled.
Qed.

Lemma amount_is_validated_only_when_present_witness :
  let ev := sample_transfer (Some "evt-1") None (inr "{}") in
  let s' := transferProcessed 1 2000 (handleIncomingTransfer ev waiting_service) in
  confirmedPayments s' !! "cart-1" = Some (confirmationOf ev sample_pending 2000)
  /\ delivered s' 0 = Some (Fulfilled (confirmationOf ev sample_pending 2000)).
Proof.
  cbv zeta.
  set (ev := sample_transfer (Some "evt-1") None (inr "{}")).
  destruct (amount_is_validated_only_when_present
              (handleIncomingTransfer ev waiting_service) 1 ev sample_pending 2000)
    as (new & _ & _ & Hok); [reflexivity|].
  destruct Hok as [_ Hnone].
  { exists "{}", true. repeat split. }
  destruct (Hnone eq_refl) as (_ & Hconfirmed & _ & Hdelivered).
  split; [exact Hconfirmed|]. apply Hdelivered. reflexivity.
Defined.

End TransferFacts.

(** ** The payment tools *)

Module ToolsFacts.
Import Tools ToolsSpec.

(** *** C9: the wait window of [confirm_payment] *)

(** C9.  For every [waitSeconds] the schema lets through, the effective
    wait is a finite number of the closed interval from 0 to 120, namely
    the one nearest to [waitSeconds]: a value in the interval is kept,
    a negative one becomes 0 and one above 120 becomes 120 (so 500 becomes
    120); an absent value counts as 0. *)
Theorem wait_window_is_clamped (waitSeconds : option number) :
  let effective := effectiveWaitSeconds waitSeconds in
  (exists q, effective = Finite q /\ (0 <= q)%Q /\ (q <= 120)%Q)
  /\ effective = clamp_0_120 (default (Finite 0) waitSeconds)
  /\ (forall q, waitSeconds = Some (Finite q) ->
        ((q < 0)%Q -> effective = Finite 0)
        /\ ((120 < q)%Q -> effective = Finite 120)
        /\ ((0 <= q)%Q -> (q <= 120)%Q -> effective = Finite q))
  /\ effectiveWaitSeconds (Some (Finite 500)) = Finite 120
  /\ effectiveWaitSeconds (Some (Finite (-7))) = Finite 0
  /\ effectiveWaitSeconds None = Finite 0.
Proof.
  intros effective. subst effective.
  assert (Hq : forall q,
            effectiveWaitSeconds (Some (Finite q))
            = (if negb (Qle_bool 0 q) then Finite 0
               else if negb (Qle_bool q 120) then Finite 120 else Finite q)).
  { intros q. unfold effectiveWaitSeconds, Math_max, Math_min. simpl.
    destruct (Qle_bool 0 q) eqn:E0; simpl; [|reflexivity].
    destruct (Qle_bool q 120); reflexivity. }
  split; [|split; [|split]].
  - destruct waitSeconds as [[| q |]|].
    + exists 0%Q. repeat split; discriminate.
    + rewrite Hq. destruct (Qle_bool 0 q) eqn:E0; simpl.
      * destruct (Qle_bool q 120) eqn:E1; simpl.
        -- exists q. split; [reflexivity|]. split; now apply Qle_bool_iff.
        -- exists 120%Q. repeat split; discriminate.
      * exists 0%Q. repeat split; discriminate.
    + exists 120%Q. repeat split; discriminate.
    + exists 0%Q. repeat split; discriminate.
  - destruct waitSeconds as [[| q |]|]; try reflexivity. apply Hq.
  - intros q ->. rewrite Hq. split; [|split].
    + intros Hneg. destruct (Qle_bool 0 q) eqn:E0; [|reflexivity].
      apply Qle_bool_iff in E0. exfalso. now apply (Qlt_not_le q 0).
    + intros Hbig. destruct (Qle_bool 0 q) eqn:E0; simpl; [|].
      * destruct (Qle_bool q 120) eqn:E1; [|reflexivity].
        apply Qle_bool_iff in E1. exfalso. now apply (Qlt_not_le 120 q).
      * exfalso. assert (H0 : (0 <= q)%Q).
        { apply Qlt_le_weak. eapply Qlt_trans; [|exact Hbig]. reflexivity. }
        apply Qle_bool_iff in H0. congruence.
    + intros H0 H1. apply Qle_bool_iff in H0, H1. now rewrite H0, H1.
  - repeat split.
Qed.

Lemma wait_window_is_clamped_witness :
  effectiveWaitSeconds (Some (Finite 500)) = Finite 120
  /\ effectiveWaitSeconds (Some (Finite (45 # 2))) = Finite (45 # 2)
  /\ effectiveWaitSeconds (Some (Finite (-1))) = Finite 0.
Proof.
  destruct (wait_window_is_clamped (Some (Finite 500))) as (_ & _ & H500 & _).
  destruct (wait_window_is_clamped (Some (Finite (45 # 2)))) as (_ & _ & Hmid & _).
  destruct (wait_window_is_clamped (Some (Finite (-1)))) as (_ & _ & Hneg & _).
  split; [|split].
  - apply (H500 500%Q eq_refl). reflexivity.
  - apply (Hmid (45 # 2)%Q eq_refl); discriminate.
  - apply (Hneg (-1)%Q eq_refl). reflexivity.
Defined.

(** *** The three pieces of [checkout_with_unicity] *)

Lemma released (cart : string) (locks : gset string) : cart ∉ locks ∖ {[cart]}.
Proof. rewrite elem_of_difference, elem_of_singleton. tauto. Qed.

Lemma acquired_released (cart : string) (locks : gset string) :
  cart ∉ locks -> ({[cart]} ∪ locks) ∖ {[cart]} = locks.
Proof.
  intros Hfree. apply set_eq. intros c.
  rewrite elem_of_difference, elem_of_union, elem_of_singleton. split.
  - intros [[->|H] Hne]; [contradiction|exact H].
  - intros H. split; [now right|]. intros ->. contradiction.
Qed.

Lemma release_acquire cart st :
  (cart ∉ checkoutLocks st) -> release cart (acquire cart st) = st.
Proof.
  intros Hfree. destruct st as [locks cs os]. unfold release, acquire, withLocks.
  simpl in *. f_equal. now apply acquired_released.
Qed.

Lemma locked_iff cart st :
  isCheckoutInProgress cart st = true <-> cart ∈ checkoutLocks st.
Proof. unfold isCheckoutInProgress. apply bool_decide_eq_true. Qed.

(** The entry: an in-progress reply that leaves the store alone, or a reply
    after which the store is as before, or a suspension holding the lock. *)
Lemma enter_cases cart unicity st :
  (cart ∈ checkoutLocks st
   /\ checkout_entry cart unicity st = (inl (InProgress cart), st))
  \/ ((cart ∉ checkoutLocks st)
      /\ ((exists r, checkout_entry cart unicity st = (inl r, st)
             /\ (r = CartNotFound cart \/ r = CartEmpty cart))
          \/ (exists t, checkout_entry cart unicity st = (inr t, acquire cart st)
                /\ invCartId t = cart /\ invUnicityId t = unicity
                /\ carts st !! cart = Some (invCart t)))).
Proof.
  unfold checkout_entry.
  destruct (isCheckoutInProgress cart st) eqn:E.
  - left. split; [now apply locked_iff|reflexivity].
  - right. assert (Hfree : cart ∉ checkoutLocks st).
    { intros H. apply locked_iff in H. congruence. }
    split; [exact Hfree|]. unfold Carts.getCart. simpl.
    destruct (carts st !! cart) as [c|] eqn:Ec.
    + destruct (Carts.lines c) eqn:El.
      * left. eexists. rewrite release_acquire by exact Hfree. eauto.
      * right. eexists. split; [reflexivity|]. simpl. auto.
    + left. eexists. rewrite release_acquire by exact Hfree. eauto.
Qed.

(** After the inventory loop: a reply that releases the lock, or a
    suspension that leaves the store alone. *)
Lemma afterInventory_cases task getVariantById connected st :
  (exists r, checkout_afterInventory task getVariantById connected st
             = (inl r, release (invCartId task) st)
        /\ isError r = true)
  \/ (exists t, checkout_afterInventory task getVariantById connected st = (inr t, st)
        /\ reqCartId t = invCartId task
        /\ reqUnicityId t = invUnicityId task
        /\ reqCart t = invCart task
        /\ reqAmountTokens t = Carts.subtotalCents (invCart task)).
Proof.
  unfold checkout_afterInventory.
  destruct (inventoryLoop getVariantById (Carts.lines (invCart task)) [])
    as [t|[|e es]]; [left; eauto| |left; eauto].
  assert (Hproceed :
    (exists r, (if negb connected
                then (inl NotConnected, release (invCartId task) st)
                else (inr {| reqCartId := invCartId task;
                             reqUnicityId := invUnicityId task;
                             reqCart := invCart task;
                             reqAmountTokens := Carts.subtotalCents (invCart task) |}, st))
               = (inl r, release (invCartId task) st) /\ isError r = true)
    \/ (exists t, (if negb connected
                   then (inl NotConnected, release (invCartId task) st)
                   else (inr {| reqCartId := invCartId task;
                                reqUnicityId := invUnicityId task;
                                reqCart := invCart task;
                                reqAmountTokens := Carts.subtotalCents (invCart task) |}, st))
                  = (inr t, st)
          /\ reqCartId t = invCartId task /\ reqUnicityId t = invUnicityId task
          /\ reqCart t = invCart task
          /\ reqAmountTokens t = Carts.subtotalCents (invCart task))).
  { destruct connected; simpl; [right|left]; eauto 10. }
  destruct (Tracker.getOrderByCartId (invCartId task) (orders st)) as [o|]; [|exact Hproceed].
  destruct (Tracker.status o); try exact Hproceed; left; eauto.
Qed.

(** After the payment request: the reply, and the lock released. *)
Lemma afterRequest_locks task result uuid now1 now2 now3 st :
  checkoutLocks (snd (checkout_afterRequest task result uuid now1 now2 now3 st))
  = checkoutLocks st ∖ {[reqCartId task]}.
Proof. unfold checkout_afterRequest. destruct result; reflexivity. Qed.

Lemma afterRequest_failed task t uuid now1 now2 now3 st :
  checkout_afterRequest task (inl t) uuid now1 now2 now3 st
  = (RequestFailed (messageOf t "Unknown error"), release (reqCartId task) st).
Proof. reflexivity. Qed.

(** *** Concurrent invocations keep the lock set coherent *)

Lemma idle_coherent st : checkoutLocks st = ∅ -> coherent (idle st).
Proof.
  intros Hl. repeat split; simpl.
  - rewrite Hl. set_solver.
  - intros (i & t & H & _). now rewrite lookup_empty in H.
  - intros. now rewrite lookup_empty in H.
  - intros. now rewrite lookup_empty in H.
Qed.

Lemma finish_coherent call r sv cart t :
  coherent sv ->
  suspended sv !! call = Some t ->
  taskCart t = cart ->
  forall st, checkoutLocks st = checkoutLocks (store sv) ∖ {[cart]} ->
  coherent (finish call r st sv).
Proof.
  intros (Hheld & Hexcl & Hbound) Hcall Hcart st Hlocks.
  split; [|split]; simpl.
  - intros c. rewrite Hlocks, elem_of_difference, elem_of_singleton, Hheld. split.
    + intros [(i & t' & Hi & Hc) Hne]. exists i, t'. split; [|exact Hc].
      rewrite lookup_delete_ne; [exact Hi|]. intros <-. congruence.
    + intros (i & t' & Hi & Hc).
      destruct (decide (call = i)) as [->|Hne]; [now rewrite lookup_delete_eq in Hi|].
      rewrite lookup_delete_ne in Hi by exact Hne. split; [eauto|].
      intros ->. apply Hne. eapply Hexcl; eauto. congruence.
  - intros i j t1 t2 Hi Hj.
    apply lookup_delete_Some in Hi as [_ Hi]. apply lookup_delete_Some in Hj as [_ Hj].
    eauto.
  - intros i t' Hi. apply lookup_delete_Some in Hi as [_ Hi]. eauto.
Qed.

Lemma step_coherent e sv : coherent sv -> coherent (step e sv).
Proof.
  intros Hco. pose proof Hco as (Hheld & Hexcl & Hbound).
  destruct e as [cart unicity|call getVariantById connected|call result uuid now1 now2 now3];
    simpl.
  - (* a new invocation *)
    assert (Hfresh : suspended sv !! nextCall sv = None).
    { destruct (suspended sv !! nextCall sv) eqn:E; [|reflexivity].
      apply Hbound in E. lia. }
    assert (Hsame : forall r,
              coherent (finish (nextCall sv) r (store sv)
                          {| store := store sv; suspended := suspended sv;
                             replies := replies sv; nextCall := S (nextCall sv) |})).
    { intros r. split; [|split]; simpl.
      - intros c. rewrite Hheld. split; intros (i & t & Hi & Hc); exists i, t.
        + split; [|exact Hc]. rewrite lookup_delete_ne; [exact Hi|]. congruence.
        + apply lookup_delete_Some in Hi as [_ Hi]. auto.
      - intros i j t1 t2 Hi Hj.
        apply lookup_delete_Some in Hi as [_ Hi]. apply lookup_delete_Some in Hj as [_ Hj].
        eauto.
      - intros i t Hi. apply lookup_delete_Some in Hi as [_ Hi].
        apply Hbound in Hi. lia. }
    destruct (enter_cases cart unicity (store sv))
      as [[_ ->]|[Hfree [(r & -> & _)|(t & -> & Hc & _)]]]; [apply Hsame|apply Hsame|].
    assert (Hnone : forall i t', suspended sv !! i = Some t' -> taskCart t' <> cart).
    { intros i t' Hi Heq. apply Hfree, Hheld. eauto. }
    split; [|split]; simpl.
    + intros c. rewrite elem_of_union, elem_of_singleton, Hheld. split.
      * intros [->|(i & t' & Hi & Hc')].
        -- exists (nextCall sv), (AtInventory t). now rewrite lookup_insert_eq.
        -- exists i, t'. split; [|exact Hc'].
           rewrite lookup_insert_ne; [exact Hi|]. congruence.
      * intros (i & t' & Hi & Hc').
        apply lookup_insert_Some in Hi as [[_ <-]|[_ Hi]]; [left; simpl in *; congruence|eauto].
    + intros i j t1 t2 Hi Hj Heq.
      apply lookup_insert_Some in Hi as [[<- <-]|[Hni Hi]];
        apply lookup_insert_Some in Hj as [[<- <-]|[Hnj Hj]]; auto.
      * exfalso. apply (Hnone j t2 Hj). simpl in Heq. congruence.
      * exfalso. apply (Hnone i t1 Hi). simpl in Heq. congruence.
      * eauto.
    + intros i t' Hi. apply lookup_insert_Some in Hi as [[<- _]|[_ Hi]]; [lia|].
      apply Hbound in Hi. lia.
  - (* the inventory loop of [call] is over *)
    destruct (suspended sv !! call) as [[t|t]|] eqn:Ecall; try exact Hco.
    destruct (afterInventory_cases t getVariantById connected (store sv))
      as [(r & -> & _)|(t' & -> & Hc & _)].
    + eapply finish_coherent; eauto.
    + split; [|split]; simpl.
      * intros c. rewrite Hheld. split; intros (i & t0 & Hi & Hc0).
        -- destruct (decide (call = i)) as [<-|Hne].
           ++ exists call, (AtRequest t'). rewrite lookup_insert_eq. split; [reflexivity|].
              simpl. rewrite Ecall in Hi. injection Hi as <-. simpl in Hc0. congruence.
           ++ exists i, t0. now rewrite lookup_insert_ne.
        -- apply lookup_insert_Some in Hi as [[<- <-]|[_ Hi]]; [|eauto].
           exists call, (AtInventory t). split; [exact Ecall|]. simpl in *. congruence.
      * intros i j t1 t2 Hi Hj Heq.
        apply lookup_insert_Some in Hi as [[<- <-]|[Hni Hi]];
          apply lookup_insert_Some in Hj as [[<- <-]|[Hnj Hj]]; auto.
        -- eapply Hexcl; [exact Ecall|exact Hj|]. simpl in *. congruence.
        -- eapply Hexcl; [exact Hi|exact Ecall|]. simpl in *. congruence.
        -- eauto.
      * intros i t0 Hi. apply lookup_insert_Some in Hi as [[<- _]|[_ Hi]]; eauto.
  - (* the payment request of [call] has returned *)
    destruct (suspended sv !! call) as [[t|t]|] eqn:Ecall; try exact Hco.
    destruct (checkout_afterRequest t result uuid now1 now2 now3 (store sv)) as [r st] eqn:E.
    eapply finish_coherent; eauto.
    pose proof (afterRequest_locks t result uuid now1 now2 now3 (store sv)) as Hl.
    rewrite E in Hl. exact Hl.
Qed.

Lemma serve_coherent events sv : coherent sv -> coherent (serve events sv).
Proof.
  revert sv. induction events as [|e events IH]; intros sv Hco; [exact Hco|].
  simpl. apply IH. now apply step_coherent.
Qed.

(** *** C4: the checkout lock *)

Lemma afterInventory_locks task getVariantById connected st :
  match checkout_afterInventory task getVariantById connected st with
  | (inl _, st') => invCartId task ∉ checkoutLocks st'
  | (inr t, st') => st' = st /\ reqCartId t = invCartId task
  end.
Proof.
  destruct (afterInventory_cases task getVariantById connected st)
    as [(r & -> & _)|(t & -> & Hc & _)]; [|auto].
  unfold release. simpl. apply released.
Qed.

Lemma checkout_releases cart unicity getVariantById connected result uuid now1 now2 now3 st :
  cart ∉ checkoutLocks st ->
  checkoutLocks (snd (checkout_with_unicity cart unicity getVariantById connected result
                        uuid now1 now2 now3 st))
  = checkoutLocks st.
Proof.
  intros Hfree. unfold checkout_with_unicity.
  destruct (enter_cases cart unicity st)
    as [[Hin _]|[_ [(r & -> & _)|(t & -> & Hc & _)]]]; [contradiction|reflexivity|].
  destruct (afterInventory_cases t getVariantById connected (acquire cart st))
    as [(r & -> & _)|(t' & -> & Hc' & _)].
  - rewrite Hc. now rewrite release_acquire.
  - rewrite afterRequest_locks. rewrite Hc', Hc. simpl. now apply acquired_released.
Qed.

(** C4.  [checkout_with_unicity] called for a cart that is in the lock set
    replies "in progress" at once and leaves the whole store as it is.
    Called for a cart that is not, it either replies from its entry piece
    with the cart out of the set again, or suspends holding the lock.  The
    later pieces keep the lock while they suspend and release it with any
    reply: an error reply, the reply made from a thrown exception, or the
    success reply.  So an invocation run to its end leaves the lock set as
    it found it; and in every interleaving of invocations the lock set is
    exactly the set of the carts of the suspended invocations, no two of
    which are on one cart, and an invocation for a cart that has a
    suspended invocation is refused. *)
Theorem checkout_lock_is_exclusive :
  (forall cart unicity st,
     cart ∈ checkoutLocks st ->
     checkout_entry cart unicity st = (inl (InProgress cart), st))
  /\ (forall cart unicity st,
        cart ∉ checkoutLocks st ->
        match checkout_entry cart unicity st with
        | (inl r, st') => (cart ∉ checkoutLocks st') /\ r <> InProgress cart
        | (inr t, st') =>
            checkoutLocks st' = {[cart]} ∪ checkoutLocks st /\ invCartId t = cart
        end)
  /\ (forall task getVariantById connected st,
        match checkout_afterInventory task getVariantById connected st with
        | (inl _, st') => invCartId task ∉ checkoutLocks st'
        | (inr t, st') => st' = st /\ reqCartId t = invCartId task
        end)
  /\ (forall task result uuid now1 now2 now3 st,
        reqCartId task
        ∉ checkoutLocks (snd (checkout_afterRequest task result uuid now1 now2 now3 st)))
  /\ (forall cart unicity getVariantById connected result uuid now1 now2 now3 st,
        cart ∉ checkoutLocks st ->
        cart ∉ checkoutLocks
                 (snd (checkout_with_unicity cart unicity getVariantById connected result
                         uuid now1 now2 now3 st)))
  /\ (forall events st,
        checkoutLocks st = ∅ ->
        let sv := serve events (idle st) in
        coherent sv
        /\ forall cart unicity call t,
             suspended sv !! call = Some t ->
             taskCart t = cart ->
             let sv' := step (Invoke cart unicity) sv in
             replies sv' !! nextCall sv = Some (InProgress cart)
             /\ store sv' = store sv
             /\ suspended sv' = suspended sv).
Proof.
  split; [|split; [|split; [|split; [|split]]]].
  - intros cart unicity st Hin.
    destruct (enter_cases cart unicity st) as [[_ H]|[Hfree _]]; [exact H|contradiction].
  - intros cart unicity st Hfree.
    destruct (enter_cases cart unicity st)
      as [[Hin _]|[_ [(r & -> & Hr)|(t & -> & Hc & _)]]]; [contradiction| |].
    + split; [exact Hfree|]. destruct Hr as [-> | ->]; discriminate.
    + split; [reflexivity|exact Hc].
  - apply afterInventory_locks.
  - intros. rewrite afterRequest_locks. apply released.
  - intros. now rewrite checkout_releases.
  - intros events st Hempty sv.
    assert (Hco : coherent sv) by (apply serve_coherent, idle_coherent, Hempty).
    split; [exact Hco|].
    intros cart unicity call t Hcall Hcart sv'. subst sv'.
    destruct Hco as (Hheld & _ & Hbound).
    assert (Hlocked : cart ∈ checkoutLocks (store sv)) by (apply Hheld; eauto).
    simpl. destruct (enter_cases cart unicity (store sv)) as [[_ ->]|[Hfree _]];
      [|contradiction].
    simpl. split; [apply lookup_insert_eq|]. split; [reflexivity|].
    apply delete_id. destruct (suspended sv !! nextCall sv) eqn:E; [|reflexivity].
    apply Hbound in E. lia.
Qed.

Lemma checkout_lock_is_exclusive_witness :
  let racing := serve [Invoke "cart-1" "@alice"; Invoke "cart-1" "@alice"] (idle sample_store) in
  let done :=
    serve [InventoryDone 0 in_stock true;
           RequestDone 0 (inr sample_request) "order-1" 30 31 32] racing in
  replies racing !! 1%nat = Some (InProgress "cart-1")
  /\ checkoutLocks (store racing) = {[ "cart-1" ]}
  /\ ("cart-1" ∉ checkoutLocks (store done))
  /\ coherent done.
Proof.
  cbv zeta.
  destruct checkout_lock_is_exclusive as (_ & _ & _ & Hreq & _ & Hserve).
  destruct (Hserve [Invoke "cart-1" "@alice"] sample_store eq_refl) as [_ Hrefused].
  destruct (Hrefused "cart-1" "@alice" 0%nat
              (AtInventory {| invCartId := "cart-1"; invUnicityId := "@alice";
                              invCart := sample_cart |}) eq_refl eq_refl)
    as (Hreply & _ & _).
  split; [exact Hreply|]. split; [reflexivity|]. split.
  - apply (Hreq {| reqCartId := "cart-1"; reqUnicityId := "@alice";
                   reqCart := sample_cart; reqAmountTokens := 4999 |}
             (inr sample_request) "order-1" 30 31 32).
  - apply (Hserve [Invoke "cart-1" "@alice"; Invoke "cart-1" "@alice";
                   InventoryDone 0 in_stock true;
                   RequestDone 0 (inr sample_request) "order-1" 30 31 32]
             sample_store eq_refl).
Defined.

(** *** C5: the order is created after the payment request *)

Lemma sendPaymentRequest_fails cart unicity tokens lookup publish svc :
  (forall k, truthy_opt (lookup k) = false) \/ (exists t, publish = inl t) ->
  exists t, Nostr.sendPaymentRequest cart unicity tokens lookup publish svc = inl t.
Proof.
  intros Hfail. unfold Nostr.sendPaymentRequest, Nostr.resolvePubkeyWithRetry.
  destruct (Nostr.client svc); [|eauto].
  destruct (Nostr.config svc); [|eauto].
  destruct (Nostr.identityService svc); [|eauto].
  destruct Hfail as [Hnone|[t ->]].
  - unfold Nostr.DEFAULT_MAX_RETRIES.
    rewrite (ResolverFacts.retryLoop_exhausted lookup _ 3 3 1); auto. eauto.
  - destruct (Nostr.retryLoop _ _ _ _ _) as [io [pubkey|]]; [|eauto].
    destruct (truthy pubkey); eauto.
Qed.

Lemma afterRequest_sent task request uuid now1 now2 now3 st :
  let '(r, st') := checkout_afterRequest task (inr request) uuid now1 now2 now3 st in
  r = RequestSent (reqCartId task) request
  /\ orders st' = <[reqCartId task := orderOf task request uuid now1 now2]> (orders st)
  /\ carts st' = snd (Carts.lockCartForCheckout (reqCartId task) now3 (carts st)).
Proof.
  simpl. split; [reflexivity|]. split; [|reflexivity].
  unfold Tracker.markAwaitingPayment, Tracker.trackOrder. simpl.
  rewrite lookup_insert_eq. simpl. apply insert_insert_eq.
Qed.

Lemma checkout_error_leaves_stores cart unicity getVariantById connected result
    uuid now1 now2 now3 st :
  let '(r, st') := checkout_with_unicity cart unicity getVariantById connected result
                     uuid now1 now2 now3 st in
  (isError r = true -> orders st' = orders st /\ carts st' = carts st)
  /\ (forall t, result = inl t -> isError r = true).
Proof.
  unfold checkout_with_unicity.
  destruct (enter_cases cart unicity st)
    as [[_ ->]|[_ [(r & -> & Hr)|(t & -> & Hc & _)]]];
    [split; [auto|reflexivity]| |].
  - split; [auto|]. intros. destruct Hr as [-> | ->]; reflexivity.
  - destruct (afterInventory_cases t getVariantById connected (acquire cart st))
      as [(r & -> & Hr)|(t' & -> & _)].
    + split; [auto|]. intros. exact Hr.
    + destruct result as [e|request]; simpl; [split; auto|].
      split; [discriminate|]. intros e He. discriminate He.
Qed.

(** C5.  [checkout_with_unicity] touches the order store and the cart store
    in its last piece only, the one that runs once the payment request has
    returned.  When the request failed, because the alias was not resolved
    or the request could not be issued, the reply is an error and both
    stores are as they were at the call, so the cart has no order and is
    not locked unless it had one or was locked before.  When it succeeded,
    the order is created for the cart with the cart's amount and currency,
    in [awaiting_payment] with the event id of the request and the alias,
    and the cart gets its lock flag. *)
Theorem order_is_created_after_the_request :
  (forall cart unicity st,
     orders (snd (checkout_entry cart unicity st)) = orders st
     /\ carts (snd (checkout_entry cart unicity st)) = carts st)
  /\ (forall task getVariantById connected st,
        orders (snd (checkout_afterInventory task getVariantById connected st)) = orders st
        /\ carts (snd (checkout_afterInventory task getVariantById connected st)) = carts st)
  /\ (forall task t uuid now1 now2 now3 st,
        let '(r, st') := checkout_afterRequest task (inl t) uuid now1 now2 now3 st in
        isError r = true /\ orders st' = orders st /\ carts st' = carts st)
  /\ (forall task request uuid now1 now2 now3 st,
        let '(r, st') := checkout_afterRequest task (inr request) uuid now1 now2 now3 st in
        r = RequestSent (reqCartId task) request
        /\ isError r = false
        /\ orders st' !! reqCartId task = Some (orderOf task request uuid now1 now2)
        /\ (forall c, carts st !! reqCartId task = Some c ->
              carts st' !! reqCartId task = Some (Carts.setLocked true now3 c)
              /\ Carts.isCartLocked (reqCartId task) (carts st') = true))
  /\ (forall cart unicity tokens lookup publish svc getVariantById connected
             uuid now1 now2 now3 st,
        (forall k, truthy_opt (lookup k) = false) \/ (exists t, publish = inl t) ->
        let result := Nostr.sendPaymentRequest cart unicity tokens lookup publish svc in
        let '(r, st') := checkout_with_unicity cart unicity getVariantById connected result
                           uuid now1 now2 now3 st in
        isError r = true
        /\ orders st' = orders st
        /\ carts st' = carts st
        /\ (orders st !! cart = None -> orders st' !! cart = None)
        /\ (Carts.isCartLocked cart (carts st) = false ->
            Carts.isCartLocked cart (carts st') = false)).
Proof.
  split; [|split; [|split; [|split]]].
  - intros cart unicity st.
    destruct (enter_cases cart unicity st)
      as [[_ ->]|[_ [(r & -> & _)|(t & -> & _)]]]; auto.
  - intros task getVariantById connected st.
    destruct (afterInventory_cases task getVariantById connected st)
      as [(r & -> & _)|(t & -> & _)]; auto.
  - intros. simpl. auto.
  - intros task request uuid now1 now2 now3 st.
    pose proof (afterRequest_sent task request uuid now1 now2 now3 st) as H.
    destruct (checkout_afterRequest task (inr request) uuid now1 now2 now3 st) as [r st'].
    destruct H as (-> & Ho & Hc). split; [reflexivity|]. split; [reflexivity|]. split.
    + rewrite Ho. apply lookup_insert_eq.
    + intros c Hcart. rewrite Hc. unfold Carts.isCartLocked, Carts.lockCartForCheckout.
      rewrite Hcart. simpl. rewrite lookup_insert_eq. auto.
  - intros cart unicity tokens lookup publish svc getVariantById connected
      uuid now1 now2 now3 st Hfail result.
    destruct (sendPaymentRequest_fails cart unicity tokens lookup publish svc Hfail)
      as [t Ht]. subst result.
    pose proof (checkout_error_leaves_stores cart unicity getVariantById connected
                  (Nostr.sendPaymentRequest cart unicity tokens lookup publish svc)
                  uuid now1 now2 now3 st) as H.
    destruct (checkout_with_unicity _ _ _ _ _ _ _ _ _ _) as [r st'].
    destruct H as [Hstores Herr]. specialize (Herr t Ht).
    destruct (Hstores Herr) as [Ho Hc].
    rewrite Ho, Hc. auto.
Qed.

Lemma order_is_created_after_the_request_witness :
  let failed :=
    checkout_with_unicity "cart-1" "@nobody" in_stock true
      (Nostr.sendPaymentRequest "cart-1" "@nobody" 4999 NostrSpec.never_found
         (inr "evt-1") NostrSpec.connected_service)
      "order-1" 30 31 32 sample_store in
  let sent :=
    checkout_afterRequest
      {| reqCartId := "cart-1"; reqUnicityId := "@alice"; reqCart := sample_cart;
         reqAmountTokens := 4999 |}
      (inr sample_request) "order-1" 30 31 32 (acquire "cart-1" sample_store) in
  (isError (fst failed) = true
   /\ orders (snd failed) !! "cart-1" = None
   /\ Carts.isCartLocked "cart-1" (carts (snd failed)) = false)
  /\ (Tracker.getOrderStatus "cart-1" (orders (snd sent)) = Some Tracker.awaiting_payment
      /\ Carts.isCartLocked "cart-1" (carts (snd sent)) = true).
Proof.
  cbv zeta.
  destruct order_is_created_after_the_request as (_ & _ & _ & Hsent & Hfailed).
  split.
  - pose proof (Hfailed "cart-1" "@nobody" 4999 NostrSpec.never_found (inr "evt-1")
                  NostrSpec.connected_service in_stock true "order-1" 30 31 32 sample_store
                  (or_introl (fun _ => eq_refl))) as H.
    cbv zeta in H.
    destruct (checkout_with_unicity _ _ _ _ _ _ _ _ _ _) as [r st'].
    destruct H as (Herr & _ & _ & Horder & Hlock).
    split; [exact Herr|]. split; [apply Horder|apply Hlock]; reflexivity.
  - pose proof (Hsent {| reqCartId := "cart-1"; reqUnicityId := "@alice";
                         reqCart := sample_cart; reqAmountTokens := 4999 |}
                  sample_request "order-1" 30 31 32 (acquire "cart-1" sample_store)) as H.
    destruct (checkout_afterRequest _ _ _ _ _ _ _) as [r st'].
    destruct H as (_ & _ & Horder & Hcart).
    destruct (Hcart sample_cart eq_refl) as [_ Hlocked].
    split; [|exact Hlocked].
    unfold Tracker.getOrderStatus. simpl in *. now rewrite Horder.
Defined.

End ToolsFacts.

(** ** The waiter of [waitForPayment] *)

Module WaiterFacts.
Import Nostr NostrSpec.
Import NostrFacts TransferFacts.

(** The pieces of [initialize] and the resubscription touch neither the
    index nor the promises, time-outs and handlers. *)
Ltac service_only :=
  unfold initialize, initialize_connected, subscribeToTokenTransfers;
  repeat match goal with
         | |- context [if isInitialized ?s then _ else _] => destruct (isInitialized s)
         | |- context [match client ?s with _ => _ end] => destruct (client s)
         | |- context [match identityService ?s with _ => _ end] =>
             destruct (identityService s)
         end;
  simpl.

(** *** What a step can do to a promise *)

Lemma rejectAll_other l s p :
  (forall x, In x l -> waiter x <> p) ->
  promises (rejectAll l s) !! p = promises s !! p.
Proof.
  revert s. induction l as [|x l IH]; intros s Hl; [reflexivity|].
  simpl. rewrite IH by (intros; apply Hl; now right).
  simpl. apply settle_other. apply Hl. now left.
Qed.

Lemma transferFailed_stable ev pending error s p o :
  promises s !! p = Some o ->
  promises (transferFailed ev pending error s) !! p = Some o.
Proof.
  intros H. unfold transferFailed. destruct (truthy_opt (replyToEventId ev)); [|exact H].
  simpl. now apply settle_stable.
Qed.

Lemma settleTransfer_stable ev pending now s p o :
  promises s !! p = Some o ->
  promises (settleTransfer ev pending now s) !! p = Some o.
Proof.
  intros H. unfold settleTransfer, confirmTransfer.
  destruct (amount ev) as [a|]; [destruct (negb (a =? amountTokens pending))|];
    simpl; now apply settle_stable.
Qed.

(** A settled promise keeps its settlement, whatever happens next. *)
Lemma exec_settled_stable a s p o :
  delivered s p = Some o -> delivered (exec a s) p = Some o.
Proof.
  unfold delivered. intros H.
  destruct a as [cfg ids|sub|sub|args now|q|ev|h now|]; cbn [exec];
    [service_only; exact H ..| | | | |].
  - unfold waitForPayment. destruct (config s); [|exact H].
    destruct (confirmedPayments s !! argCartId args); exact H.
  - unfold timeoutFires. destruct (timers s !! q); [|exact H].
    destruct (JsMap.has _ _); [|exact H]. simpl. now apply settle_stable.
  - unfold handleIncomingTransfer. destruct (negb (isTokenTransfer ev)); [exact H|].
    destruct (matchPending ev s); [|exact H].
    destruct (identityService s); [exact H|]. now apply transferFailed_stable.
  - unfold transferProcessed. destruct (transfers s !! h) as [[ev pending]|]; [|exact H].
    destruct (tokenData ev); [now apply transferFailed_stable|].
    destruct (negb (truthy s0)); [now apply transferFailed_stable|].
    destruct (processed ev); [now apply transferFailed_stable|].
    now apply settleTransfer_stable.
  - unfold shutdown. destruct (client s); [|exact H]. simpl.
    apply rejectAll_stable.
    destruct (transferSubscriptionId s) as [sub|]; [|exact H].
    destruct (truthy sub); exact H.
Qed.

Lemma run_settled_stable trace s p o :
  delivered s p = Some o -> delivered (run trace s) p = Some o.
Proof.
  revert s. induction trace as [|a trace IH]; intros s H; [exact H|].
  simpl. apply IH. now apply exec_settled_stable.
Qed.

(** *** A waiter that nothing can settle *)

Lemma exec_orphaned p a s : orphaned p s -> orphaned p (exec a s).
Proof.
  intros (Hlt & Hp & Ht & Hpend & Htr). unfold orphaned.
  destruct a as [cfg ids|sub|sub|args now|q|ev|h now|]; cbn [exec];
    [service_only; repeat split; assumption ..| | | | |].
  - unfold waitForPayment. destruct (config s); [|repeat split; assumption].
    destruct (confirmedPayments s !! argCartId args); [repeat split; assumption|].
    simpl. repeat split; auto.
    + rewrite lookup_insert_ne by lia. exact Ht.
    + intros k x Hin. apply JsMapFacts.In_set in Hin as [[= -> ->]|Hin]; [simpl; lia|eauto].
  - unfold timeoutFires. destruct (timers s !! q) as [t|] eqn:Eq;
      [|repeat split; assumption].
    assert (Hne : q <> p) by congruence.
    destruct (JsMap.has _ _); simpl; repeat split; auto.
    + now rewrite settle_other.
    + now rewrite lookup_delete_ne.
    + intros k x Hin. apply JsMapFacts.In_delete in Hin as [Hin _]. eauto.
    + now rewrite lookup_delete_ne.
  - unfold handleIncomingTransfer.
    destruct (negb (isTokenTransfer ev)); [repeat split; assumption|].
    destruct (matchPending ev s) as [pending|] eqn:Em; [|repeat split; assumption].
    assert (Hw : waiter pending <> p).
    { apply matchPending_sound_In in Em as [k Hin]. eauto. }
    destruct (identityService s).
    + simpl. repeat split; auto.
      intros h' ev' x Hx. apply lookup_insert_Some in Hx as [[_ [= <- <-]]|[_ Hx]]; eauto.
    + unfold transferFailed. destruct (truthy_opt (replyToEventId ev));
        [|repeat split; assumption].
      simpl. repeat split; auto.
      * now rewrite settle_other.
      * intros k x Hin. apply JsMapFacts.In_delete in Hin as [Hin _]. eauto.
  - unfold transferProcessed.
    destruct (transfers s !! h) as [[ev pending]|] eqn:Eh; [|repeat split; assumption].
    assert (Hw : waiter pending <> p) by eauto.
    assert (Hfail : forall error,
              orphaned p (transferFailed ev pending error
                            (withTransfers (delete h (transfers s)) s))).
    { intros error. unfold orphaned, transferFailed. destruct (truthy_opt (replyToEventId ev)).
      - simpl. repeat split; auto.
        + now rewrite settle_other.
        + intros k x Hin. apply JsMapFacts.In_delete in Hin as [Hin _]. eauto.
        + intros h' ev' x Hx. apply lookup_delete_Some in Hx as [_ Hx]. eauto.
      - simpl. repeat split; auto.
        intros h' ev' x Hx. apply lookup_delete_Some in Hx as [_ Hx]. eauto. }
    destruct (tokenData ev) as [error|json]; [apply Hfail|].
    destruct (negb (truthy json)); [apply Hfail|].
    destruct (processed ev) as [error|ok]; [apply Hfail|].
    unfold settleTransfer, confirmTransfer.
    destruct (amount ev) as [a|]; [destruct (negb (a =? amountTokens pending))|];
      simpl; repeat split; auto;
      try (now rewrite settle_other);
      try (apply lookup_delete_None; auto);
      try (intros k x Hin; apply JsMapFacts.In_delete in Hin as [Hin _]; eauto);
      try (intros h' ev' x Hx; apply lookup_delete_Some in Hx as [_ Hx]; eauto).
  - unfold shutdown. destruct (client s) as [c|]; [|repeat split; assumption].
    set (s1 := match transferSubscriptionId s with
               | Some sub => _
               | None => s
               end).
    assert (Hs1 : pendingPayments s1 = pendingPayments s /\ promises s1 = promises s
                  /\ timers s1 = timers s /\ transfers s1 = transfers s
                  /\ nextId s1 = nextId s).
    { subst s1. destruct (transferSubscriptionId s) as [sub|]; [|auto].
      destruct (truthy sub); auto. }
    destruct Hs1 as (E1 & E2 & E3 & E4 & E5).
    destruct (rejectAll_frame (JsMap.values (pendingPayments s1)) s1)
      as (_ & _ & _ & _ & _ & _ & _ & F8 & F9 & F10 & _).
    simpl. rewrite F8, F9, F10, E3, E4, E5. repeat split; auto.
    rewrite rejectAll_other; [now rewrite E2|].
    intros x Hx. rewrite E1 in Hx. apply JsMapFacts.In_values in Hx as [k Hin]. eauto.
Qed.

(** An orphaned waiter is never given an outcome. *)
Lemma orphaned_never_settles trace p s :
  orphaned p s -> delivered (run trace s) p = None.
Proof.
  revert s. induction trace as [|a trace IH]; intros s H.
  - destruct H as (_ & H & _). exact H.
  - simpl. apply IH. now apply exec_orphaned.
Qed.

(** *** The index stays keyed by event id *)

Lemma shutdown_pending s :
  pendingPayments (shutdown s) = pendingPayments s \/ pendingPayments (shutdown s) = [].
Proof. unfold shutdown. destruct (client s); [right|left]; reflexivity. Qed.

Lemma transferFailed_pending ev pending error s :
  pendingPayments (transferFailed ev pending error s) = pendingPayments s
  \/ pendingPayments (transferFailed ev pending error s)
     = JsMap.delete (eventId pending) (pendingPayments s).
Proof.
  unfold transferFailed. destruct (truthy_opt (replyToEventId ev)); [right|left]; reflexivity.
Qed.

Lemma keyed_delete e s m :
  keyed s -> m = pendingPayments s \/ m = JsMap.delete e (pendingPayments s) ->
  forall k x, In (k, x) m -> eventId x = k.
Proof.
  intros Hk [-> | ->] k x Hin; [eauto|].
  apply JsMapFacts.In_delete in Hin as [Hin _]. eauto.
Qed.

Lemma exec_keyed a s : keyed s -> keyed (exec a s).
Proof.
  intros Hk. unfold keyed.
  destruct a as [cfg ids|sub|sub|args now|q|ev|h now|]; cbn [exec];
    [service_only; exact Hk ..| | | | |].
  - unfold waitForPayment. destruct (config s); [|exact Hk].
    destruct (confirmedPayments s !! argCartId args); [exact Hk|]. simpl.
    intros k x Hin. apply JsMapFacts.In_set in Hin as [[= -> ->]|Hin]; [reflexivity|eauto].
  - unfold timeoutFires. destruct (timers s !! q) as [t|]; [|exact Hk].
    destruct (JsMap.has _ _); simpl; [|exact Hk].
    eapply keyed_delete; eauto.
  - unfold handleIncomingTransfer. destruct (negb (isTokenTransfer ev)); [exact Hk|].
    destruct (matchPending ev s) as [pending|]; [|exact Hk].
    destruct (identityService s); [exact Hk|].
    eapply keyed_delete; [exact Hk|]. apply transferFailed_pending.
  - unfold transferProcessed. destruct (transfers s !! h) as [[ev pending]|]; [|exact Hk].
    set (s1 := withTransfers _ s).
    assert (Hfail : forall error k x,
              In (k, x) (pendingPayments (transferFailed ev pending error s1)) ->
              eventId x = k).
    { intros error. eapply keyed_delete; [exact Hk|].
      apply (transferFailed_pending ev pending error s1). }
    destruct (tokenData ev) as [error|json]; [apply Hfail|].
    destruct (negb (truthy json)); [apply Hfail|].
    destruct (processed ev) as [error|ok]; [apply Hfail|].
    unfold settleTransfer, confirmTransfer.
    destruct (amount ev) as [a|]; [destruct (negb (a =? amountTokens pending))|];
      simpl; eapply keyed_delete; eauto.
  - destruct (shutdown_pending s) as [-> | ->]; [exact Hk|]. intros k x [].
Qed.

Lemma run_keyed trace s : keyed s -> keyed (run trace s).
Proof.
  revert s. induction trace as [|a trace IH]; intros s H; [exact H|].
  simpl. apply IH. now apply exec_keyed.
Qed.

Lemma fresh_keyed : keyed fresh.
Proof. intros k x []. Qed.

(** *** The next free number only grows, and a dead time-out stays dead *)

Lemma rejectAll_nextId l s : nextId (rejectAll l s) = nextId s.
Proof. now destruct (rejectAll_frame l s) as (_&_&_&_&_&_&_&_&_&H&_). Qed.

Lemma rejectAll_timers l s : timers (rejectAll l s) = timers s.
Proof. now destruct (rejectAll_frame l s) as (_&_&_&_&_&_&_&H&_). Qed.

Lemma rejectAll_transfers l s : transfers (rejectAll l s) = transfers s.
Proof. now destruct (rejectAll_frame l s) as (_&_&_&_&_&_&_&_&H&_). Qed.

Lemma exec_timer_gone p a s :
  (p < nextId s)%nat -> timers s !! p = None ->
  (p < nextId (exec a s))%nat /\ timers (exec a s) !! p = None.
Proof.
  intros Hlt Ht.
  destruct a as [cfg ids|sub|sub|args now|q|ev|h now|]; cbn [exec];
    [service_only; auto ..| | | | |].
  - unfold waitForPayment. destruct (config s); [|auto].
    destruct (confirmedPayments s !! argCartId args); [auto|]. simpl.
    split; [lia|]. rewrite lookup_insert_ne by lia. exact Ht.
  - unfold timeoutFires. destruct (timers s !! q) as [t|] eqn:Eq; [|auto].
    destruct (JsMap.has _ _); simpl; (split; [exact Hlt|]);
      apply lookup_delete_None; auto.
  - unfold handleIncomingTransfer. destruct (negb (isTokenTransfer ev)); [auto|].
    destruct (matchPending ev s) as [pending|]; [|auto].
    destruct (identityService s); [simpl; split; [lia|exact Ht]|].
    unfold transferFailed. destruct (truthy_opt _); auto.
  - unfold transferProcessed. destruct (transfers s !! h) as [[ev pending]|]; [|auto].
    unfold transferFailed, settleTransfer, confirmTransfer.
    destruct (tokenData ev) as [error|json]; [destruct (truthy_opt _); auto|].
    destruct (negb (truthy json)); [destruct (truthy_opt _); auto|].
    destruct (processed ev) as [error|ok]; [destruct (truthy_opt _); auto|].
    destruct (amount ev) as [a|]; [destruct (negb (a =? amountTokens pending))|];
      simpl; (split; [exact Hlt|]); auto; apply lookup_delete_None; auto.
  - unfold shutdown. destruct (client s); [|auto]. simpl.
    rewrite rejectAll_nextId, rejectAll_timers.
    destruct (transferSubscriptionId s) as [sub|]; [|auto]. destruct (truthy sub); auto.
Qed.

Lemma run_timer_gone p trace s :
  (p < nextId s)%nat -> timers s !! p = None -> timers (run trace s) !! p = None.
Proof.
  revert s. induction trace as [|a trace IH]; intros s Hlt Ht; [exact Ht|].
  simpl. destruct (exec_timer_gone p a s Hlt Ht). now apply IH.
Qed.

Lemma timeoutFires_disarms p s : timers (timeoutFires p s) !! p = None.
Proof.
  unfold timeoutFires. destruct (timers s !! p) as [t|] eqn:E; [|exact E].
  destruct (JsMap.has _ _); simpl; apply lookup_delete_eq.
Qed.

(** The time-out callback settles nothing when the event id is no longer
    in the index. *)
Lemma timeout_checks_the_index p t s :
  timers s !! p = Some t ->
  JsMap.has (timeoutEventId t) (pendingPayments s) = false ->
  promises (timeoutFires p s) = promises s
  /\ effects (timeoutFires p s) = effects s
  /\ pendingPayments (timeoutFires p s) = pendingPayments s.
Proof.
  intros Ht Hhas. unfold timeoutFires. rewrite Ht. simpl. rewrite Hhas. auto.
Qed.

Lemma exec_nextId_mono a s : (nextId s <= nextId (exec a s))%nat.
Proof.
  destruct a as [cfg ids|sub|sub|args now|q|ev|h now|]; cbn [exec];
    [service_only; lia ..| | | | |].
  - unfold waitForPayment. destruct (config s); [|simpl; lia].
    destruct (confirmedPayments s !! argCartId args); simpl; lia.
  - unfold timeoutFires. destruct (timers s !! q) as [t|]; [|simpl; lia].
    destruct (JsMap.has _ _); simpl; lia.
  - unfold handleIncomingTransfer. destruct (negb (isTokenTransfer ev)); [simpl; lia|].
    destruct (matchPending ev s) as [pending|]; [|simpl; lia].
    destruct (identityService s); [simpl; lia|].
    unfold transferFailed. destruct (truthy_opt _); simpl; lia.
  - unfold transferProcessed. destruct (transfers s !! h) as [[ev pending]|]; [|simpl; lia].
    unfold transferFailed, settleTransfer, confirmTransfer.
    destruct (tokenData ev) as [error|json]; [destruct (truthy_opt _); simpl; lia|].
    destruct (negb (truthy json)); [destruct (truthy_opt _); simpl; lia|].
    destruct (processed ev) as [error|ok]; [destruct (truthy_opt _); simpl; lia|].
    destruct (amount ev) as [a|]; [destruct (negb (a =? amountTokens pending))|];
      simpl; lia.
  - unfold shutdown. destruct (client s); [|simpl; lia]. simpl.
    rewrite rejectAll_nextId.
    destruct (transferSubscriptionId s) as [sub|]; [|simpl; lia]. destruct (truthy sub); simpl; lia.
Qed.

(** *** The waiter of an event id that nobody else registers *)

Lemma settled_not_pending p o (m : gmap nat Settlement) : settle p o m !! p = None -> False.
Proof. intros H. destruct (settle_settles p o m) as [x Hx]. congruence. Qed.

(** Removing the pending payment of another event id and settling its
    waiter keeps [p] indexed. *)
Lemma indexed_other_removed e p s e0 m :
  indexed e p s -> e0 <> e ->
  indexed e p (withPromises m (withPending (JsMap.delete e0 (pendingPayments s)) s)).
Proof.
  intros ((x & Hget & Hwx) & Htim & Hall & Htimers & Htrans) Hne.
  split; [|split; [|split; [|split]]]; simpl; auto.
  - exists x. split; [|exact Hwx]. now rewrite JsMapFacts.get_delete_ne.
  - intros k y Hin. apply JsMapFacts.In_delete in Hin as [Hin _]. eauto.
Qed.

Lemma exec_tracked e p a s :
  keyed s -> registers e a = false -> tracked e p s -> tracked e p (exec a s).
Proof.
  intros Hk Hreg [Hlt Hinv]. split.
  { pose proof (exec_nextId_mono a s). lia. }
  intros Hun'.
  assert (Hun : promises s !! p = None).
  { destruct (promises s !! p) as [o|] eqn:E; [|reflexivity].
    apply (exec_settled_stable a) in E. unfold delivered in E. congruence. }
  pose proof (Hinv Hun) as Hidx.
  pose proof Hidx as ((x & Hget & Hwx) & (t & Htim & Hte) & Hall & Htimers & Htrans).
  revert Hun'.
  destruct a as [cfg ids|sub|sub|args now|q|ev|h now|]; cbn [exec];
    [service_only; intros _; exact Hidx ..| | | | |].
  - (* waitForPayment, for another event id *)
    simpl in Hreg. apply String.eqb_neq in Hreg.
    unfold waitForPayment. destruct (config s); [|intros _; exact Hidx].
    destruct (confirmedPayments s !! argCartId args); [intros _; exact Hidx|].
    intros _. split; [|split; [|split; [|split]]]; simpl.
    + exists x. split; [|exact Hwx]. now rewrite JsMapFacts.get_set_ne.
    + exists t. split; [|exact Hte]. rewrite lookup_insert_ne by lia. exact Htim.
    + intros k y Hin Hy. apply JsMapFacts.In_set in Hin as [[= -> ->]|Hin];
        [simpl in Hy; congruence|eauto].
    + intros q t' Hq Ht'. apply lookup_insert_Some in Hq as [[_ <-]|[_ Hq]];
        [simpl in Ht'; congruence|eauto].
    + exact Htrans.
  - (* a time-out fires *)
    unfold timeoutFires. destruct (timers s !! q) as [t'|] eqn:Eq; [|intros _; exact Hidx].
    destruct (decide (q = p)) as [->|Hne].
    + assert (t' = t) as -> by congruence. rewrite Hte.
      unfold JsMap.has. simpl. rewrite Hget. simpl.
      intros Hun'. exfalso. eapply settled_not_pending; eauto.
    + assert (He : timeoutEventId t' <> e) by (intros He; apply Hne; eauto).
      destruct (JsMap.has _ _); simpl; intros _.
      * split; [|split; [|split; [|split]]]; simpl.
        -- exists x. split; [|exact Hwx]. now rewrite JsMapFacts.get_delete_ne.
        -- exists t. split; [|exact Hte]. now rewrite lookup_delete_ne.
        -- intros k y Hin. apply JsMapFacts.In_delete in Hin as [Hin _]. eauto.
        -- intros q' t'' Hq. apply lookup_delete_Some in Hq as [_ Hq]. eauto.
        -- exact Htrans.
      * split; [|split; [|split; [|split]]]; simpl; eauto.
        -- exists t. split; [|exact Hte]. now rewrite lookup_delete_ne.
        -- intros q' t'' Hq. apply lookup_delete_Some in Hq as [_ Hq]. eauto.
  - (* a transfer arrives *)
    unfold handleIncomingTransfer.
    destruct (negb (isTokenTransfer ev)); [intros _; exact Hidx|].
    destruct (matchPending ev s) as [y|] eqn:Em; [|intros _; exact Hidx].
    apply matchPending_sound_In in Em as [k Hin].
    destruct (identityService s).
    + intros _. split; [|split; [|split; [|split]]]; simpl; eauto.
      intros h' ev' z Hz Hze.
      apply lookup_insert_Some in Hz as [[_ [= <- <-]]|[_ Hz]]; eauto.
    + unfold transferFailed. destruct (truthy_opt _); [|intros _; exact Hidx].
      simpl. destruct (decide (eventId y = e)) as [Hy|Hy].
      * rewrite (Hall k y Hin Hy). intros Hun'. exfalso.
        eapply settled_not_pending; eauto.
      * intros _. split; [|split; [|split; [|split]]]; simpl; eauto.
        -- exists x. split; [|exact Hwx]. now rewrite JsMapFacts.get_delete_ne.
        -- intros k' z Hz. apply JsMapFacts.In_delete in Hz as [Hz _]. eauto.
  - (* a suspended handler resumes *)
    unfold transferProcessed.
    destruct (transfers s !! h) as [[ev y]|] eqn:Eh; [|intros _; exact Hidx].
    set (s1 := withTransfers (delete h (transfers s)) s).
    assert (Hidx1 : indexed e p s1).
    { split; [|split; [|split; [|split]]]; simpl; eauto.
      intros h' ev' z Hz. apply lookup_delete_Some in Hz as [_ Hz]. eauto. }
    assert (Hfail : forall error,
              promises (transferFailed ev y error s1) !! p = None ->
              indexed e p (transferFailed ev y error s1)).
    { intros error. unfold transferFailed.
      destruct (truthy_opt _); [|intros _; exact Hidx1].
      simpl. destruct (decide (eventId y = e)) as [Hy|Hy].
      - rewrite (Htrans h ev y Eh Hy). intros Hun'. exfalso.
        eapply settled_not_pending; eauto.
      - intros _. destruct Hidx1 as ((x1 & Hget1 & Hwx1) & Htim1 & Hall1 & Htimers1 & Htrans1).
        split; [|split; [|split; [|split]]]; simpl; eauto.
        + exists x1. split; [|exact Hwx1]. now rewrite JsMapFacts.get_delete_ne.
        + intros k' z Hz. apply JsMapFacts.In_delete in Hz as [Hz _]. eauto. }
    destruct (tokenData ev) as [error|json]; [apply Hfail|].
    destruct (negb (truthy json)); [apply Hfail|].
    destruct (processed ev) as [error|ok]; [apply Hfail|].
    assert (Hsettled : forall o m, settle (waiter y) o m !! p = None -> waiter y <> p).
    { intros o m H Hw. rewrite Hw in H. eapply settled_not_pending; eauto. }
    assert (Hy : forall o m, settle (waiter y) o m !! p = None -> eventId y <> e).
    { intros o m H Hye. apply (Hsettled o m H). eauto. }
    destruct Hidx1 as ((x1 & Hget1 & Hwx1) & (t1 & Htim1 & Hte1) & Hall1 & Htimers1 & Htrans1).
    unfold settleTransfer, confirmTransfer.
    destruct (amount ev) as [a|]; [destruct (negb (a =? amountTokens y))|];
      simpl; intros Hun'; pose proof (Hy _ _ Hun') as Hye;
      pose proof (Hsettled _ _ Hun') as Hwy;
      (split; [|split; [|split; [|split]]]; simpl);
      first
        [ exists x1; split; [|exact Hwx1]; now rewrite JsMapFacts.get_delete_ne
        | exists t1; split; [|exact Hte1];
          first [now rewrite lookup_delete_ne | exact Htim1]
        | intros k' z Hz; apply JsMapFacts.In_delete in Hz as [Hz _]; eauto
        | intros q' t'' Hq; apply lookup_delete_Some in Hq as [_ Hq]; eauto
        | eauto ].
  - (* shutdown *)
    unfold shutdown. destruct (client s) as [c|]; [|intros _; exact Hidx].
    simpl. intros Hun'. exfalso.
    set (s1 := match transferSubscriptionId s with
               | Some sub => _
               | None => s
               end) in *.
    assert (Hs1 : pendingPayments s1 = pendingPayments s /\ promises s1 = promises s).
    { subst s1. destruct (transferSubscriptionId s) as [sub|]; [|auto].
      destruct (truthy sub); auto. }
    destruct Hs1 as [E1 E2].
    assert (Hr : promises (rejectAll (JsMap.values (pendingPayments s1)) s1) !! waiter x
                 = Some (Rejected (ErrorMessage SHUTTING_DOWN))).
    { apply rejectAll_rejects.
      - rewrite E1. apply JsMapFacts.In_values. exists e. now apply JsMapFacts.get_In.
      - rewrite E2, Hwx. exact Hun. }
    rewrite Hwx in Hr. congruence.
Qed.

Lemma run_tracked e p trace s :
  keyed s ->
  Forall (fun a => registers e a = false) trace ->
  tracked e p s -> tracked e p (run trace s).
Proof.
  revert s. induction trace as [|a trace IH]; intros s Hk Hreg Htr; [exact Htr|].
  apply Forall_cons in Hreg as [Ha Hreg].
  simpl. apply IH; [now apply exec_keyed|exact Hreg|now apply exec_tracked].
Qed.

(** Registering under an event id that nothing refers to. *)
Lemma waitForPayment_tracks a now s p s1 :
  keyed s ->
  unreferenced (argEventId a) s ->
  waitForPayment a now s = (WaitPending p, s1) ->
  p = nextId s
  /\ tracked (argEventId a) p s1
  /\ keyed s1
  /\ delivered s1 p = delivered s p.
Proof.
  intros Hk (Hnone & Hnotimer & Hnohandler). unfold waitForPayment.
  destruct (config s); [|discriminate].
  destruct (confirmedPayments s !! argCartId a); [discriminate|].
  intros [= <- <-]. split; [reflexivity|]. split; [|split; [|reflexivity]].
  - split; [simpl; lia|]. intros _.
    split; [|split; [|split; [|split]]]; simpl.
    + eexists. split; [apply JsMapFacts.get_set_eq|reflexivity].
    + eexists. split; [apply lookup_insert_eq|reflexivity].
    + intros k y Hin Hy. apply JsMapFacts.In_set in Hin as [[= -> ->]|Hin]; [reflexivity|].
      exfalso. apply (JsMapFacts.In_get (argEventId a) y (pendingPayments s)); [|exact Hnone].
      rewrite <- Hy at 1. rewrite (Hk k y Hin). exact Hin.
    + intros q t Hq Ht. apply lookup_insert_Some in Hq as [[<- _]|[_ Hq]]; [reflexivity|].
      exfalso. eapply Hnotimer; eauto.
    + intros h ev y Hh Hy. exfalso. eapply Hnohandler; eauto.
  - intros k y Hin. simpl in Hin.
    apply JsMapFacts.In_set in Hin as [[= -> ->]|Hin]; [reflexivity|eauto].
Qed.

(** *** Numbers are handed out once *)

Lemma settle_Some p o (m : gmap nat Settlement) q o' :
  settle p o m !! q = Some o' -> m !! q = Some o' \/ (q = p /\ o' = o).
Proof.
  unfold settle. destruct (m !! p) eqn:E; [auto|].
  intros H. apply lookup_insert_Some in H as [[<- <-]|[_ H]]; auto.
Qed.

Lemma rejectAll_Some l s q o :
  promises (rejectAll l s) !! q = Some o ->
  promises s !! q = Some o
  \/ (o = Rejected (ErrorMessage SHUTTING_DOWN) /\ exists x, In x l /\ waiter x = q).
Proof.
  revert s. induction l as [|x l IH]; intros s H; [now left|].
  simpl in H. apply IH in H as [H|(-> & y & Hy & Hw)].
  - simpl in H. apply settle_Some in H as [H|[-> ->]]; [now left|].
    right. split; [reflexivity|]. exists x. split; [now left|reflexivity].
  - right. split; [reflexivity|]. exists y. split; [now right|exact Hw].
Qed.

Lemma fresh_allocated : allocated fresh.
Proof.
  unfold allocated. simpl. split; [|split; [|split]].
  - intros q o H. now rewrite lookup_empty in H.
  - intros q t H. now rewrite lookup_empty in H.
  - intros k x [].
  - intros h ev x H. now rewrite lookup_empty in H.
Qed.

Lemma exec_allocated a s : allocated s -> allocated (exec a s).
Proof.
  intros (Hp & Ht & Hpend & Htr). unfold allocated.
  destruct a as [cfg ids|sub|sub|args now|q|ev|h now|]; cbn [exec];
    [service_only; repeat split; assumption ..| | | | |].
  - unfold waitForPayment. destruct (config s); [|repeat split; assumption].
    destruct (confirmedPayments s !! argCartId args); [repeat split; assumption|].
    simpl. repeat split.
    + intros q o Hq. apply Hp in Hq. lia.
    + intros q t Hq. apply lookup_insert_Some in Hq as [[<- _]|[_ Hq]]; [lia|].
      apply Ht in Hq. lia.
    + intros k x Hin. apply JsMapFacts.In_set in Hin as [[= -> ->]|Hin]; [simpl; lia|].
      apply Hpend in Hin. lia.
    + intros h ev x Hx. apply Htr in Hx. lia.
  - unfold timeoutFires. destruct (timers s !! q) as [t|] eqn:Eq; [|repeat split; assumption].
    destruct (JsMap.has _ _); simpl; repeat split; eauto.
    + intros q' o Hq. apply settle_Some in Hq as [Hq|[-> _]]; eauto.
    + intros q' t' Hq. apply lookup_delete_Some in Hq as [_ Hq]. eauto.
    + intros k x Hin. apply JsMapFacts.In_delete in Hin as [Hin _]. eauto.
    + intros q' t' Hq. apply lookup_delete_Some in Hq as [_ Hq]. eauto.
  - unfold handleIncomingTransfer.
    destruct (negb (isTokenTransfer ev)); [repeat split; assumption|].
    destruct (matchPending ev s) as [y|] eqn:Em; [|repeat split; assumption].
    apply matchPending_sound_In in Em as [k Hin]. pose proof (Hpend k y Hin) as Hy.
    destruct (identityService s).
    + simpl. repeat split.
      * intros q o Hq. apply Hp in Hq. lia.
      * intros q t Hq. apply Ht in Hq. lia.
      * intros k' x Hx. apply Hpend in Hx. lia.
      * intros h ev' x Hx. apply lookup_insert_Some in Hx as [[_ [= <- <-]]|[_ Hx]]; [lia|].
        apply Htr in Hx. lia.
    + unfold transferFailed. destruct (truthy_opt _); [|repeat split; assumption].
      simpl. repeat split; eauto.
      * intros q o Hq. apply settle_Some in Hq as [Hq|[-> _]]; eauto.
      * intros k' x Hx. apply JsMapFacts.In_delete in Hx as [Hx _]. eauto.
  - unfold transferProcessed.
    destruct (transfers s !! h) as [[ev y]|] eqn:Eh; [|repeat split; assumption].
    pose proof (Htr h ev y Eh) as Hy.
    assert (Hfail : forall error,
              allocated (transferFailed ev y error
                           (withTransfers (delete h (transfers s)) s))).
    { intros error. unfold allocated, transferFailed. destruct (truthy_opt _); simpl.
      - repeat split; eauto.
        + intros q o Hq. apply settle_Some in Hq as [Hq|[-> _]]; eauto.
        + intros k' x Hx. apply JsMapFacts.In_delete in Hx as [Hx _]. eauto.
        + intros h' ev' x Hx. apply lookup_delete_Some in Hx as [_ Hx]. eauto.
      - repeat split; eauto.
        intros h' ev' x Hx. apply lookup_delete_Some in Hx as [_ Hx]. eauto. }
    destruct (tokenData ev) as [error|json]; [apply Hfail|].
    destruct (negb (truthy json)); [apply Hfail|].
    destruct (processed ev) as [error|ok]; [apply Hfail|].
    unfold settleTransfer, confirmTransfer.
    destruct (amount ev) as [a|]; [destruct (negb (a =? amountTokens y))|];
      simpl; repeat split; eauto;
      first
        [ intros q o Hq; apply settle_Some in Hq as [Hq|[-> _]]; eauto
        | intros k' x Hx; apply JsMapFacts.In_delete in Hx as [Hx _]; eauto
        | intros h' ev' x Hx; apply lookup_delete_Some in Hx as [_ Hx]; eauto
        | intros q' t' Hq; apply lookup_delete_Some in Hq as [_ Hq]; eauto ].
  - unfold shutdown. destruct (client s) as [c|]; [|repeat split; assumption].
    set (s1 := match transferSubscriptionId s with
               | Some sub => _
               | None => s
               end).
    assert (Hs1 : pendingPayments s1 = pendingPayments s /\ promises s1 = promises s
                  /\ timers s1 = timers s /\ transfers s1 = transfers s
                  /\ nextId s1 = nextId s).
    { subst s1. destruct (transferSubscriptionId s) as [sub|]; [|auto].
      destruct (truthy sub); auto. }
    destruct Hs1 as (E1 & E2 & E3 & E4 & E5).
    simpl. rewrite rejectAll_nextId, rejectAll_timers, rejectAll_transfers, E3, E4, E5.
    repeat split; eauto.
    + intros q o Hq. apply rejectAll_Some in Hq as [Hq|(_ & x & Hx & <-)].
      * rewrite E2 in Hq. eauto.
      * rewrite E1 in Hx. apply JsMapFacts.In_values in Hx as [k Hx]. eauto.
    + intros k x [].
Qed.

Lemma reachable_invariants s : reachable s -> keyed s /\ allocated s.
Proof.
  intros [trace ->]. 
  assert (H : forall tr s0, keyed s0 /\ allocated s0 -> keyed (run tr s0) /\ allocated (run tr s0)).
  { induction tr as [|a tr IH]; intros s0 [Hk Ha]; [auto|].
    simpl. apply IH. split; [now apply exec_keyed|now apply exec_allocated]. }
  apply H. split; [apply fresh_keyed|apply fresh_allocated].
Qed.

Lemma reachable_run trace s : reachable s -> reachable (run trace s).
Proof.
  intros [tr ->]. exists (tr ++ trace). unfold run. now rewrite fold_left_app.
Qed.

(** *** What a waiter can be given *)

Lemma exec_owned a0 now0 p a s : owned a0 now0 p s -> owned a0 now0 p (exec a s).
Proof.
  intros (Hlt & Hpend & Htr & Htim & Hout). unfold owned.
  split; [pose proof (exec_nextId_mono a s); lia|].
  destruct a as [cfg ids|sub|sub|args now|q|ev|h now|]; cbn [exec];
    [service_only; repeat split; assumption ..| | | | |].
  - unfold waitForPayment. destruct (config s); [|repeat split; assumption].
    destruct (confirmedPayments s !! argCartId args); [repeat split; assumption|].
    simpl. repeat split; auto.
    + intros k x Hin Hw. apply JsMapFacts.In_set in Hin as [[= -> ->]|Hin];
        [simpl in Hw; lia|eauto].
    + intros t Ht. rewrite lookup_insert_ne in Ht by lia. eauto.
  - unfold timeoutFires. destruct (timers s !! q) as [t|] eqn:Eq; [|repeat split; assumption].
    destruct (JsMap.has _ _); simpl; repeat split; auto.
    + intros k x Hin. apply JsMapFacts.In_delete in Hin as [Hin _]. eauto.
    + intros t' Ht. apply lookup_delete_Some in Ht as [_ Ht]. eauto.
    + intros o Ho. apply settle_Some in Ho as [Ho|[<- ->]]; [eauto|].
      rewrite (Htim t Eq). constructor.
    + intros t' Ht. apply lookup_delete_Some in Ht as [_ Ht]. eauto.
  - unfold handleIncomingTransfer.
    destruct (negb (isTokenTransfer ev)); [repeat split; assumption|].
    destruct (matchPending ev s) as [y|] eqn:Em; [|repeat split; assumption].
    apply matchPending_sound_In in Em as [k Hin].
    destruct (identityService s).
    + simpl. repeat split; auto.
      intros h ev' x Hx Hw.
      apply lookup_insert_Some in Hx as [[_ [= <- <-]]|[_ Hx]]; eauto.
    + unfold transferFailed. destruct (truthy_opt _); [|repeat split; assumption].
      simpl. repeat split; auto.
      * intros k' x Hx. apply JsMapFacts.In_delete in Hx as [Hx _]. eauto.
      * intros o Ho. apply settle_Some in Ho as [Ho|[_ ->]]; [eauto|constructor].
  - unfold transferProcessed.
    destruct (transfers s !! h) as [[ev y]|] eqn:Eh; [|repeat split; assumption].
    assert (Hfail : forall error,
              let s' := transferFailed ev y error (withTransfers (delete h (transfers s)) s) in
              (forall k x, In (k, x) (pendingPayments s') ->
                 waiter x = p -> x = registered a0 now0 p)
              /\ (forall h' ev' x, transfers s' !! h' = Some (ev', x) ->
                    waiter x = p -> x = registered a0 now0 p)
              /\ (forall t, timers s' !! p = Some t -> timeoutEventId t = argEventId a0)
              /\ (forall o, promises s' !! p = Some o -> outcomeOf a0 o)).
    { intros error. unfold transferFailed. destruct (truthy_opt _); simpl.
      - repeat split; auto.
        + intros k' x Hx. apply JsMapFacts.In_delete in Hx as [Hx _]. eauto.
        + intros h' ev' x Hx. apply lookup_delete_Some in Hx as [_ Hx]. eauto.
        + intros o Ho. apply settle_Some in Ho as [Ho|[_ ->]]; [eauto|constructor].
      - repeat split; auto.
        intros h' ev' x Hx. apply lookup_delete_Some in Hx as [_ Hx]. eauto. }
    destruct (tokenData ev) as [error|json]; [apply Hfail|].
    destruct (negb (truthy json)); [apply Hfail|].
    destruct (processed ev) as [error|ok]; [apply Hfail|].
    unfold settleTransfer, confirmTransfer.
    destruct (amount ev) as [a|]; [destruct (negb (a =? amountTokens y)) eqn:Ea|];
      simpl; repeat split; auto;
      try (intros k' x Hx; apply JsMapFacts.In_delete in Hx as [Hx _]; eauto);
      try (intros h' ev' x Hx; apply lookup_delete_Some in Hx as [_ Hx]; eauto);
      try (intros t' Ht; apply lookup_delete_Some in Ht as [_ Ht]; eauto).
    + intros o Ho. apply settle_Some in Ho as [Ho|[Hw ->]]; [eauto|].
      rewrite (Htr h ev y Eh (eq_sym Hw)). simpl. constructor.
      apply negb_true_iff, Z.eqb_neq in Ea.
      rewrite (Htr h ev y Eh (eq_sym Hw)) in Ea. exact Ea.
    + intros o Ho. apply settle_Some in Ho as [Ho|[Hw ->]]; [eauto|].
      rewrite (Htr h ev y Eh (eq_sym Hw)). simpl. constructor.
    + intros o Ho. apply settle_Some in Ho as [Ho|[Hw ->]]; [eauto|].
      rewrite (Htr h ev y Eh (eq_sym Hw)). simpl. constructor.
  - unfold shutdown. destruct (client s) as [c|]; [|repeat split; assumption].
    set (s1 := match transferSubscriptionId s with
               | Some sub => _
               | None => s
               end).
    assert (Hs1 : pendingPayments s1 = pendingPayments s /\ promises s1 = promises s
                  /\ timers s1 = timers s /\ transfers s1 = transfers s).
    { subst s1. destruct (transferSubscriptionId s) as [sub|]; [|auto].
      destruct (truthy sub); auto. }
    destruct Hs1 as (E1 & E2 & E3 & E4).
    simpl. rewrite rejectAll_timers, rejectAll_transfers, E3, E4.
    repeat split; auto.
    + intros k x [].
    + intros o Ho. apply rejectAll_Some in Ho as [Ho|[-> _]]; [|constructor].
      rewrite E2 in Ho. eauto.
Qed.

Lemma run_owned a0 now0 p trace s : owned a0 now0 p s -> owned a0 now0 p (run trace s).
Proof.
  revert s. induction trace as [|a trace IH]; intros s H; [exact H|].
  simpl. apply IH. now apply exec_owned.
Qed.

Lemma waitForPayment_owns a now s p s1 :
  allocated s ->
  waitForPayment a now s = (WaitPending p, s1) ->
  owned a now p s1 /\ delivered s1 p = None.
Proof.
  intros (Hp & Ht & Hpend & Htr). unfold waitForPayment.
  destruct (config s); [|discriminate].
  destruct (confirmedPayments s !! argCartId a); [discriminate|].
  intros [= <- <-].
  assert (Hnone : promises s !! nextId s = None).
  { destruct (promises s !! nextId s) eqn:E; [|reflexivity]. apply Hp in E. lia. }
  split; [|exact Hnone].
  split; [simpl; lia|]. simpl. repeat split.
  - intros k x Hin Hw. apply JsMapFacts.In_set in Hin as [[= -> ->]|Hin]; [reflexivity|].
    apply Hpend in Hin. lia.
  - intros h ev x Hx Hw. apply Htr in Hx. lia.
  - intros t Hq. rewrite lookup_insert_eq in Hq. now injection Hq as <-.
  - intros o Ho. congruence.
Qed.

(** *** C1 *)

(** C1, as stated, fails in two ways.  A pending payment registered twice
    under one event id, as two overlapping [confirm_payment] calls for a
    cart do, leaves one waiter without any outcome, for ever: the time-out
    of the first call removes the entry of the second one, whose own
    time-out then finds nothing to reject (or the transfer resolves the
    second waiter and the time-out of the first finds nothing).  And a
    waiter can be given an outcome that is none of the three named:
    [shutdown] rejects it with "NostrService shutting down". *)
Lemma second_registration_orphans_a_waiter :
  let twice :=
    run [WaitForPayment sample_wait 1001; TimeoutFires 0; TimeoutFires 1]
      waiting_service in
  let paid :=
    run [WaitForPayment sample_wait 1001;
         TransferArrives (sample_transfer (Some "evt-1") (Some 4999) (inr "{}"));
         TransferProcessed 2 2000; TimeoutFires 0; TimeoutFires 1]
      waiting_service in
  (delivered twice 0 = Some (Rejected (PaymentTimeout 5000 "evt-1"))
   /\ delivered twice 1 = None
   /\ timers twice = ∅
   /\ forall trace, delivered (run trace twice) 1 = None)
  /\ (is_Some (delivered paid 1)
      /\ delivered paid 0 = None
      /\ timers paid = ∅
      /\ forall trace, delivered (run trace paid) 0 = None)
  /\ delivered (run [Shutdown] waiting_service) 0
     = Some (Rejected (ErrorMessage "NostrService shutting down")).
Proof.
  cbv zeta. split; [|split].
  - split; [reflexivity|]. split; [reflexivity|]. split; [reflexivity|].
    intros trace. apply orphaned_never_settles.
    split; [vm_compute; lia|]. split; [reflexivity|]. split; [reflexivity|]. split.
    + intros k x H. vm_compute in H. destruct H.
    + intros h ev x H. vm_compute in H. discriminate H.
  - split; [eexists; reflexivity|]. split; [reflexivity|]. split; [reflexivity|].
    intros trace. apply orphaned_never_settles.
    split; [vm_compute; lia|]. split; [reflexivity|]. split; [reflexivity|]. split.
    + intros k x H. vm_compute in H. destruct H.
    + intros h ev x H. vm_compute in H. discriminate H.
  - reflexivity.
Qed.

(** C1, amended.  Take a reachable service, an event id that nothing in it
    refers to, a call of [waitForPayment] that registers a pending payment
    under it, and any run after that call in which no other
    [waitForPayment] uses this event id.  Then the waiter has no outcome
    at registration; it has one as soon as its time-out is no longer armed,
    in particular after the time-out has fired; the outcome it has is the
    confirmation of its cart and request, an amount mismatch against its
    amount, a processing failure, its time-out failure or the shutdown
    failure; and once delivered it is what the waiter has in every
    continuation, so that whichever of the correlator, the time-out and
    [shutdown] comes second delivers nothing.  The time-out callback, for
    its part, settles nothing and has no effect when the event id is no
    longer in the index. *)
Theorem waiter_gets_exactly_one_outcome a now s p s1 trace :
  reachable s ->
  unreferenced (argEventId a) s ->
  waitForPayment a now s = (WaitPending p, s1) ->
  Forall (fun act => registers (argEventId a) act = false) trace ->
  let s' := run trace s1 in
  delivered s1 p = None
  /\ (timers s' !! p = None -> is_Some (delivered s' p))
  /\ (In (TimeoutFires p) trace -> is_Some (delivered s' p))
  /\ (forall o, delivered s' p = Some o ->
        outcomeOf a o /\ forall more, delivered (run more s') p = Some o)
  /\ (forall t, timers s' !! p = Some t ->
        JsMap.has (timeoutEventId t) (pendingPayments s') = false ->
        delivered (timeoutFires p s') = delivered s'
        /\ effects (timeoutFires p s') = effects s').
Proof.
  intros Hreach Hunref Hwait Hothers s'.
  destruct (reachable_invariants s Hreach) as [Hk Hal].
  destruct (waitForPayment_tracks a now s p s1 Hk Hunref Hwait) as (_ & Htr & Hk1 & _).
  destruct (waitForPayment_owns a now s p s1 Hal Hwait) as [Hown Hnone].
  assert (Htr' : tracked (argEventId a) p s') by (now apply run_tracked).
  assert (Hgone : timers s' !! p = None -> is_Some (delivered s' p)).
  { intros Ht. unfold delivered. destruct (promises s' !! p) as [o|] eqn:E; [eauto|].
    destruct Htr' as [_ Hidx]. destruct (Hidx E) as (_ & (t & Ht' & _) & _). congruence. }
  split; [exact Hnone|]. split; [exact Hgone|]. split.
  - intros Hin. apply Hgone. subst s'.
    apply in_split in Hin as (l1 & l2 & ->).
    unfold run. rewrite fold_left_app. simpl. fold (run l1 s1).
    fold (run l2 (timeoutFires p (run l1 s1))).
    apply run_timer_gone; [|apply timeoutFires_disarms].
    apply Forall_app in Hothers as [H1 _].
    pose proof (run_tracked _ p l1 s1 Hk1 H1 Htr) as [Hlt _].
    pose proof (exec_nextId_mono (TimeoutFires p) (run l1 s1)). simpl in *. lia.
  - split.
    + intros o Ho. split.
      * pose proof (run_owned a now p trace s1 Hown) as (_ & _ & _ & _ & Hout). eauto.
      * intros more. now apply run_settled_stable.
    + intros t Ht Hhas.
      destruct (timeout_checks_the_index p t s' Ht Hhas) as (Hp & He & _).
      split; [|exact He]. unfold delivered. now rewrite Hp.
Qed.

Lemma waiter_gets_exactly_one_outcome_witness :
  let ev := sample_transfer (Some "evt-1") (Some 4999) (inr "{}") in
  let raced :=
    run [TransferArrives ev; TimeoutFires 0; TransferProcessed 1 2000] waiting_service in
  delivered waiting_service 0 = None
  /\ delivered raced 0 = Some (Rejected (PaymentTimeout 5000 "evt-1"))
  /\ outcomeOf sample_wait (Rejected (PaymentTimeout 5000 "evt-1"))
  /\ forall more,
       delivered (run more raced) 0 = Some (Rejected (PaymentTimeout 5000 "evt-1")).
Proof.
  cbv zeta.
  destruct (waiter_gets_exactly_one_outcome sample_wait 1000 connected_service 0
              waiting_service
              [TransferArrives (sample_transfer (Some "evt-1") (Some 4999) (inr "{}"));
               TimeoutFires 0; TransferProcessed 1 2000])
    as (Hnone & _ & _ & Hone & _).
  - exists [Initialize sample_config sample_identity; Connected "sub-123"]. reflexivity.
  - split; [reflexivity|]. split.
    + intros q t H. vm_compute in H. discriminate H.
    + intros h ev x H. vm_compute in H. discriminate H.
  - reflexivity.
  - repeat constructor.
  - destruct (Hone (Rejected (PaymentTimeout 5000 "evt-1")) eq_refl) as [Hkind Hstays].
    split; [exact Hnone|]. split; [reflexivity|]. split; [exact Hkind|exact Hstays].
Defined.

End WaiterFacts.

(** ** [sanitizeForDisplay] *)

Module DisplayFacts.
Import Display DisplaySpec.

Lemma replaceAll_app c by_ (s t : JsString) :
  replaceAll c by_ (s ++ t) = replaceAll c by_ s ++ replaceAll c by_ t.
Proof. unfold replaceAll. apply flat_map_app. Qed.

Lemma replaceAll_In c by_ (s : JsString) x :
  In x (replaceAll c by_ s) -> (In x s /\ x <> c) \/ In x by_.
Proof.
  unfold replaceAll. rewrite in_flat_map. intros [y [Hy Hx]].
  destruct (N.eqb_spec y c) as [->|Hne].
  - right. exact Hx.
  - destruct Hx as [<-|[]]. left. split; assumption.
Qed.

(** The two replacements, one after the other, act on each code unit of
    the text by itself. *)
Lemma replacements_escape (s : JsString) :
  replaceAll GREATER_THAN AMP_GT (replaceAll LESS_THAN AMP_LT s) = flat_map escape s.
Proof.
  induction s as [|c s IH]; [reflexivity|].
  change (replaceAll LESS_THAN AMP_LT (c :: s))
    with ((if (c =? LESS_THAN)%N then AMP_LT else [c]) ++ replaceAll LESS_THAN AMP_LT s).
  rewrite replaceAll_app, IH. simpl. f_equal. unfold escape.
  destruct (N.eqb_spec c LESS_THAN) as [->|Hlt]; [reflexivity|].
  unfold replaceAll. simpl. rewrite app_nil_r. reflexivity.
Qed.

Lemma escape_length c : (length (escape c) <= 4)%nat.
Proof.
  unfold escape. destruct (c =? LESS_THAN)%N; [simpl; lia|].
  destruct (c =? GREATER_THAN)%N; simpl; lia.
Qed.

Lemma flat_map_escape_length (s : JsString) :
  (length (flat_map escape s) <= 4 * length s)%nat.
Proof.
  induction s as [|c s IH]; simpl; [lia|].
  rewrite length_app. pose proof (escape_length c). lia.
Qed.

Lemma escape_harmless c : harmless c -> escape c = [c].
Proof.
  intros (_ & Hlt & Hgt). unfold escape.
  destruct (N.eqb_spec c LESS_THAN); [contradiction|].
  destruct (N.eqb_spec c GREATER_THAN); [contradiction|]. reflexivity.
Qed.

Lemma flat_map_escape_harmless (s : JsString) :
  List.Forall harmless s -> flat_map escape s = s.
Proof.
  induction 1 as [|c s Hc _ IH]; [reflexivity|].
  simpl. rewrite (escape_harmless c Hc), IH. reflexivity.
Qed.

Lemma filter_harmless (s : JsString) :
  List.Forall harmless s -> List.filter (fun c => negb (isControl c)) s = s.
Proof.
  induction 1 as [|c s Hc _ IH]; [reflexivity|].
  simpl. destruct Hc as (-> & _). simpl. rewrite IH. reflexivity.
Qed.

Lemma truncate_length (input : JsString) : (length (truncate input) <= 103)%nat.
Proof.
  unfold truncate. destruct (Nat.ltb_spec 100 (length input)).
  - rewrite length_app, length_firstn. change (length ELLIPSIS) with 3%nat. lia.
  - lia.
Qed.

Lemma truncate_harmless (input : JsString) :
  List.Forall harmless input -> List.Forall harmless (truncate input).
Proof.
  intros H. unfold truncate. destruct (100 <? length input)%nat; [|exact H].
  apply List.Forall_app. split.
  - rewrite <- (firstn_skipn 100 input) in H.
    apply List.Forall_app in H. apply H.
  - repeat constructor; unfold harmless; vm_compute; intuition discriminate.
Qed.

(** What is cut off stays cut off: of the truncated text, only the
    ellipsis can exceed a hundred code units, and nothing of it is
    escaped. *)
Lemma sanitized_length (input : JsString) :
  (length (sanitizeForDisplay input) <= 403)%nat.
Proof.
  unfold sanitizeForDisplay. rewrite replacements_escape.
  unfold truncate. destruct (Nat.ltb_spec 100 (length input)) as [Hlong|Hshort].
  - rewrite List.filter_app, flat_map_app, length_app.
    pose proof (flat_map_escape_length
      (List.filter (fun c => negb (isControl c)) (firstn 100 input))) as H1.
    pose proof (List.filter_length_le (fun c => negb (isControl c)) (firstn 100 input)) as H2.
    rewrite length_firstn in H2.
    change (length (flat_map escape (List.filter (fun c => negb (isControl c)) ELLIPSIS)))
      with 3%nat.
    lia.
  - pose proof (flat_map_escape_length
      (List.filter (fun c => negb (isControl c)) input)) as H1.
    pose proof (List.filter_length_le (fun c => negb (isControl c)) input) as H2.
    lia.
Qed.

(** X1. Whatever the input, the text that [sanitizeForDisplay] returns
    holds no control character ([\x00]-[\x1f], [\x7f]) and no angle
    bracket, and it is at most 403 code units long (a hundred code units,
    each escaped to four at most, and the ellipsis). *)
Theorem sanitized_text_is_safe_to_display (input : Display.JsString) :
  (forall c, In c (sanitizeForDisplay input) -> harmless c)
  /\ (length (sanitizeForDisplay input) <= 403)%nat.
Proof.
  split; [|apply sanitized_length].
  intros c Hc. unfold sanitizeForDisplay in Hc.
  apply replaceAll_In in Hc. destruct Hc as [[Hc Hgt]|Hc].
  - apply replaceAll_In in Hc. destruct Hc as [[Hc Hlt]|Hc].
    + apply List.filter_In in Hc. destruct Hc as [_ Hc].
      apply negb_true_iff in Hc. repeat split; assumption.
    + simpl in Hc.
      repeat (destruct Hc as [<-|Hc];
              [unfold harmless; vm_compute; intuition discriminate|]).
      destruct Hc.
  - simpl in Hc.
    repeat (destruct Hc as [<-|Hc];
            [unfold harmless; vm_compute; intuition discriminate|]).
    destruct Hc.
Qed.

(** X2. A text without control characters and angle brackets comes back
    as it is when it has at most a hundred code units, and cut to its first
    hundred code units followed by ["..."] when it is longer. *)
Theorem harmless_text_is_only_truncated (input : Display.JsString)
    (Hclean : List.Forall harmless input) :
  sanitizeForDisplay input =
    if (100 <? length input)%nat then firstn 100 input ++ ELLIPSIS else input.
Proof.
  unfold sanitizeForDisplay. rewrite replacements_escape.
  pose proof (truncate_harmless input Hclean) as Ht.
  rewrite (filter_harmless _ Ht), (flat_map_escape_harmless _ Ht).
  reflexivity.
Qed.

Lemma harmless_text_is_only_truncated_witness :
  List.Forall harmless sample_name /\ sanitizeForDisplay sample_name = sample_name.
Proof.
  assert (H : List.Forall harmless sample_name).
  { repeat constructor; unfold harmless; vm_compute; intuition discriminate. }
  split; [exact H|].
  exact (harmless_text_is_only_truncated sample_name H).
Defined.

End DisplayFacts.

(** ** The cart store *)

Module JsMapKeys.
Section JsMapKeys.
Context {V : Type}.
Implicit Types (m : JsMap.t V) (k : string) (v : V).
Import JsMap.

Lemma In_keys_set k k' v m :
  In k' (List.map fst (set k v m)) -> k' = k \/ In k' (List.map fst m).
Proof.
  rewrite !in_map_iff. intros [x [<- Hx]].
  apply JsMapFacts.In_set in Hx. destruct Hx as [->|Hx]; [now left|].
  right. exists x. auto.
Qed.

Lemma NoDup_set k v m :
  List.NoDup (List.map fst m) -> List.NoDup (List.map fst (set k v m)).
Proof.
  induction m as [|[k' v'] m IH]; simpl; intros Hnd.
  - constructor; [simpl; tauto|constructor].
  - inversion Hnd as [|? ? Hnotin Hnd']; subst.
    destruct (String.eqb k k') eqn:E; simpl.
    + apply String.eqb_eq in E. subst k'. constructor; assumption.
    + constructor; [|auto].
      intros Hin. apply In_keys_set in Hin. destruct Hin as [->|Hin]; [|auto].
      rewrite String.eqb_refl in E. discriminate.
Qed.

Lemma delete_filter k m :
  delete k m = List.filter (fun x => negb (String.eqb k (fst x))) m.
Proof.
  induction m as [|[k' v'] m IH]; simpl; [reflexivity|].
  destruct (String.eqb k k'); simpl; rewrite IH; reflexivity.
Qed.

Lemma NoDup_filter (p : string * V -> bool) m :
  List.NoDup (List.map fst m) -> List.NoDup (List.map fst (List.filter p m)).
Proof.
  induction m as [|x m IH]; simpl; intros Hnd; [constructor|].
  inversion Hnd as [|? ? Hnotin Hnd']; subst.
  destruct (p x); simpl; [|auto].
  constructor; [|auto].
  intros Hin. apply Hnotin. rewrite in_map_iff in *.
  destruct Hin as [y [Hy Hin]]. exists y. split; [exact Hy|].
  apply List.filter_In in Hin. tauto.
Qed.

Lemma NoDup_delete k m :
  List.NoDup (List.map fst m) -> List.NoDup (List.map fst (delete k m)).
Proof. rewrite delete_filter. apply NoDup_filter. Qed.

Lemma set_set k v v' m : set k v (set k v' m) = set k v m.
Proof.
  induction m as [|[k' v0] m IH]; simpl.
  - rewrite String.eqb_refl. reflexivity.
  - destruct (String.eqb k k') eqn:E; simpl.
    + rewrite String.eqb_refl. reflexivity.
    + rewrite E, IH. reflexivity.
Qed.

(** In a map with one entry per key, the entry of a key is the one that
    [get] finds. *)
Lemma NoDup_In_get k v m :
  List.NoDup (List.map fst m) -> In (k, v) m -> get k m = Some v.
Proof.
  induction m as [|[k' v'] m IH]; simpl; [tauto|].
  intros Hnd Hin. inversion Hnd as [|? ? Hnotin Hnd']; subst.
  destruct Hin as [[= -> ->]|Hin].
  - rewrite String.eqb_refl. reflexivity.
  - destruct (String.eqb k k') eqn:E; [|auto].
    apply String.eqb_eq in E. subst k'. exfalso. apply Hnotin.
    rewrite in_map_iff. exists (k, v). auto.
Qed.

End JsMapKeys.
End JsMapKeys.

Module CartFacts.
Import CartStore CartSpec.

Lemma sumLines_from (lines : list CartLine.t) (a : Z) :
  fold_left (fun sum line => sum + CartLine.lineTotalCents line) lines a = a + total lines.
Proof.
  revert a. induction lines as [|line lines IH]; intros a; simpl; [lia|].
  rewrite IH. lia.
Qed.

Lemma sumLines_total (lines : list CartLine.t) : sumLines lines = total lines.
Proof. unfold sumLines. rewrite sumLines_from. lia. Qed.

Lemma total_app (l1 l2 : list CartLine.t) : total (l1 ++ l2) = total l1 + total l2.
Proof. induction l1 as [|x l1 IH]; simpl; [reflexivity|]. rewrite IH. lia. Qed.

(** *** The lines after [addToCart] and [removeFromCart] *)

Lemma increaseExisting_None variant quantity lines :
  increaseExisting variant quantity lines = None <->
  ~ In variant (List.map CartLine.variantId lines).
Proof.
  induction lines as [|line lines IH]; simpl; [tauto|].
  destruct (String.eqb (CartLine.variantId line) variant) eqn:E.
  - apply String.eqb_eq in E. split; [discriminate|]. intros H. exfalso. apply H. now left.
  - apply String.eqb_neq in E.
    destruct (increaseExisting variant quantity lines); simpl.
    + split; [discriminate|]. intros H. exfalso.
      assert (Hn : ~ In variant (List.map CartLine.variantId lines)) by tauto.
      apply IH in Hn. discriminate.
    + split; [|reflexivity]. intros _ [H|H]; [contradiction|].
      revert H. apply IH. reflexivity.
Qed.

Lemma increaseExisting_keeps variant quantity lines updated :
  increaseExisting variant quantity lines = Some updated ->
  List.map CartLine.variantId updated = List.map CartLine.variantId lines
  /\ List.map CartLine.currency updated = List.map CartLine.currency lines
  /\ List.map CartLine.id updated = List.map CartLine.id lines
  /\ (List.Forall priced lines -> List.Forall priced updated).
Proof.
  revert updated. induction lines as [|line lines IH]; simpl; intros updated; [discriminate|].
  destruct (String.eqb (CartLine.variantId line) variant).
  - intros [= <-]. simpl. repeat split; auto.
    intros H. inversion H; subst. constructor; [reflexivity|assumption].
  - destruct (increaseExisting variant quantity lines) as [rest|]; simpl; [|discriminate].
    intros [= <-]. destruct (IH rest eq_refl) as (H1 & H2 & H3 & H4).
    simpl. rewrite H1, H2, H3. repeat split; auto.
    intros H. inversion H; subst. constructor; auto.
Qed.

Lemma removeLine_sub lineId lines rest :
  removeLine lineId lines = Some rest ->
  (forall line, In line rest -> In line lines)
  /\ (List.NoDup (List.map CartLine.variantId lines) ->
      List.NoDup (List.map CartLine.variantId rest)).
Proof.
  revert rest. induction lines as [|line lines IH]; simpl; intros rest; [discriminate|].
  destruct (String.eqb (CartLine.id line) lineId).
  - intros [= <-]. split; [auto|]. intros H. now inversion H.
  - destruct (removeLine lineId lines) as [rest'|]; simpl; [|discriminate].
    intros [= <-]. destruct (IH rest' eq_refl) as [Hsub Hnd]. split.
    + intros l [<-|Hl]; [now left|right; auto].
    + intros H. inversion H as [|? ? Hnotin Hnd']; subst. simpl. constructor; [|auto].
      intros Hin. apply Hnotin. rewrite in_map_iff in *.
      destruct Hin as [l [Hl Hin]]. exists l. auto.
Qed.

Lemma removeLine_None lineId lines :
  ~ In lineId (List.map CartLine.id lines) -> removeLine lineId lines = None.
Proof.
  induction lines as [|line lines IH]; simpl; [reflexivity|].
  intros H. destruct (String.eqb (CartLine.id line) lineId) eqn:E.
  - apply String.eqb_eq in E. exfalso. apply H. now left.
  - rewrite IH; [reflexivity|tauto].
Qed.

Lemma removeLine_last lineId lines line :
  ~ In lineId (List.map CartLine.id lines) -> CartLine.id line = lineId ->
  removeLine lineId (lines ++ [line]) = Some lines.
Proof.
  intros Hnotin Hid. induction lines as [|x lines IH]; simpl.
  - rewrite Hid, String.eqb_refl. reflexivity.
  - destruct (String.eqb (CartLine.id x) lineId) eqn:E.
    + apply String.eqb_eq in E. exfalso. apply Hnotin. now left.
    + rewrite IH; [reflexivity|]. simpl in Hnotin. tauto.
Qed.

(** *** Consistency *)

Lemma inCurrency_head c line lines :
  inCurrency c (line :: lines) -> CartLine.currency line = c.
Proof. intros H. now inversion H. Qed.

Lemma inCurrency_map c lines lines' :
  List.map CartLine.currency lines' = List.map CartLine.currency lines ->
  inCurrency c lines -> inCurrency c lines'.
Proof.
  unfold inCurrency. rewrite !List.Forall_forall. intros Hmap H line Hin.
  assert (Hc : In (CartLine.currency line) (List.map CartLine.currency lines)).
  { rewrite <- Hmap. apply in_map. exact Hin. }
  rewrite in_map_iff in Hc. destruct Hc as [l [Hl Hin']]. rewrite <- Hl. auto.
Qed.

(** A cart whose lines are in one currency, priced and of distinct
    variants is consistent once recalculated. *)
Lemma recalculated_consistent now cart lines' c :
  List.Forall priced lines' -> inCurrency c lines' ->
  (lines' = [] -> c = currency cart) ->
  List.NoDup (List.map CartLine.variantId lines') ->
  consistent (touch now (recalculateCart (withLines lines' cart))).
Proof.
  intros Hp Hc He Hnd. unfold consistent. simpl.
  rewrite sumLines_total. repeat split; auto.
  destruct lines' as [|first rest]; simpl.
  - constructor.
  - rewrite (inCurrency_head _ _ _ Hc). exact Hc.
Qed.

Lemma consistent_setLocked flag now cart :
  consistent cart -> consistent (setLocked flag now cart).
Proof. intros H. exact H. Qed.

Section Prices.
Variable dollarsToCents : string -> Z.

Lemma addToCart_consistent cartId product variant quantity uuid now carts cart cart' carts' :
  JsMap.get cartId carts = Some cart -> consistent cart ->
  addToCart dollarsToCents cartId product variant quantity uuid now carts
    = (Success cart', carts') ->
  consistent cart' /\ id cart' = id cart /\ carts' = JsMap.set cartId cart' carts.
Proof.
  intros Hget (Hsub & Hp & Hc & Hnd). unfold addToCart. rewrite Hget.
  destruct (default false (lockedForCheckout cart)); [discriminate|].
  destruct (negb (length (lines cart) =? 0)%nat
            && negb (String.eqb (currency cart)
                       (currencyCode (ShopifyVariant.price variant)))) eqn:Echeck;
    [discriminate|].
  intros [= <- <-]. split; [|split; reflexivity].
  destruct (increaseExisting (ShopifyVariant.id variant) quantity (lines cart))
    as [updated|] eqn:Einc.
  - destruct (increaseExisting_keeps _ _ _ _ Einc) as (Hv & Hcur & _ & Hpr).
    apply (recalculated_consistent _ _ _ (currency cart)).
    + auto.
    + apply (inCurrency_map _ (lines cart)); assumption.
    + reflexivity.
    + rewrite Hv. exact Hnd.
  - apply increaseExisting_None in Einc.
    apply (recalculated_consistent _ _ _ (currencyCode (ShopifyVariant.price variant))).
    + apply List.Forall_app. split; [exact Hp|]. repeat constructor.
    + apply List.Forall_app. split; [|repeat constructor].
      destruct (lines cart) as [|first rest] eqn:El; [constructor|].
      simpl in Echeck. apply negb_false_iff, String.eqb_eq in Echeck.
      rewrite <- Echeck. exact Hc.
    + intros H. destruct (lines cart); discriminate H.
    + rewrite List.map_app. simpl. apply List.NoDup_app.
      * exact Hnd.
      * constructor; [simpl; tauto|constructor].
      * intros x Hx [<-|[]]. contradiction.
Qed.

End Prices.

Lemma removeFromCart_consistent cartId lineId now carts cart cart' carts' :
  JsMap.get cartId carts = Some cart -> consistent cart ->
  removeFromCart cartId lineId now carts = (Success cart', carts') ->
  consistent cart' /\ id cart' = id cart /\ carts' = JsMap.set cartId cart' carts.
Proof.
  intros Hget (Hsub & Hp & Hc & Hnd). unfold removeFromCart. rewrite Hget.
  destruct (default false (lockedForCheckout cart)); [discriminate|].
  destruct (removeLine lineId (lines cart)) as [rest|] eqn:Erm; [|discriminate].
  intros [= <- <-]. split; [|split; reflexivity].
  destruct (removeLine_sub _ _ _ Erm) as [Hin Hnd'].
  apply (recalculated_consistent _ _ _ (currency cart)).
  - rewrite List.Forall_forall in *. auto.
  - unfold inCurrency in *. rewrite List.Forall_forall in *. auto.
  - reflexivity.
  - auto.
Qed.

(** *** The store *)

Lemma sound_empty : sound JsMap.empty.
Proof. split; [constructor|intros k cart []]. Qed.

Lemma sound_set k cart carts :
  sound carts -> id cart = k -> consistent cart -> sound (JsMap.set k cart carts).
Proof.
  intros [Hnd Hall] Hid Hc. split.
  - apply JsMapKeys.NoDup_set. exact Hnd.
  - intros k' cart' Hin. apply JsMapFacts.In_set in Hin.
    destruct Hin as [[= -> ->]|Hin]; auto.
Qed.

Lemma sound_delete k carts : sound carts -> sound (JsMap.delete k carts).
Proof.
  intros [Hnd Hall]. split.
  - apply JsMapKeys.NoDup_delete. exact Hnd.
  - intros k' cart' Hin. apply JsMapFacts.In_delete in Hin. apply Hall. tauto.
Qed.

Lemma sound_get k cart carts :
  sound carts -> JsMap.get k carts = Some cart -> id cart = k /\ consistent cart.
Proof. intros [_ Hall] Hget. apply Hall. apply JsMapFacts.get_In. exact Hget. Qed.

Lemma prune_sound maxAgeMs now (entries : list (string * Cart)) n carts :
  sound carts ->
  sound (snd (fold_left
    (fun '(prunedCount, remaining) '(cartId, cart) =>
       if maxAgeMs <? now - updatedAt cart
       then (S prunedCount, JsMap.delete cartId remaining)
       else (prunedCount, remaining))
    entries (n, carts))).
Proof.
  revert n carts. induction entries as [|[k c] entries IH]; intros n carts Hs; simpl; [exact Hs|].
  destruct (maxAgeMs <? now - updatedAt c); apply IH; [apply sound_delete|]; exact Hs.
Qed.

Lemma call_sound dollarsToCents c carts : sound carts -> sound (call dollarsToCents c carts).
Proof.
  intros Hs. destruct c; simpl.
  - apply sound_set; [exact Hs|reflexivity|].
    repeat split; simpl; constructor.
  - destruct (addToCart dollarsToCents cartId product variant quantity uuid now carts)
      as [r carts'] eqn:E.
    simpl. pose proof E as E'. unfold addToCart in E'.
    destruct (JsMap.get cartId carts) as [cart|] eqn:Hget; [|now inversion E'; subst].
    destruct (sound_get _ _ _ Hs Hget) as [Hid Hc].
    destruct r as [cart'|error].
    + destruct (addToCart_consistent _ _ _ _ _ _ _ _ _ _ _ Hget Hc E) as (Hc' & Hid' & ->).
      apply sound_set; [exact Hs|congruence|exact Hc'].
    + clear E. destruct (default false (lockedForCheckout cart)); [now inversion E'; subst|].
      destruct (_ && _); now inversion E'; subst.
  - destruct (removeFromCart cartId lineId now carts) as [r carts'] eqn:E.
    simpl. pose proof E as E'. unfold removeFromCart in E'.
    destruct (JsMap.get cartId carts) as [cart|] eqn:Hget; [|now inversion E'; subst].
    destruct (sound_get _ _ _ Hs Hget) as [Hid Hc].
    destruct r as [cart'|error].
    + destruct (removeFromCart_consistent _ _ _ _ _ _ _ Hget Hc E) as (Hc' & Hid' & ->).
      apply sound_set; [exact Hs|congruence|exact Hc'].
    + clear E. destruct (default false (lockedForCheckout cart)); [now inversion E'; subst|].
      destruct (removeLine lineId (lines cart)); now inversion E'; subst.
  - unfold clearCart. destruct (JsMap.get cartId carts) as [cart|] eqn:Hget; [|exact Hs].
    destruct (sound_get _ _ _ Hs Hget) as [Hid Hc]. simpl.
    apply sound_set; [exact Hs|exact Hid|].
    repeat split; simpl; constructor.
  - unfold lockCartForCheckout. destruct (JsMap.get cartId carts) as [cart|] eqn:Hget; [|exact Hs].
    destruct (sound_get _ _ _ Hs Hget) as [Hid Hc]. simpl.
    apply sound_set; [exact Hs|exact Hid|exact Hc].
  - unfold unlockCart. destruct (JsMap.get cartId carts) as [cart|] eqn:Hget; [|exact Hs].
    destruct (sound_get _ _ _ Hs Hget) as [Hid Hc]. simpl.
    apply sound_set; [exact Hs|exact Hid|exact Hc].
  - apply sound_delete. exact Hs.
  - apply sound_empty.
  - apply prune_sound. exact Hs.
Qed.

(** X3. Whatever calls are made on the cart store, from the empty store
    on, the store is sound after them: it has one entry per cart id, every
    cart is stored under its own id, its subtotal is the sum of its line
    totals, each line total is the unit price times the quantity, every
    line is in the currency of the cart, and no two lines of a cart are of
    the same variant. *)
Theorem every_stored_cart_is_consistent (dollarsToCents : string -> Z)
    (l : list CartStore.Call) :
  sound (calls dollarsToCents l JsMap.empty).
Proof.
  unfold calls. generalize sound_empty. generalize (@JsMap.empty Cart).
  induction l as [|c l IH]; intros carts Hs; simpl; [exact Hs|].
  apply IH. apply call_sound. exact Hs.
Qed.

(** *** The checkout lock *)

(** X4. Once [lockCartForCheckout] has locked a cart, [addToCart] and
    [removeFromCart] on it fail with [cart_locked] and leave the store as
    it is, whereas [clearCart] does not look at the lock: it empties the
    locked cart and leaves it locked.  [unlockCart] takes the lock off. *)
Theorem locked_cart_refuses_changes (dollarsToCents : string -> Z)
    (carts : CartStore.Store) (cartId : string) (cart : CartStore.Cart) (now : Z)
    (Hcart : getCart cartId carts = Some cart) :
  let locked := snd (lockCartForCheckout cartId now carts) in
  isCartLocked cartId locked = true
  /\ getCart cartId locked = Some (setLocked true now cart)
  /\ (forall product variant quantity uuid t,
        addToCart dollarsToCents cartId product variant quantity uuid t locked
        = (Failure cart_locked, locked))
  /\ (forall lineId t,
        removeFromCart cartId lineId t locked = (Failure cart_locked, locked))
  /\ (forall t, exists cleared,
        clearCart cartId t locked = (Some cleared, JsMap.set cartId cleared locked)
        /\ lines cleared = [] /\ subtotalCents cleared = 0
        /\ lockedForCheckout cleared = Some true)
  /\ (forall t, isCartLocked cartId (snd (unlockCart cartId t locked)) = false).
Proof.
  unfold getCart in Hcart. unfold lockCartForCheckout. rewrite Hcart. simpl.
  assert (Hget : JsMap.get cartId (JsMap.set cartId (setLocked true now cart) carts)
                 = Some (setLocked true now cart)) by apply JsMapFacts.get_set_eq.
  repeat split.
  - unfold isCartLocked. rewrite Hget. reflexivity.
  - exact Hget.
  - intros. unfold addToCart. rewrite Hget. reflexivity.
  - intros. unfold removeFromCart. rewrite Hget. reflexivity.
  - intros t. unfold clearCart. rewrite Hget. eexists. repeat split.
  - intros t. unfold unlockCart, isCartLocked. rewrite Hget. simpl.
    rewrite JsMapFacts.get_set_eq. reflexivity.
Qed.

Lemma locked_cart_refuses_changes_witness :
  getCart "cart-1" one_cart = Some empty_cart
  /\ addToCart sample_prices "cart-1" sample_product sample_variant 1 "line-1" 30
       (snd (lockCartForCheckout "cart-1" 20 one_cart))
     = (Failure cart_locked, snd (lockCartForCheckout "cart-1" 20 one_cart)).
Proof.
  split; [reflexivity|].
  exact (proj1 (proj2 (proj2
    (locked_cart_refuses_changes sample_prices one_cart "cart-1" empty_cart 20 eq_refl)))
    sample_product sample_variant 1 "line-1" 30).
Defined.

(** *** Adding and removing *)




Section Adding.
Variable dollarsToCents : string -> Z.

Local Abbreviation lineOf := (CartSpec.lineOf dollarsToCents).
Local Abbreviation linesAfter := (CartSpec.linesAfter dollarsToCents).

Lemma addToCart_cases cartId product variant quantity uuid now carts cart :
  JsMap.get cartId carts = Some cart ->
  (exists error,
     addToCart dollarsToCents cartId product variant quantity uuid now carts
     = (Failure error, carts))
  \/ (default false (lockedForCheckout cart) = false
      /\ (lines cart = []
          \/ currency cart = currencyCode (ShopifyVariant.price variant))
      /\ let cart' := touch now (recalculateCart
                        (withLines (linesAfter product variant quantity uuid (lines cart))
                           cart)) in
         addToCart dollarsToCents cartId product variant quantity uuid now carts
         = (Success cart', JsMap.set cartId cart' carts)).
Proof.
  intros Hget. unfold addToCart. rewrite Hget.
  destruct (default false (lockedForCheckout cart)); [left; eauto|].
  destruct (lines cart) as [|first rest] eqn:El.
  - right. split; [reflexivity|]. split; [now left|]. reflexivity.
  - simpl. destruct (String.eqb_spec (currency cart)
                       (currencyCode (ShopifyVariant.price variant))) as [Hc|Hc].
    + right. split; [reflexivity|]. split; [now right|]. reflexivity.
    + left. eauto.
Qed.





(** X6. Adding a variant that the cart lacks and removing the new line
    again gives back the lines and the subtotal of a consistent cart.  The
    currency comes back too, unless the cart had no lines: then it stays
    the currency of the variant that was added and removed. *)
Theorem removing_the_added_line_restores_the_cart
    (carts : CartStore.Store) (cartId : string) (cart : CartStore.Cart)
    (product : CartStore.ShopifyProduct) (variant : CartStore.ShopifyVariant.t)
    (quantity : Z) (uuid : string) (t1 t2 : Z)
    (cart1 : CartStore.Cart) (carts1 : CartStore.Store)
    (Hcart : getCart cartId carts = Some cart)
    (Hconsistent : consistent cart)
    (Hvariant : ~ In (ShopifyVariant.id variant) (List.map CartLine.variantId (lines cart)))
    (Huuid : ~ In uuid (List.map CartLine.id (lines cart)))
    (Hadd : addToCart dollarsToCents cartId product variant quantity uuid t1 carts
            = (Success cart1, carts1)) :
  exists cart2,
    removeFromCart cartId uuid t2 carts1 = (Success cart2, JsMap.set cartId cart2 carts)
    /\ lines cart2 = lines cart
    /\ subtotalCents cart2 = subtotalCents cart
    /\ currency cart2 =
         match lines cart with
         | [] => currencyCode (ShopifyVariant.price variant)
         | _ :: _ => currency cart
         end
    /\ lockedForCheckout cart2 = lockedForCheckout cart
    /\ createdAt cart2 = createdAt cart.
Proof.
  unfold getCart in Hcart. destruct Hconsistent as (Hsub & _ & Hcur & _).
  destruct (addToCart_cases cartId product variant quantity uuid t1 carts cart Hcart)
    as [[error He]|(Hunlocked & Hcheck & Hadd')]; [congruence|].
  simpl in Hadd'. rewrite Hadd' in Hadd. injection Hadd as <- <-.
  assert (Hlines : linesAfter product variant quantity uuid (lines cart)
                   = lines cart ++ [lineOf product variant quantity uuid]).
  { unfold linesAfter.
    rewrite (proj2 (increaseExisting_None _ quantity _) Hvariant). reflexivity. }
  rewrite Hlines.
  set (cart1 := touch t1 (recalculateCart
                  (withLines (lines cart ++ [lineOf product variant quantity uuid]) cart))).
  unfold removeFromCart. rewrite JsMapFacts.get_set_eq.
  change (lockedForCheckout cart1) with (lockedForCheckout cart). rewrite Hunlocked.
  change (lines cart1) with (lines cart ++ [lineOf product variant quantity uuid]).
  rewrite (removeLine_last uuid (lines cart) (lineOf product variant quantity uuid)
             Huuid eq_refl).
  rewrite JsMapKeys.set_set. eexists. split; [reflexivity|].
  simpl. rewrite sumLines_total. repeat split; [congruence|].
  destruct (lines cart) as [|first rest] eqn:El; simpl; [reflexivity|].
  now inversion Hcur.
Qed.

End Adding.


Lemma removing_the_added_line_restores_the_cart_witness :
  exists cart2,
    removeFromCart "cart-1" "line-1" 40
      (snd (addToCart sample_prices "cart-1" sample_product sample_variant 1 "line-1" 30
              one_cart))
    = (Success cart2, JsMap.set "cart-1" cart2 one_cart)
    /\ lines cart2 = [] /\ subtotalCents cart2 = 0 /\ currency cart2 = "AED".
Proof.
  assert (Hc : consistent empty_cart).
  { repeat split; simpl; constructor. }
  destruct (removing_the_added_line_restores_the_cart sample_prices one_cart "cart-1"
              empty_cart sample_product sample_variant 1 "line-1" 30 40 _ _
              eq_refl Hc (fun H => H) (fun H => H) eq_refl)
    as (cart2 & Hrm & Hl & Hs & Hcur & _).
  exists cart2. repeat split; assumption.
Defined.

(** *** Pruning *)

Lemma filter_filter {A : Type} (p q : A -> bool) (l : list A) :
  List.filter p (List.filter q l) = List.filter (fun x => q x && p x) l.
Proof.
  induction l as [|x l IH]; simpl; [reflexivity|].
  destruct (q x); simpl; [destruct (p x)|]; rewrite IH; reflexivity.
Qed.

Lemma prune_from maxAgeMs now (entries : list (string * Cart)) n (carts : Store) :
  fold_left
    (fun '(prunedCount, remaining) '(cartId, cart) =>
       if maxAgeMs <? now - updatedAt cart
       then (S prunedCount, JsMap.delete cartId remaining)
       else (prunedCount, remaining))
    entries (n, carts)
  = ((n + length (List.filter (expired maxAgeMs now) entries))%nat,
     List.filter (spared maxAgeMs now entries) carts).
Proof.
  revert n carts. induction entries as [|[k c] entries IH]; intros n carts; simpl.
  - rewrite Nat.add_0_r. f_equal. induction carts as [|x carts IHc]; simpl; congruence.
  - unfold expired at 1. simpl. destruct (maxAgeMs <? now - updatedAt c) eqn:E.
    + rewrite IH, JsMapKeys.delete_filter, filter_filter. simpl. f_equal; [lia|].
      apply List.filter_ext. intros x. unfold spared. simpl.
      change (expired maxAgeMs now (k, c)) with (maxAgeMs <? now - updatedAt c).
      rewrite E. reflexivity.
    + rewrite IH. f_equal. apply List.filter_ext. intros x. unfold spared. simpl.
      change (expired maxAgeMs now (k, c)) with (maxAgeMs <? now - updatedAt c).
      rewrite E. reflexivity.
Qed.

Lemma spared_self maxAgeMs now (carts : Store) x :
  List.NoDup (keys carts) -> In x carts ->
  spared maxAgeMs now carts x = negb (expired maxAgeMs now x).
Proof.
  unfold spared, keys. induction carts as [|y carts IH]; simpl; [tauto|].
  intros Hnd Hin. inversion Hnd as [|? ? Hnotin Hnd']; subst.
  destruct Hin as [->|Hin].
  - rewrite String.eqb_refl, andb_true_r.
    destruct (expired maxAgeMs now x); simpl; [reflexivity|].
    apply forallb_forall. intros y Hy.
    destruct (String.eqb_spec (fst y) (fst x)) as [He|]; [|now rewrite andb_false_r].
    exfalso. apply Hnotin. rewrite <- He. apply in_map. exact Hy.
  - rewrite (IH Hnd' Hin).
    destruct (String.eqb_spec (fst y) (fst x)) as [He|]; [|now rewrite andb_false_r].
    exfalso. apply Hnotin. rewrite He. apply in_map. exact Hin.
Qed.

(** X7. [pruneOldCarts] removes from a store with one entry per cart id
    exactly the carts last updated more than [maxAgeMs] before [now]: it
    keeps the others in their order and returns the number of carts it
    removed. *)
Theorem pruning_removes_exactly_the_old_carts (maxAgeMs now : Z)
    (carts : CartStore.Store) (Hkeys : List.NoDup (keys carts)) :
  pruneOldCarts maxAgeMs now carts
  = (length (List.filter (expired maxAgeMs now) carts),
     List.filter (fun entry => negb (expired maxAgeMs now entry)) carts).
Proof.
  unfold pruneOldCarts. rewrite prune_from. simpl. f_equal.
  apply List.filter_ext_in. intros x Hx. apply spared_self; assumption.
Qed.

Lemma pruning_removes_exactly_the_old_carts_witness :
  List.NoDup (keys one_cart)
  /\ pruneOldCarts DEFAULT_CART_TTL_MS (10 + DEFAULT_CART_TTL_MS + 1) one_cart
     = (1%nat, []).
Proof.
  assert (H : List.NoDup (keys one_cart)).
  { constructor; [simpl; tauto|constructor]. }
  split; [exact H|].
  exact (pruning_removes_exactly_the_old_carts DEFAULT_CART_TTL_MS
           (10 + DEFAULT_CART_TTL_MS + 1) one_cart H).
Defined.

End CartFacts.

(** ** Pruning orders *)

Module TrackerStoreFacts.
Import Tracker TrackerStore TrackerStoreSpec.

(** The loop, started on the map [all] and taken through the entries of
    [m]: it has counted the entries of [m] that can be pruned and deleted
    them from [all]. *)
Lemma prune_loop maxAgeMs now (all m : Orders) :
  let r := map_fold
    (fun cartId order '(prunedCount, remaining) =>
       if negb (terminal (status order)) then (prunedCount, remaining)
       else if maxAgeMs <? now - updatedAt order
            then (S prunedCount, delete cartId remaining)
            else (prunedCount, remaining))
    (0%nat, all) m in
  fst r = size (filter (fun entry => prunable maxAgeMs now (snd entry) = true) m)
  /\ forall cart,
       snd r !! cart =
       match m !! cart with
       | Some order => if prunable maxAgeMs now order then None else all !! cart
       | None => all !! cart
       end.
Proof.
  apply (map_fold_weak_ind
    (fun (r : nat * Orders) (m : Orders) =>
       fst r = size (filter (fun entry => prunable maxAgeMs now (snd entry) = true) m)
       /\ forall cart,
            snd r !! cart =
            match m !! cart with
            | Some order => if prunable maxAgeMs now order then None else all !! cart
            | None => all !! cart
            end)).
  - split; [rewrite map_filter_empty; reflexivity|].
    intros cart. rewrite lookup_empty. reflexivity.
  - intros i x m0 [n remaining] Hnone [Hcount Hlook]. simpl in Hcount, Hlook.
    assert (Hcase :
      (prunable maxAgeMs now x = true /\
       (if negb (terminal (status x)) then (n, remaining)
        else if maxAgeMs <? now - updatedAt x
             then (S n, delete i remaining) else (n, remaining))
       = (S n, delete i remaining))
      \/ (prunable maxAgeMs now x = false /\
          (if negb (terminal (status x)) then (n, remaining)
           else if maxAgeMs <? now - updatedAt x
                then (S n, delete i remaining) else (n, remaining))
          = (n, remaining))).
    { unfold prunable. destruct (terminal (status x)); simpl; [|now right].
      destruct (maxAgeMs <? now - updatedAt x); [now left|now right]. }
    destruct Hcase as [[Hp ->]|[Hp ->]]; simpl.
    + split.
      * rewrite map_filter_insert_True by exact Hp.
        rewrite map_size_insert_None; [congruence|].
        apply map_lookup_filter_None. now left.
      * intros cart. destruct (decide (cart = i)) as [->|Hne].
        -- rewrite lookup_delete_eq, lookup_insert_eq, Hp. reflexivity.
        -- rewrite lookup_delete_ne, lookup_insert_ne by congruence. apply Hlook.
    + split.
      * rewrite map_filter_insert_False by (simpl; congruence).
        rewrite delete_id; [exact Hcount|exact Hnone].
      * intros cart. destruct (decide (cart = i)) as [->|Hne].
        -- rewrite lookup_insert_eq, Hp. rewrite Hlook, Hnone. reflexivity.
        -- rewrite lookup_insert_ne by congruence. apply Hlook.
Qed.

(** X8. [pruneOldOrders] deletes exactly the orders that are in a
    terminal status ([paid], [cancelled], [payment_timeout]) and were last
    updated more than [maxAgeMs] before [now], and returns their number.
    An order that is [pending] or [awaiting_payment] stays, however old it
    is. *)
Theorem pruning_spares_orders_in_progress (maxAgeMs now : Z) (orders : Tracker.Orders) :
  let r := pruneOldOrders maxAgeMs now orders in
  (forall cart,
     snd r !! cart =
     match orders !! cart with
     | Some order => if prunable maxAgeMs now order then None else Some order
     | None => None
     end)
  /\ fst r = size (filter (fun entry => prunable maxAgeMs now (snd entry) = true) orders)
  /\ (fst r + size (snd r) = size orders)%nat
  /\ (forall cart order,
        orders !! cart = Some order -> terminal (status order) = false ->
        snd r !! cart = Some order).
Proof.
  destruct (prune_loop maxAgeMs now orders orders) as [Hcount Hlook].
  unfold pruneOldOrders. simpl.
  set (r := map_fold _ _ orders) in *.
  assert (Hkept : forall cart,
    snd r !! cart =
    match orders !! cart with
    | Some order => if prunable maxAgeMs now order then None else Some order
    | None => None
    end).
  { intros cart. rewrite Hlook. destruct (orders !! cart) as [order|] eqn:E; [|reflexivity].
    destruct (prunable maxAgeMs now order); reflexivity. }
  repeat split.
  - exact Hkept.
  - exact Hcount.
  - assert (Heq : snd r
                  = filter (fun entry => ~ prunable maxAgeMs now (snd entry) = true) orders).
    { apply map_eq. intros cart. rewrite Hkept.
      destruct (orders !! cart) as [order|] eqn:E.
      - destruct (prunable maxAgeMs now order) eqn:Hp; symmetry.
        + apply map_lookup_filter_None. right. intros x Hx. simpl. congruence.
        + apply map_lookup_filter_Some. split; [exact E|]. simpl. congruence.
      - symmetry. apply map_lookup_filter_None. now left. }
    rewrite Hcount, Heq, <- map_size_disj_union by apply map_disjoint_filter_complement.
    rewrite map_filter_union_complement. reflexivity.
  - intros cart order Hin Hterm. rewrite Hkept, Hin.
    unfold prunable. rewrite Hterm. reflexivity.
Qed.

End TrackerStoreFacts.

(** ** The retries of [executeQuery] *)

Module ShopifyFacts.
Import Shopify ShopifySpec.

Section Query.
Context {D : Type}.
Implicit Types (fetch : nat -> Fetched D) (last : option QueryError).

Local Opaque retryableStatuses.

Lemma failure_success (f : Fetched D) :
  failure f = None <-> exists result, success f = Some result.
Proof.
  destruct f as [message|response]; simpl.
  - split; [discriminate|]. intros [r Hr]. discriminate.
  - destruct (ok response); simpl.
    + destruct (json response) as [message|result].
      * split; [discriminate|]. intros [r Hr]. discriminate.
      * destruct (data result); split; eauto; try discriminate.
        intros [r Hr]. discriminate.
    + split; [discriminate|]. intros [r Hr]. discriminate.
Qed.

Lemma attempts_success fetch attempt remaining last result :
  success (fetch attempt) = Some result ->
  attempts fetch attempt (S remaining) last = ([Fetch], inr result).
Proof.
  simpl. destruct (fetch attempt) as [message|response]; simpl; [discriminate|].
  destruct (ok response); simpl; [|discriminate].
  destruct (json response) as [message|r]; [discriminate|].
  destruct (data r); [|discriminate]. intros [= ->]. reflexivity.
Qed.

(** A failed attempt that is not the last one is followed by a pause and
    the next attempt, whatever the failure was. *)
Lemma attempts_retry fetch attempt remaining last error :
  failure (fetch attempt) = Some error -> (attempt < maxRetries)%nat ->
  exists last',
    attempts fetch attempt (S remaining) last
    = (Fetch :: Delay (delayMs attempt)
         :: fst (attempts fetch (S attempt) remaining last'),
       snd (attempts fetch (S attempt) remaining last')).
Proof.
  intros Hf Hlt. apply Nat.ltb_lt in Hlt. simpl. rewrite Hlt.
  destruct (fetch attempt) as [message|response]; simpl in *.
  - exists (Some (Thrown_ message)). destruct (attempts _ _ _ _). reflexivity.
  - destruct (ok response); simpl in *.
    + destruct (json response) as [message|r].
      * exists (Some (Thrown_ message)). destruct (attempts _ _ _ _). reflexivity.
      * destruct (data r); [discriminate|].
        exists (Some MissingData). destruct (attempts _ _ _ _). reflexivity.
    + destruct (existsb (Z.eqb (status response)) retryableStatuses); simpl.
      * exists last. destruct (attempts _ _ _ _). reflexivity.
      * exists (Some (RequestFailed (status response) (statusText response))).
        destruct (attempts _ _ _ _). reflexivity.
Qed.

(** The failure of the last attempt is the error thrown. *)
Lemma attempts_give_up fetch last error :
  failure (fetch maxRetries) = Some error ->
  attempts fetch maxRetries 1 last = ([Fetch], inl error).
Proof.
  intros Hf. simpl.
  destruct (fetch maxRetries) as [message|response]; simpl in *.
  - injection Hf as <-. reflexivity.
  - destruct (ok response); simpl in *.
    + destruct (json response) as [message|r].
      * injection Hf as <-. reflexivity.
      * destruct (data r); [discriminate|]. injection Hf as <-. reflexivity.
    + rewrite andb_false_r. injection Hf as <-. reflexivity.
Qed.

Lemma attempts_schedule fetch n a last :
  (a + n <= maxRetries)%nat ->
  (forall i, (a <= i < a + n)%nat -> failure (fetch i) <> None) ->
  (forall result, success (fetch (a + n)%nat) = Some result ->
     attempts fetch a (S maxRetries - a) last = (schedule a n, inr result))
  /\ (forall error, (a + n)%nat = maxRetries -> failure (fetch maxRetries) = Some error ->
        attempts fetch a (S maxRetries - a) last = (schedule a n, inl error)).
Proof.
  revert a last. induction n as [|n IH]; intros a last Hle Hfail.
  - rewrite Nat.add_0_r in *. split.
    + intros result Hs.
      replace (S maxRetries - a)%nat with (S (maxRetries - a)) by lia.
      apply attempts_success. exact Hs.
    + intros error -> Hf. replace (S maxRetries - maxRetries)%nat with 1%nat by lia.
      apply attempts_give_up. exact Hf.
  - assert (Ha : failure (fetch a) <> None) by (apply Hfail; lia).
    destruct (failure (fetch a)) as [e|] eqn:Hf; [clear Ha|contradiction].
    assert (Hlt : (a < maxRetries)%nat) by lia.
    replace (S maxRetries - a)%nat with (S (S maxRetries - S a)) by lia.
    destruct (attempts_retry fetch a (S maxRetries - S a) last e Hf Hlt) as [last' ->].
    destruct (IH (S a) last') as [IHs IHf]; [lia|intros i Hi; apply Hfail; lia|].
    replace (S a + n)%nat with (a + S n)%nat in * by lia.
    split.
    + intros result Hs. rewrite (IHs result Hs). reflexivity.
    + intros error Hmax Hlast. rewrite (IHf error Hmax Hlast). reflexivity.
Qed.

Lemma attempts_requests fetch a remaining last :
  (requests (fst (attempts fetch a remaining last)) <= remaining)%nat.
Proof.
  revert a last. induction remaining as [|remaining IH]; intros a last; simpl;
    [unfold requests; simpl; lia|].
  assert (Hretry : forall last',
    (requests (fst (let '(io, outcome) := attempts fetch (S a) remaining last' in
                    (Fetch :: Delay (delayMs a) :: io, outcome))) <= S remaining)%nat).
  { intros last'. specialize (IH (S a) last').
    destruct (attempts fetch (S a) remaining last'). unfold requests in *. simpl in *. lia. }
  assert (Hcaught : forall error,
    (requests (fst (if (a <? maxRetries)%nat
                    then let '(io, outcome) := attempts fetch (S a) remaining (Some error) in
                         (Fetch :: Delay (delayMs a) :: io, outcome)
                    else let '(io, outcome) := attempts fetch (S a) remaining (Some error) in
                         (Fetch :: io, outcome))) <= S remaining)%nat).
  { intros error. destruct (a <? maxRetries)%nat; [apply Hretry|].
    specialize (IH (S a) (Some error)).
    destruct (attempts fetch (S a) remaining (Some error)).
    unfold requests in *. simpl in *. lia. }
  destruct (fetch a) as [message|response]; [apply Hcaught|].
  destruct (negb (ok response)).
  - destruct (_ && _); [apply Hretry|apply Hcaught].
  - destruct (json response) as [message|r]; [apply Hcaught|].
    destruct (data r); [|apply Hcaught]. unfold requests. simpl. lia.
Qed.

(** X9. [executeQuery] sends at most four requests.  It returns the body
    of the first attempt that succeeds (a response that is [ok] and whose
    body has [data]); every attempt that fails before it, whatever the
    failure (a rejected [fetch], any status that is not [ok], retryable or
    not, a body that cannot be read or that lacks [data]), is followed by
    a pause of [1000 * 2 ^ attempt] milliseconds and another attempt.
    When all four attempts fail it throws the error of the fourth, never
    the fallback "Shopify API request failed after retries". *)
Theorem every_failed_request_is_retried (fetch : nat -> Shopify.Fetched D) :
  (requests (fst (executeQuery fetch)) <= 4)%nat
  /\ (forall k result,
        (k <= 3)%nat ->
        (forall i, (i < k)%nat -> failure (fetch i) <> None) ->
        success (fetch k) = Some result ->
        executeQuery fetch = (schedule 0 k, inr result))
  /\ ((forall i, (i <= 3)%nat -> failure (fetch i) <> None) ->
      exists error,
        failure (fetch 3%nat) = Some error
        /\ error <> AfterRetries
        /\ executeQuery fetch = (schedule 0 3, inl error)).
Proof.
  split; [apply (attempts_requests fetch 0 4 None)|]. split.
  - intros k result Hk Hfail Hs.
    destruct (attempts_schedule fetch k 0 None) as [H _].
    + unfold maxRetries. simpl. lia.
    + intros i Hi. apply Hfail. lia.
    + apply H. exact Hs.
  - intros Hfail.
    destruct (failure (fetch 3%nat)) as [error|] eqn:Hf; [|exfalso; apply (Hfail 3%nat); [lia|exact Hf]].
    exists error. split; [reflexivity|]. split.
    + intros ->. destruct (fetch 3%nat) as [m|response]; simpl in Hf; [discriminate|].
      destruct (negb (ok response)); [discriminate|].
      destruct (json response) as [m|r]; [discriminate|].
      destruct (data r); discriminate.
    + destruct (attempts_schedule fetch 3 0 None) as [_ H].
      * unfold maxRetries. lia.
      * intros i Hi. apply Hfail. lia.
      * apply H; [reflexivity|exact Hf].
Qed.

End Query.

Lemma every_failed_request_is_retried_witness :
  executeQuery ShopifySpec.not_found
  = ([Fetch; Delay 1000; Fetch; Delay 2000; Fetch; Delay 4000; Fetch],
     inl (RequestFailed 404 "Not Found")).
Proof.
  destruct (proj2 (proj2 (every_failed_request_is_retried not_found)))
    as (error & Hf & _ & ->).
  - intros i _. discriminate.
  - injection Hf as <-. reflexivity.
Defined.

End ShopifyFacts.

(** ** Runs of the service: what it confirms *)

Module NostrRunFacts.
Import Nostr NostrSpec NostrRunSpec WaiterFacts TransferFacts NostrFacts.

Lemma transferFailed_confirmed ev pending error s :
  confirmedPayments (transferFailed ev pending error s) = confirmedPayments s.
Proof. unfold transferFailed. destruct (truthy_opt _); reflexivity. Qed.

(** A step changes the confirmations in one way only: the handler of a
    transfer that has gone through records the confirmation of the pending
    payment it holds, for the cart of that payment. *)
Lemma exec_confirmed a s :
  confirmedPayments (exec a s) = confirmedPayments s
  \/ exists h now ev pending,
       a = TransferProcessed h now
       /\ transfers s !! h = Some (ev, pending)
       /\ confirmedPayments (exec a s)
          = <[cartId pending := confirmationOf ev pending now]> (confirmedPayments s).
Proof.
  destruct a as [cfg ids|sub|sub|args now|q|ev|h now|]; cbn [exec];
    [service_only; left; reflexivity ..| | | | |].
  - left. unfold waitForPayment. destruct (config s); [|reflexivity].
    destruct (confirmedPayments s !! argCartId args); reflexivity.
  - left. unfold timeoutFires. destruct (timers s !! q); [|reflexivity].
    destruct (JsMap.has _ _); reflexivity.
  - left. unfold handleIncomingTransfer. destruct (negb (isTokenTransfer ev)); [reflexivity|].
    destruct (matchPending ev s); [|reflexivity].
    destruct (identityService s); [reflexivity|]. apply transferFailed_confirmed.
  - unfold transferProcessed.
    destruct (transfers s !! h) as [[ev pending]|] eqn:Eh; [|left; reflexivity].
    destruct (tokenData ev) as [error|json];
      [left; rewrite transferFailed_confirmed; reflexivity|].
    destruct (negb (truthy json)); [left; rewrite transferFailed_confirmed; reflexivity|].
    destruct (processed ev) as [error|ok];
      [left; rewrite transferFailed_confirmed; reflexivity|].
    unfold settleTransfer.
    destruct (amount ev) as [a|]; [destruct (negb (a =? amountTokens pending))|].
    + left. reflexivity.
    + right. exists h, now, ev, pending. repeat split; exact Eh.
    + right. exists h, now, ev, pending. repeat split; exact Eh.
  - left. unfold shutdown. destruct (client s); [|reflexivity].
    set (s1 := match transferSubscriptionId s with
               | Some sub => _
               | None => s
               end).
    assert (Hs1 : confirmedPayments s1 = confirmedPayments s).
    { subst s1. destruct (transferSubscriptionId s) as [sub|]; [|auto].
      destruct (truthy sub); auto. }
    destruct (rejectAll_frame (JsMap.values (pendingPayments s1)) s1)
      as (_ & _ & _ & _ & E & _).
    simpl. rewrite E. exact Hs1.
Qed.

Lemma exec_confirmed_mono a s cart :
  is_Some (confirmedPayments s !! cart) -> is_Some (confirmedPayments (exec a s) !! cart).
Proof.
  intros H. destruct (exec_confirmed a s) as [->|(h & now & ev & pending & _ & _ & ->)];
    [exact H|].
  destruct (decide (cartId pending = cart)) as [->|Hne].
  - rewrite lookup_insert_eq. eauto.
  - rewrite lookup_insert_ne by exact Hne. exact H.
Qed.

(** X10. A confirmation is never lost: once the service holds a confirmed
    payment for a cart, it holds one for that cart after whatever happens
    next, a [shutdown] and a new [initialize] included, and
    [isPaymentConfirmed] keeps answering [true]. *)
Theorem confirmations_are_never_lost (trace : list Nostr.Action) (s : Nostr.State)
    (cart : string) (Hconfirmed : isPaymentConfirmed cart s = true) :
  isPaymentConfirmed cart (run trace s) = true
  /\ is_Some (getConfirmedPayment cart (run trace s)).
Proof.
  unfold isPaymentConfirmed, getConfirmedPayment in *.
  apply bool_decide_eq_true in Hconfirmed.
  assert (H : is_Some (confirmedPayments (run trace s) !! cart)).
  { revert s Hconfirmed. induction trace as [|a trace IH]; intros s H; [exact H|].
    simpl. apply IH. apply exec_confirmed_mono. exact H. }
  split; [apply bool_decide_eq_true; exact H|exact H].
Qed.

Lemma confirmations_are_never_lost_witness :
  isPaymentConfirmed "cart-1" paid_service = true
  /\ isPaymentConfirmed "cart-1"
       (run [Shutdown; Initialize sample_config sample_identity] paid_service) = true.
Proof.
  split; [reflexivity|].
  exact (proj1 (confirmations_are_never_lost
                  [Shutdown; Initialize sample_config sample_identity]
                  paid_service "cart-1" eq_refl)).
Defined.

(** *** Where a confirmation comes from *)

Lemma expectedIn_more trace a pending :
  expectedIn trace pending -> expectedIn (trace ++ [a]) pending.
Proof.
  intros (args & now & Hin & Heq). exists args, now. split; [|exact Heq].
  apply in_or_app. now left.
Qed.

Lemma answersIn_more trace a cart c :
  answersIn trace cart c -> answersIn (trace ++ [a]) cart c.
Proof.
  intros (args & now & ev & H1 & H2 & H3). exists args, now, ev.
  split; [apply in_or_app; now left|]. split; [apply in_or_app; now left|exact H3].
Qed.

Lemma traced_more trace a s
    (pend : JsMap.t PendingPaymentInternal)
    (trans : gmap nat (Event * PendingPaymentInternal))
    (conf : gmap string ConfirmedPayment) :
  traced trace s ->
  (forall k pending, In (k, pending) pend ->
     In (k, pending) (pendingPayments s) \/ expectedIn (trace ++ [a]) pending) ->
  (forall h ev pending, trans !! h = Some (ev, pending) ->
     transfers s !! h = Some (ev, pending)
     \/ (expectedIn (trace ++ [a]) pending
         /\ In (TransferArrives ev) (trace ++ [a]) /\ isTokenTransfer ev = true)) ->
  (forall cart c, conf !! cart = Some c ->
     confirmedPayments s !! cart = Some c \/ answersIn (trace ++ [a]) cart c) ->
  (forall k pending, In (k, pending) pend -> expectedIn (trace ++ [a]) pending)
  /\ (forall h ev pending, trans !! h = Some (ev, pending) ->
        expectedIn (trace ++ [a]) pending
        /\ In (TransferArrives ev) (trace ++ [a]) /\ isTokenTransfer ev = true)
  /\ (forall cart c, conf !! cart = Some c -> answersIn (trace ++ [a]) cart c).
Proof.
  intros (Hp & Ht & Hc) Hp' Ht' Hc'. repeat split.
  - intros k pending Hin. destruct (Hp' k pending Hin) as [H|H]; [|exact H].
    apply expectedIn_more. eauto.
  - destruct (Ht' h ev pending H) as [H'|H']; [|apply H'].
    apply expectedIn_more. apply (Ht h ev pending H').
  - destruct (Ht' h ev pending H) as [H'|H']; [|apply H'].
    apply in_or_app. left. apply (Ht h ev pending H').
  - destruct (Ht' h ev pending H) as [H'|H']; [|apply H'].
    apply (Ht h ev pending H').
  - intros cart c Hin. destruct (Hc' cart c Hin) as [H|H]; [|exact H].
    apply answersIn_more. eauto.
Qed.

Lemma traced_same trace a s s' :
  traced trace s ->
  pendingPayments s' = pendingPayments s ->
  transfers s' = transfers s ->
  confirmedPayments s' = confirmedPayments s ->
  traced (trace ++ [a]) s'.
Proof.
  intros H E1 E2 E3. unfold traced. rewrite E1, E2, E3.
  apply (traced_more trace a s); auto.
Qed.

Lemma traced_failed trace a s ev pending error :
  traced trace s ->
  traced (trace ++ [a]) (transferFailed ev pending error s).
Proof.
  intros H. unfold transferFailed. destruct (truthy_opt _); [|apply (traced_same trace _ s); auto].
  unfold traced. simpl. apply (traced_more trace a s); auto.
  intros k x Hin. apply JsMapFacts.In_delete in Hin. left. tauto.
Qed.

Lemma exec_traced trace a s : traced trace s -> traced (trace ++ [a]) (exec a s).
Proof.
  intros H. pose proof H as (Hp & Ht & Hc).
  destruct a as [cfg ids|sub|sub|args now|q|ev|h now|]; cbn [exec].
  - apply (traced_same trace _ s); auto; service_only; reflexivity.
  - apply (traced_same trace _ s); auto; service_only; reflexivity.
  - apply (traced_same trace _ s); auto; service_only; reflexivity.
  - unfold waitForPayment. destruct (config s); [|apply (traced_same trace _ s); auto].
    destruct (confirmedPayments s !! argCartId args); [apply (traced_same trace _ s); auto|].
    unfold traced. simpl. apply (traced_more trace _ s); auto.
    intros k x Hin. apply JsMapFacts.In_set in Hin as [[= -> ->]|Hin]; [|now left].
    right. exists args, now. split; [|reflexivity].
    apply in_or_app. right. now left.
  - unfold timeoutFires. destruct (timers s !! q); [|apply (traced_same trace _ s); auto].
    destruct (JsMap.has _ _); [|apply (traced_same trace _ s); auto].
    unfold traced. simpl. apply (traced_more trace _ s); auto.
    intros k x Hin. apply JsMapFacts.In_delete in Hin. left. tauto.
  - unfold handleIncomingTransfer.
    destruct (negb (isTokenTransfer ev)) eqn:Etok; [apply (traced_same trace _ s); auto|].
    destruct (matchPending ev s) as [y|] eqn:Em; [|apply (traced_same trace _ s); auto].
    apply matchPending_sound_In in Em as [k Hin].
    destruct (identityService s); [|now apply traced_failed].
    unfold traced. simpl. apply (traced_more trace _ s); auto.
    intros h ev' x Hx.
    apply lookup_insert_Some in Hx as [[_ [= <- <-]]|[_ Hx]]; [|now left].
    right. split; [apply expectedIn_more; eauto|].
    split; [apply in_or_app; right; now left|].
    now apply negb_false_iff in Etok.
  - unfold transferProcessed.
    destruct (transfers s !! h) as [[ev y]|] eqn:Eh; [|apply (traced_same trace _ s); auto].
    destruct (Ht h ev y Eh) as (Hy & Hev & Htok).
    assert (H1 : traced trace (withTransfers (delete h (transfers s)) s)).
    { split; [exact Hp|]. split; [|exact Hc].
      intros h' ev' x Hx. simpl in Hx. apply lookup_delete_Some in Hx as [_ Hx].
      apply (Ht _ _ _ Hx). }
    destruct (tokenData ev) as [error|json]; [now apply traced_failed|].
    destruct (negb (truthy json)); [now apply traced_failed|].
    destruct (processed ev) as [error|ok]; [now apply traced_failed|].
    unfold settleTransfer, confirmTransfer.
    assert (Hgone : forall h' ev' x,
              delete h (transfers s) !! h' = Some (ev', x) ->
              transfers s !! h' = Some (ev', x)
              \/ (expectedIn (trace ++ [TransferProcessed h now]) x
                  /\ In (TransferArrives ev') (trace ++ [TransferProcessed h now])
                  /\ isTokenTransfer ev' = true)).
    { intros h' ev' x Hx. apply lookup_delete_Some in Hx as [_ Hx]. now left. }
    assert (Hdel : forall k x,
              In (k, x) (JsMap.delete (eventId y) (pendingPayments s)) ->
              In (k, x) (pendingPayments s)
              \/ expectedIn (trace ++ [TransferProcessed h now]) x).
    { intros k x Hin. apply JsMapFacts.In_delete in Hin. left. tauto. }
    assert (Hnew : forall cart c,
              <[cartId y := {| confirmedCartId := cartId y; requestEventId := eventId y;
                               transferEventId := id ev; confirmedAt := now |}]>
                (confirmedPayments s) !! cart = Some c ->
              confirmedPayments s !! cart = Some c
              \/ answersIn (trace ++ [TransferProcessed h now]) cart c).
    { intros cart c Hin.
      apply lookup_insert_Some in Hin as [[<- <-]|[_ Hin]]; [|now left].
      right. destruct Hy as (args & now0 & Hargs & Heq).
      exists args, now0, ev.
      split; [apply in_or_app; now left|]. split; [apply in_or_app; now left|].
      split; [exact Htok|]. rewrite Heq. simpl. repeat split. }
    destruct (amount ev) as [a|]; [destruct (negb (a =? amountTokens y))|];
      unfold traced; simpl; apply (traced_more trace _ s); auto.
  - unfold shutdown. destruct (client s); [|apply (traced_same trace _ s); auto].
    set (s1 := match transferSubscriptionId s with
               | Some sub => _
               | None => s
               end).
    assert (Hs1 : confirmedPayments s1 = confirmedPayments s
                  /\ transfers s1 = transfers s).
    { subst s1. destruct (transferSubscriptionId s) as [sub|]; [|auto].
      destruct (truthy sub); auto. }
    destruct Hs1 as (E1 & E2).
    destruct (rejectAll_frame (JsMap.values (pendingPayments s1)) s1)
      as (_ & _ & _ & _ & E3 & _ & _ & _ & E4 & _).
    unfold traced. simpl. rewrite E3, E4, E1, E2.
    apply (traced_more trace Shutdown s [] (transfers s) (confirmedPayments s)); auto.
    intros k x [].
Qed.

Lemma run_snoc trace a s : run (trace ++ [a]) s = exec a (run trace s).
Proof. unfold run. rewrite fold_left_app. reflexivity. Qed.

Lemma run_traced trace : traced trace (run trace fresh).
Proof.
  induction trace as [|a trace IH] using rev_ind.
  - split; [intros k pending []|]. split.
    + intros h ev pending H. simpl in H. rewrite lookup_empty in H. discriminate.
    + intros cart c H. simpl in H. rewrite lookup_empty in H. discriminate.
  - rewrite run_snoc. apply exec_traced. exact IH.
Qed.

(** X11. The service confirms nothing that was not asked for: in every
    run of a service from its construction, each confirmed payment it
    holds for a cart names that cart, the event id under which a
    [waitForPayment] of the run waited for a payment of that cart, and the
    id of a token transfer that arrived in the run. *)
Theorem every_confirmation_was_expected (trace : list Nostr.Action)
    (cart : string) (c : Nostr.ConfirmedPayment)
    (Hconfirmed : getConfirmedPayment cart (run trace fresh) = Some c) :
  exists a now ev,
    In (WaitForPayment a now) trace
    /\ In (TransferArrives ev) trace
    /\ isTokenTransfer ev = true
    /\ argCartId a = cart
    /\ confirmedCartId c = cart
    /\ requestEventId c = argEventId a
    /\ transferEventId c = id ev.
Proof.
  destruct (run_traced trace) as (_ & _ & H). apply (H cart c). exact Hconfirmed.
Qed.

Lemma every_confirmation_was_expected_witness :
  exists a now ev,
    In (WaitForPayment a now) paid_trace
    /\ In (TransferArrives ev) paid_trace
    /\ isTokenTransfer ev = true
    /\ argCartId a = "cart-1"
    /\ confirmedCartId sample_confirmation = "cart-1"
    /\ requestEventId sample_confirmation = argEventId a
    /\ transferEventId sample_confirmation = id ev.
Proof.
  exact (every_confirmation_was_expected paid_trace "cart-1" sample_confirmation eq_refl).
Defined.

(** *** After [shutdown] *)

Lemma shutdown_fields s :
  client (shutdown s) = None /\ config (shutdown s) = None
  /\ identityService (shutdown s) = None /\ isInitialized (shutdown s) = false.
Proof. unfold shutdown. destruct (client s) eqn:E; simpl; rewrite ?E; repeat split. Qed.

(** X12. A service that was shut down does no work until it is
    initialized again: [isConnected] answers [false], and [waitForPayment],
    [sendPaymentRequest] and [resolveUnicityId] throw "NostrService not
    initialized", [waitForPayment] even for a cart whose payment is
    confirmed and without registering anything.  The confirmed payments
    themselves survive the shutdown: [getConfirmedPayment] answers as
    before. *)
Theorem shut_down_service_refuses_work (s : Nostr.State) :
  let s' := shutdown s in
  (forall clientConnected, isConnected clientConnected s' = false)
  /\ (forall a now,
        waitForPayment a now s' = (WaitThrows (ThrownError NOT_INITIALIZED), s'))
  /\ (forall cart unicity tokens lookup publish,
        sendPaymentRequest cart unicity tokens lookup publish s'
        = inl (ThrownError NOT_INITIALIZED))
  /\ (forall unicity lookup,
        resolveUnicityId unicity lookup s' = inl (ThrownError NOT_INITIALIZED))
  /\ (forall cart, getConfirmedPayment cart s' = getConfirmedPayment cart s).
Proof.
  destruct (shutdown_fields s) as (Hclient & Hconfig & Hids & Hinit).
  cbv zeta. split; [|split; [|split; [|split]]].
  - intros b. unfold isConnected. rewrite Hinit. reflexivity.
  - intros a now. unfold waitForPayment. rewrite Hconfig. reflexivity.
  - intros. unfold sendPaymentRequest. rewrite Hclient. reflexivity.
  - intros. unfold resolveUnicityId. rewrite Hclient. reflexivity.
  - intros cart. unfold getConfirmedPayment.
    destruct (exec_confirmed Shutdown s) as [H|(h & now & ev & pending & H & _)];
      [|discriminate H].
    change (exec Shutdown s) with (shutdown s) in H. rewrite H. reflexivity.
Qed.

(** *** Finding a registered payment *)





End NostrRunFacts.

(** ** [confirm_payment] and the server as a whole *)

Module PaymentFacts.
Import Nostr NostrSpec NostrRunSpec WaiterFacts TransferFacts NostrFacts NostrRunFacts.
Import Tools Payment PaymentSpec.

(** *** The service *)

Lemma transferFailed_fulfilled ev pending error s p c :
  promises (transferFailed ev pending error s) !! p = Some (Fulfilled c) ->
  promises s !! p = Some (Fulfilled c).
Proof.
  unfold transferFailed. destruct (truthy_opt _); [|auto].
  simpl. intros H. apply settle_Some in H as [H|[_ H]]; [exact H|discriminate].
Qed.

(** A step fulfils a promise only with the confirmation it records. *)
Lemma exec_fulfilled a s p c :
  promises (exec a s) !! p = Some (Fulfilled c) ->
  promises s !! p = Some (Fulfilled c)
  \/ confirmedPayments (exec a s) !! confirmedCartId c = Some c.
Proof.
  destruct a as [cfg ids|sub|sub|args now|q|ev|h now|]; cbn [exec];
    [service_only; auto ..| | | | |].
  - unfold waitForPayment. destruct (config s); [|auto].
    destruct (confirmedPayments s !! argCartId args); auto.
  - unfold timeoutFires. destruct (timers s !! q); [|auto].
    destruct (JsMap.has _ _); [|auto]. simpl.
    intros H. apply settle_Some in H as [H|[_ H]]; [auto|discriminate].
  - unfold handleIncomingTransfer. destruct (negb (isTokenTransfer ev)); [auto|].
    destruct (matchPending ev s); [|auto].
    destruct (identityService s); [auto|].
    intros H. left. apply transferFailed_fulfilled in H. exact H.
  - unfold transferProcessed.
    destruct (transfers s !! h) as [[ev pending]|]; [|auto].
    assert (Hfail : forall error,
              promises (transferFailed ev pending error
                          (withTransfers (delete h (transfers s)) s)) !! p
              = Some (Fulfilled c) ->
              promises s !! p = Some (Fulfilled c) \/
              confirmedPayments (transferFailed ev pending error
                          (withTransfers (delete h (transfers s)) s))
                !! confirmedCartId c = Some c).
    { intros error H. left. apply transferFailed_fulfilled in H. exact H. }
    destruct (tokenData ev) as [error|json]; [apply Hfail|].
    destruct (negb (truthy json)); [apply Hfail|].
    destruct (processed ev) as [error|ok]; [apply Hfail|].
    unfold settleTransfer, confirmTransfer.
    destruct (amount ev) as [a|]; [destruct (negb (a =? amountTokens pending))|]; simpl;
      intros H; apply settle_Some in H as [H|[_ H]]; auto; try discriminate;
      injection H as ->; right; simpl; apply lookup_insert_eq.
  - unfold shutdown. destruct (client s); [|auto].
    set (s1 := match transferSubscriptionId s with
               | Some sub => _
               | None => s
               end).
    assert (Hs1 : promises s1 = promises s).
    { subst s1. destruct (transferSubscriptionId s) as [sub|]; [|auto].
      destruct (truthy sub); auto. }
    simpl. intros H. apply rejectAll_Some in H as [H|[H _]]; [|discriminate].
    left. rewrite <- Hs1. exact H.
Qed.

Lemma exec_recorded a s : recorded s -> recorded (exec a s).
Proof.
  intros Hr p c H. apply exec_fulfilled in H as [H|H]; [|eauto].
  apply exec_confirmed_mono. apply (Hr p c H).
Qed.

Lemma fresh_recorded : recorded fresh.
Proof. intros p c H. simpl in H. rewrite lookup_empty in H. discriminate. Qed.

(** *** The checkout *)

(** A checkout marks no order as paid. *)
Lemma step_paid e sv cart order :
  orders (Tools.store (step e sv)) !! cart = Some order ->
  Tracker.status order = Tracker.paid ->
  orders (Tools.store sv) !! cart = Some order.
Proof.
  destruct e as [c unicity|call getVariantById connected|call result uuid now1 now2 now3];
    simpl.
  - destruct (ToolsFacts.enter_cases c unicity (Tools.store sv))
      as [(_ & ->)|(_ & [(r & -> & _)|(t & -> & _)])]; simpl; auto.
  - destruct (suspended sv !! call) as [[t|t]|]; auto.
    destruct (ToolsFacts.afterInventory_cases t getVariantById connected (Tools.store sv))
      as [(r & -> & _)|(t' & -> & _)]; simpl; auto.
  - destruct (suspended sv !! call) as [[t|t]|]; auto.
    destruct result as [thrown|request]; simpl; auto.
    intros H Hpaid. unfold Tracker.markAwaitingPayment in H. simpl in H.
    rewrite lookup_insert_eq in H. simpl in H.
    apply lookup_insert_Some in H as [[_ <-]|[Hne H]]; [discriminate Hpaid|].
    apply lookup_insert_Some in H as [[Heq _]|[_ H]]; [contradiction|exact H].
Qed.

(** *** The pieces of [confirm_payment] *)

Lemma startWaiting_piece cart order seconds a now w :
  argCartId a = cart ->
  piece cart w (let '(task, w') := startWaiting cart order seconds a now w in (inr task, w')).
Proof.
  intros Ha. unfold startWaiting.
  right. right.
  exists a, now,
    {| waitCartId := cart; waitOrder := order; waitEventId := argEventId a;
       waitSeconds := seconds; awaited := fst (waitForPayment a now (service w)) |}.
  cbn [exec]. destruct (waitForPayment a now (service w)) as [result s]. simpl.
  repeat split. exact Ha.
Qed.

Lemma confirm_entry_piece cart waitSeconds clientConnected now1 now2 w :
  piece cart w (confirm_entry cart waitSeconds clientConnected now1 now2 w).
Proof.
  assert (Hnothing : forall reply, piece cart w (inl reply, w)).
  { intros reply. left. split; [reflexivity|discriminate]. }
  unfold confirm_entry.
  destruct (Tracker.getOrderByCartId cart (orders (store w))) as [order|]; [|apply Hnothing].
  destruct (Tracker.status order); try apply Hnothing.
  destruct (negb (isConnected clientConnected (service w))); [apply Hnothing|].
  destruct (getConfirmedPayment cart (service w)) as [c|] eqn:Ec.
  { right. left. exists (PaymentConfirmed order c), now1, now2.
    split; [reflexivity|]. split; [|reflexivity].
    unfold getConfirmedPayment in Ec. rewrite Ec. eauto. }
  destruct (isZero (effectiveWaitSeconds waitSeconds)); [apply Hnothing|].
  destruct (getPendingPaymentByCartId cart (service w)) as [pendingPayment|].
  { apply startWaiting_piece. reflexivity. }
  destruct (Tracker.paymentEventId order) as [e|]; [|apply Hnothing].
  destruct (Tracker.unicityId order) as [u|]; [|apply Hnothing].
  destruct (truthy e && truthy u); [|apply Hnothing].
  left. split; [reflexivity|discriminate].
Qed.

Lemma confirm_afterResolve_piece task resolved now w :
  piece (resCartId task) w (confirm_afterResolve task resolved now w).
Proof.
  assert (Hnothing : forall reply, piece (resCartId task) w (inl reply, w)).
  { intros reply. left. split; [reflexivity|discriminate]. }
  unfold confirm_afterResolve.
  destruct resolved as [t|[pubkey|]]; try apply Hnothing.
  destruct (truthy pubkey); [|apply Hnothing].
  apply startWaiting_piece. reflexivity.
Qed.

(** *** What the server keeps *)

Lemma backed_exec act s t : backed s t -> backed (exec act s) t.
Proof.
  unfold backed. destruct (awaited t) as [thrown|existing|p]; [auto| |].
  - apply exec_confirmed_mono.
  - intros (a & now & Ho & Ha). exists a, now. split; [|exact Ha].
    apply exec_owned. exact Ho.
Qed.

Lemma sane_exec act orders s tasks : sane orders s tasks -> sane orders (exec act s) tasks.
Proof.
  intros (Hs & Ha & Hr & Hb). repeat split.
  - intros cart order Hin Hpaid. apply exec_confirmed_mono. eauto.
  - apply exec_allocated. exact Ha.
  - apply exec_allocated. exact Ha.
  - apply exec_allocated. exact Ha.
  - apply exec_allocated. exact Ha.
  - apply exec_recorded. exact Hr.
  - intros call t Ht. apply backed_exec. eauto.
Qed.

Lemma sane_orders orders orders' s tasks :
  sane orders s tasks ->
  (forall cart order,
     orders' !! cart = Some order -> Tracker.status order = Tracker.paid ->
     orders !! cart = Some order \/ is_Some (confirmedPayments s !! cart)) ->
  sane orders' s tasks.
Proof.
  intros (Hs & Ha & Hr & Hb) H. split; [|auto].
  intros cart order Hin Hpaid. destruct (H cart order Hin Hpaid); eauto.
Qed.

Lemma sane_answer orders s tasks call :
  sane orders s tasks -> sane orders s (delete call tasks).
Proof.
  intros (Hs & Ha & Hr & Hb). repeat split; auto; try apply Ha.
  intros c t Ht. apply lookup_delete_Some in Ht as [_ Ht]. eauto.
Qed.

Lemma sane_park orders s tasks call task :
  sane orders s tasks ->
  (forall t, task = AtWait t -> backed s t) ->
  sane orders s (<[call := task]> tasks).
Proof.
  intros (Hs & Ha & Hr & Hb) Ht. repeat split; auto; try apply Ha.
  intros c t Hc. apply lookup_insert_Some in Hc as [[_ ->]|[_ Hc]]; eauto.
Qed.

Lemma markPaid_paid cart now1 now2 (orders : Tracker.Orders) s c order :
  is_Some (confirmedPayments s !! cart) ->
  snd (Tracker.markPaid cart now1 now2 orders) !! c = Some order ->
  Tracker.status order = Tracker.paid ->
  orders !! c = Some order \/ is_Some (confirmedPayments s !! c).
Proof.
  intros Hconf. unfold Tracker.markPaid, Tracker.updateOrderStatus.
  destruct (orders !! cart) as [o|]; simpl; [|auto].
  intros H _. apply lookup_insert_Some in H as [[<- _]|[_ H]]; auto.
Qed.

Lemma markPaymentTimeout_paid cart now (orders : Tracker.Orders) c order :
  snd (Tracker.markPaymentTimeout cart now orders) !! c = Some order ->
  Tracker.status order = Tracker.paid ->
  orders !! c = Some order.
Proof.
  unfold Tracker.markPaymentTimeout, Tracker.updateOrderStatus.
  destruct (orders !! cart) as [o|]; simpl; [|auto].
  intros H Hpaid. apply lookup_insert_Some in H as [[_ <-]|[_ H]]; [discriminate Hpaid|auto].
Qed.

Lemma waiting_backed a now s t :
  allocated s ->
  argCartId a = waitCartId t ->
  awaited t = fst (waitForPayment a now s) ->
  backed (exec (WaitForPayment a now) s) t.
Proof.
  intros Ha Hcart Haw. unfold backed. rewrite Haw. cbn [exec].
  destruct (waitForPayment a now s) as [result s1] eqn:Ew. simpl.
  destruct result as [thrown|existing|p]; [exact I| |].
  - unfold waitForPayment in Ew. destruct (config s); [|discriminate].
    destruct (confirmedPayments s !! argCartId a) eqn:Ec; [|discriminate].
    injection Ew as <- <-. rewrite <- Hcart, Ec. eauto.
  - exists a, now. split; [|exact Hcart].
    apply (waitForPayment_owns a now s p s1 Ha Ew).
Qed.

Lemma proceed_healthy call cart r sys :
  healthy sys -> piece cart (world sys) r -> healthy (proceed call r sys).
Proof.
  unfold healthy. intros H Hpiece. destruct r as [[reply|task] w].
  - simpl. apply sane_answer.
    destruct Hpiece as [[Hw _]|[(reply' & now1 & now2 & _ & Hconf & Hw)|(a & now & t & Hr & _)]];
      simpl in *.
    + subst w. exact H.
    + subst w. simpl. apply (sane_orders _ _ _ _ H).
      intros c order. apply markPaid_paid. exact Hconf.
    + discriminate Hr.
  - simpl.
    destruct Hpiece as [[Hw Hno]|[(reply' & now1 & now2 & Hr & _)|(a & now & t & Hr & Ha & Hc & Haw & Hw)]];
      simpl in *.
    + subst w. apply sane_park; [exact H|].
      intros t ->. exfalso. apply (Hno t). reflexivity.
    + discriminate Hr.
    + subst w. injection Hr as ->. simpl. apply sane_park.
      * apply (sane_exec (WaitForPayment a now)). exact H.
      * intros t' [= <-]. apply (waiting_backed a now); [apply H|congruence|exact Haw].
Qed.

Lemma happen_healthy h sys : healthy sys -> healthy (happen h sys).
Proof.
  intros H. destruct h as [a|e|cart waitSeconds clientConnected now1 now2
                          |call resolved now|call now1 now2]; cbn [happen].
  - unfold healthy. simpl. apply sane_exec. exact H.
  - unfold healthy. simpl. apply (sane_orders _ _ _ _ H).
    intros cart order Hin Hpaid. left. apply (step_paid e _ _ _ Hin Hpaid).
  - apply (proceed_healthy _ cart); [exact H|]. apply confirm_entry_piece.
  - destruct (confirming sys !! call) as [[t|t]|]; try exact H.
    apply (proceed_healthy _ (resCartId t)); [exact H|]. apply confirm_afterResolve_piece.
  - destruct (confirming sys !! call) as [[t|t]|] eqn:Et; try exact H.
    destruct (settlement (awaited t) (nostr sys)) as [outcome|] eqn:Eo; [|exact H].
    destruct H as (Hs & Ha & Hr & Hb).
    pose proof (Hb call t Et) as Hbacked.
    unfold confirm_afterWait. destruct outcome as [confirmed|error].
    + unfold healthy. simpl. apply sane_answer.
      apply (sane_orders (orders (Tools.store (checkout sys)))); [repeat split; auto; apply Ha|].
      intros c order. apply markPaid_paid.
      unfold backed in Hbacked. unfold settlement in Eo.
      destruct (awaited t) as [thrown|existing|p]; [discriminate Eo|exact Hbacked|].
      destruct Hbacked as (a & now & (_ & _ & _ & _ & Hout) & Hcart).
      pose proof (Hout _ Eo) as Ho. inversion Ho; subst.
      rewrite <- Hcart. apply (Hr p _ Eo).
    + unfold healthy. simpl. apply sane_answer.
      apply (sane_orders (orders (Tools.store (checkout sys)))); [repeat split; auto; apply Ha|].
      intros c order Hin Hpaid. left. apply (markPaymentTimeout_paid _ _ _ _ _ Hin Hpaid).
Qed.

Lemma boot_healthy carts0 : healthy (boot carts0).
Proof.
  unfold healthy. simpl. repeat split; try apply fresh_allocated.
  - intros cart order H. rewrite lookup_empty in H. discriminate.
  - apply fresh_recorded.
  - intros call t H. rewrite lookup_empty in H. discriminate.
Qed.

Lemma happenings_healthy l sys : healthy sys -> healthy (happenings l sys).
Proof.
  revert sys. induction l as [|h l IH]; intros sys H; [exact H|].
  simpl. apply IH. apply happen_healthy. exact H.
Qed.

(** X14. No order is marked as paid without a confirmed payment: in
    every run of the server (pieces of checkouts, pieces of
    [confirm_payment] calls and whatever happens to the service, in any
    order, from a server that starts without orders), each order whose
    status is [paid] is for a cart for which the service holds a confirmed
    payment. *)
Theorem paid_orders_are_confirmed (carts0 : Carts.Carts) (l : list Payment.Happening)
    (cart : string) (order : Tracker.Order) :
  let sys := happenings l (boot carts0) in
  Tracker.getOrderByCartId cart (orders (Tools.store (checkout sys))) = Some order ->
  Tracker.status order = Tracker.paid ->
  isPaymentConfirmed cart (nostr sys) = true.
Proof.
  intros sys Hin Hpaid.
  assert (H : healthy sys) by apply happenings_healthy, boot_healthy.
  destruct H as (Hs & _). unfold isPaymentConfirmed.
  apply bool_decide_eq_true. apply (Hs cart order Hin Hpaid).
Qed.

Lemma paid_orders_are_confirmed_witness :
  exists order,
    Tracker.getOrderByCartId "cart-1"
      (orders (Tools.store (checkout
         (happenings sample_run (boot {[ "cart-1" := ToolsSpec.sample_cart ]})))))
    = Some order
    /\ Tracker.status order = Tracker.paid
    /\ isPaymentConfirmed "cart-1"
         (nostr (happenings sample_run (boot {[ "cart-1" := ToolsSpec.sample_cart ]})))
       = true.
Proof.
  eexists. split; [vm_compute; reflexivity|]. split; [reflexivity|].
  eapply (paid_orders_are_confirmed {[ "cart-1" := ToolsSpec.sample_cart ]} sample_run "cart-1");
    [vm_compute; reflexivity|reflexivity].
Defined.

(** *** Asking without waiting *)

Lemma noWait_isZero waitSeconds :
  noWait waitSeconds -> isZero (effectiveWaitSeconds waitSeconds) = true.
Proof.
  intros [->|(x & -> & Hle)]; [reflexivity|].
  destruct x as [|q|]; [reflexivity| |discriminate Hle].
  unfold effectiveWaitSeconds, Math_max, Math_min. simpl in *.
  destruct (Qle_bool 0 q) eqn:E0; [|reflexivity].
  apply Qle_bool_iff in Hle. apply Qle_bool_iff in E0.
  assert (H120 : Qle_bool q 120 = true).
  { apply Qle_bool_iff. apply (Qle_trans _ 0); [exact Hle|]. discriminate. }
  change (number_le (Finite q) (Finite 120)) with (Qle_bool q 120).
  rewrite H120. simpl. apply Qeq_bool_iff. apply Qle_antisym; assumption.
Qed.

(** X15. Without a wait window ([waitSeconds] absent, zero or negative)
    [confirm_payment] answers at once and only reports: it never suspends,
    it leaves the service as it is (no waiter is registered, no time-out
    armed), the carts and the checkout locks as they are, and the orders
    too, unless the service already holds a confirmed payment for the
    cart of an order that awaits its payment, in which case the order is
    marked as paid.  For an order that awaits a payment that is not
    confirmed yet, the answer is "Payment Pending" and is no error. *)
Theorem confirm_without_waiting_only_reports (cart : string)
    (waitSeconds : option Tools.number) (clientConnected : bool) (now1 now2 : Z)
    (w : Payment.World) (Hno : noWait waitSeconds) :
  exists reply w',
    confirm_entry cart waitSeconds clientConnected now1 now2 w = (inl reply, w')
    /\ service w' = service w
    /\ carts (store w') = carts (store w)
    /\ checkoutLocks (store w') = checkoutLocks (store w)
    /\ (orders (store w') = orders (store w)
        \/ exists order confirmed,
             Tracker.getOrderByCartId cart (orders (store w)) = Some order
             /\ Tracker.status order = Tracker.awaiting_payment
             /\ getConfirmedPayment cart (service w) = Some confirmed
             /\ reply = PaymentConfirmed order confirmed
             /\ orders (store w')
                = snd (Tracker.markPaid cart now1 now2 (orders (store w))))
    /\ (forall order,
          Tracker.getOrderByCartId cart (orders (store w)) = Some order ->
          Tracker.status order = Tracker.awaiting_payment ->
          isConnected clientConnected (service w) = true ->
          getConfirmedPayment cart (service w) = None ->
          reply = StillPending order /\ confirmIsError reply = false /\ w' = w).
Proof.
  unfold confirm_entry. rewrite (noWait_isZero _ Hno).
  assert (Hsame : forall reply,
    (forall order,
       Tracker.getOrderByCartId cart (orders (store w)) = Some order ->
       Tracker.status order = Tracker.awaiting_payment ->
       isConnected clientConnected (service w) = true ->
       getConfirmedPayment cart (service w) = None ->
       reply = StillPending order /\ confirmIsError reply = false /\ w = w) ->
    exists reply0 w',
      ((inl reply, w) : (ConfirmResponse + ConfirmTask) * World) = (inl reply0, w')
      /\ service w' = service w
      /\ carts (store w') = carts (store w)
      /\ checkoutLocks (store w') = checkoutLocks (store w)
      /\ (orders (store w') = orders (store w)
          \/ exists order confirmed,
               Tracker.getOrderByCartId cart (orders (store w)) = Some order
               /\ Tracker.status order = Tracker.awaiting_payment
               /\ getConfirmedPayment cart (service w) = Some confirmed
               /\ reply0 = PaymentConfirmed order confirmed
               /\ orders (store w')
                  = snd (Tracker.markPaid cart now1 now2 (orders (store w))))
      /\ (forall order,
            Tracker.getOrderByCartId cart (orders (store w)) = Some order ->
            Tracker.status order = Tracker.awaiting_payment ->
            isConnected clientConnected (service w) = true ->
            getConfirmedPayment cart (service w) = None ->
            reply0 = StillPending order /\ confirmIsError reply0 = false /\ w' = w)).
  { intros reply H. exists reply, w. split; [reflexivity|].
    do 3 (split; [reflexivity|]). split; [left; reflexivity|exact H]. }
  destruct (Tracker.getOrderByCartId cart (orders (store w))) as [order|] eqn:Eo;
    [|apply Hsame; intros o [=]].
  destruct (Tracker.status order) eqn:Es;
    try (apply Hsame; intros o [= <-] Hs; congruence).
  destruct (isConnected clientConnected (service w)) eqn:Ec; simpl;
    [|apply Hsame; intros o _ _ [=]].
  destruct (getConfirmedPayment cart (service w)) as [confirmed|] eqn:Eg.
  - eexists _, _. split; [reflexivity|]. simpl. do 3 (split; [reflexivity|]). split.
    + right. exists order, confirmed. repeat split. exact Es.
    + intros o _ _ _ [=].
  - apply Hsame. intros o [= <-] _ _ _. repeat split.
Qed.

Lemma confirm_without_waiting_only_reports_witness :
  noWait None
  /\ confirm_entry "cart-1" None true 400 400 awaiting_world
     = (inl (StillPending awaiting_order), awaiting_world).
Proof.
  assert (H : noWait None) by (left; reflexivity).
  split; [exact H|].
  destruct (confirm_without_waiting_only_reports "cart-1" None true 400 400
              awaiting_world H) as (reply & w' & -> & _ & _ & _ & _ & Hp).
  destruct (Hp awaiting_order eq_refl eq_refl eq_refl eq_refl) as (-> & _ & ->).
  reflexivity.
Defined.

(** *** After a time-out *)

Lemma not_in_progress cart st :
  cart ∉ checkoutLocks st -> isCheckoutInProgress cart st = false.
Proof. intros H. unfold isCheckoutInProgress. apply bool_decide_eq_false. exact H. Qed.



(** *** The guards of the checkout *)

Lemma in_progress_free cart st :
  isCheckoutInProgress cart st = false -> cart ∉ checkoutLocks st.
Proof. unfold isCheckoutInProgress. apply bool_decide_eq_false. Qed.

(** X17. A cart whose order is paid, or awaits its payment, is not
    charged again: whatever the inventory says and whatever the payment
    request would give, [checkout_with_unicity] answers with an error,
    sends no payment request and leaves the carts, the orders and the
    checkout locks as they are.  When nothing else is in the way (no
    checkout of the cart in progress, the cart has lines and they are in
    stock) the answer names the order that is paid, or the event id of
    the payment request that is pending. *)
Theorem settled_cart_is_not_charged_again
    (st : Tools.Store) (cart unicity : string) (order : Tracker.Order)
    (getVariantById : string -> Thrown + option Tools.Variant) (connected : bool)
    (result : Thrown + Nostr.PaymentRequestResult) (uuid : string) (t1 t2 t3 : Z)
    (Horder : Tracker.getOrderByCartId cart (orders st) = Some order)
    (Hstatus : Tracker.status order = Tracker.paid
               \/ Tracker.status order = Tracker.awaiting_payment) :
  let '(r, st') := checkout_with_unicity cart unicity getVariantById connected result
                     uuid t1 t2 t3 st in
  isError r = true
  /\ st' = st
  /\ (forall message, r <> RequestFailed message)
  /\ (forall c,
        cart ∉ checkoutLocks st ->
        carts st !! cart = Some c ->
        Carts.lines c <> [] ->
        inventoryLoop getVariantById (Carts.lines c) [] = inr [] ->
        r = match Tracker.status order with
            | Tracker.paid => AlreadyPaid cart (Tracker.id order)
            | _ => PaymentPending cart (Tracker.paymentEventId order)
            end).
Proof.
  unfold checkout_with_unicity, checkout_entry.
  destruct (isCheckoutInProgress cart st) eqn:Elock.
  { split; [reflexivity|]. split; [reflexivity|]. split; [discriminate|].
    intros c Hfree. apply not_in_progress in Hfree. congruence. }
  apply in_progress_free in Elock.
  pose proof (ToolsFacts.release_acquire cart st Elock) as Hrel.
  unfold Carts.getCart. change (carts (acquire cart st)) with (carts st).
  destruct (carts st !! cart) as [c|] eqn:Ecart.
  2:{ rewrite Hrel.
      split; [reflexivity|]. split; [reflexivity|]. split; [discriminate|].
      intros c _ [=]. }
  destruct (Carts.lines c) as [|line rest] eqn:El.
  { rewrite Hrel.
    split; [reflexivity|]. split; [reflexivity|]. split; [discriminate|].
    intros c' _ [= <-] Hne. congruence. }
  unfold checkout_afterInventory. cbn [invCartId invCart invUnicityId]. rewrite El.
  change (orders (acquire cart st)) with (orders st). rewrite Horder.
  destruct (inventoryLoop getVariantById (line :: rest) []) as [t|[|e es]] eqn:Einv.
  { rewrite Hrel.
    split; [reflexivity|]. split; [reflexivity|]. split; [discriminate|].
    intros c' _ [= <-] _ Hstock. rewrite El in Hstock. congruence. }
  2:{ rewrite Hrel.
      split; [reflexivity|]. split; [reflexivity|]. split; [discriminate|].
      intros c' _ [= <-] _ Hstock. rewrite El in Hstock. congruence. }
  destruct Hstatus as [Hs|Hs]; rewrite Hs; rewrite Hrel;
    (split; [reflexivity|]); (split; [reflexivity|]); (split; [discriminate|]);
    intros; reflexivity.
Qed.

Lemma settled_cart_is_not_charged_again_witness :
  checkout_with_unicity "cart-1" "@alice" plenty true (inr ToolsSpec.sample_request)
    "order-2" 600 600 600 awaiting_store
  = (PaymentPending "cart-1" (Some "evt-1"), awaiting_store).
Proof.
  pose proof (settled_cart_is_not_charged_again awaiting_store "cart-1" "@alice"
                awaiting_order plenty true (inr ToolsSpec.sample_request)
                "order-2" 600 600 600 eq_refl (or_intror eq_refl)) as H.
  destruct (checkout_with_unicity "cart-1" "@alice" plenty true
              (inr ToolsSpec.sample_request) "order-2" 600 600 600 awaiting_store)
    as [r st].
  destruct H as (_ & -> & _ & Hr).
  rewrite (Hr (Carts.setLocked true 200 ToolsSpec.sample_cart));
    [reflexivity|set_solver|reflexivity|discriminate|reflexivity].
Defined.

(** *** The inventory check *)




(** *** While nobody waits *)

Lemma confirm_entry_noWait cart waitSeconds clientConnected now1 now2 w :
  isZero (effectiveWaitSeconds waitSeconds) = true ->
  getConfirmedPayment cart (service w) = None ->
  exists reply,
    confirm_entry cart waitSeconds clientConnected now1 now2 w = (inl reply, w).
Proof.
  intros Hzero Hnone. unfold confirm_entry. rewrite Hzero, Hnone.
  destruct (Tracker.getOrderByCartId cart (orders (store w))) as [order|]; [|eauto].
  destruct (Tracker.status order); eauto.
  destruct (negb (isConnected clientConnected (service w))); eauto.
Qed.

Lemma happen_deaf h sys : unattended h = true -> deaf sys -> deaf (happen h sys).
Proof.
  intros Hh (Hp & Ht & Hc & Hq).
  destruct h as [a|e|cart waitSeconds clientConnected now1 now2
                |call resolved now|call now1 now2]; cbn [happen].
  - unfold deaf. simpl. split; [|split; [|split; [|exact Hq]]].
    + destruct a as [cfg ids|sub|sub|args now|q|ev|h now|]; cbn [exec];
        [service_only; exact Hp ..|discriminate Hh| | | |].
      * unfold timeoutFires. destruct (timers (nostr sys) !! q); [|exact Hp].
        simpl. rewrite Hp. simpl. exact Hp.
      * unfold handleIncomingTransfer, matchPending. rewrite Hp. simpl.
        destruct (negb (isTokenTransfer ev)); [exact Hp|].
        destruct (replyToEventId ev) as [r|]; [destruct (truthy r)|]; exact Hp.
      * unfold transferProcessed. rewrite Ht, lookup_empty. exact Hp.
      * unfold shutdown. destruct (client (nostr sys)); [reflexivity|exact Hp].
    + destruct a as [cfg ids|sub|sub|args now|q|ev|h now|]; cbn [exec];
        [service_only; exact Ht ..|discriminate Hh| | | |].
      * unfold timeoutFires. destruct (timers (nostr sys) !! q); [|exact Ht].
        simpl. rewrite Hp. simpl. exact Ht.
      * unfold handleIncomingTransfer, matchPending. rewrite Hp. simpl.
        destruct (negb (isTokenTransfer ev)); [exact Ht|].
        destruct (replyToEventId ev) as [r|]; [destruct (truthy r)|]; exact Ht.
      * unfold transferProcessed. rewrite Ht, lookup_empty. exact Ht.
      * unfold shutdown. destruct (client (nostr sys)); [|exact Ht].
        simpl. rewrite rejectAll_transfers.
        destruct (transferSubscriptionId (nostr sys)) as [sub|]; [|exact Ht].
        destruct (truthy sub); exact Ht.
    + destruct (exec_confirmed a (nostr sys)) as [->|(h & now & ev & pending & _ & Hin & _)];
        [exact Hc|].
      rewrite Ht, lookup_empty in Hin. discriminate.
  - exact (conj Hp (conj Ht (conj Hc Hq))).
  - simpl in Hh.
    destruct (confirm_entry_noWait cart waitSeconds clientConnected now1 now2
                (world sys) Hh)
      as [reply Hr].
    { unfold getConfirmedPayment. simpl. rewrite Hc. apply lookup_empty. }
    rewrite Hr. unfold deaf. simpl.
    rewrite Hq. repeat split; auto; apply delete_empty_eq.
  - rewrite Hq, lookup_empty. exact (conj Hp (conj Ht (conj Hc Hq))).
  - rewrite Hq, lookup_empty. exact (conj Hp (conj Ht (conj Hc Hq))).
Qed.

(** X23. A payment is only recognised while somebody waits for it.  The
    checkout registers nothing with the service, so that, as long as no
    [waitForPayment] runs (no [confirm_payment] with a wait window is
    made), whatever token transfers arrive are dropped: the service
    confirms no payment, no order is ever marked as paid, and a
    [confirm_payment] without a wait window finds no confirmation. *)
Theorem payment_is_only_recognised_while_waited_for
    (carts0 : Carts.Carts) (l : list Payment.Happening)
    (Hunattended : forallb unattended l = true) :
  let sys := happenings l (boot carts0) in
  pendingPayments (nostr sys) = []
  /\ (forall cart, getConfirmedPayment cart (nostr sys) = None)
  /\ (forall cart order,
        Tracker.getOrderByCartId cart (orders (Tools.store (checkout sys))) = Some order ->
        Tracker.status order <> Tracker.paid)
  /\ (forall ev, exec (TransferArrives ev) (nostr sys) = nostr sys).
Proof.
  intros sys.
  assert (Hdeaf : deaf sys).
  { subst sys. assert (H0 : deaf (boot carts0)) by (repeat split).
    revert H0. generalize (boot carts0). unfold happenings.
    induction l as [|h l IH]; intros s0 H0; [exact H0|].
    simpl in Hunattended. apply andb_true_iff in Hunattended as [Hh Hl].
    simpl. apply (IH Hl). apply happen_deaf; assumption. }
  assert (Hhealthy : healthy sys) by apply happenings_healthy, boot_healthy.
  destruct Hdeaf as (Hp & Ht & Hc & Hq).
  split; [exact Hp|]. split; [|split].
  - intros cart. unfold getConfirmedPayment. rewrite Hc. apply lookup_empty.
  - intros cart order Hin Hpaid. destruct Hhealthy as (Hs & _).
    destruct (Hs cart order Hin Hpaid) as [c Hsome].
    rewrite Hc, lookup_empty in Hsome. discriminate.
  - intros ev. cbn [exec]. unfold handleIncomingTransfer, matchPending. rewrite Hp. simpl.
    destruct (negb (isTokenTransfer ev)); [reflexivity|].
    destruct (replyToEventId ev) as [r|]; [destruct (truthy r)|]; reflexivity.
Qed.

Lemma payment_is_only_recognised_while_waited_for_witness :
  forallb unattended early_payment = true
  /\ getConfirmedPayment "cart-1"
       (nostr (happenings early_payment (boot {[ "cart-1" := ToolsSpec.sample_cart ]})))
     = None.
Proof.
  split; [reflexivity|].
  exact (proj1 (proj2 (payment_is_only_recognised_while_waited_for
                         {[ "cart-1" := ToolsSpec.sample_cart ]} early_payment eq_refl))
           "cart-1").
Defined.

End PaymentFacts.

(** ** The cart tools *)

Module CartToolsFacts.
Import CartStore CartSpec CartTools CartFacts.

(** The two embeddings of the cart agree on what the checkout reads: the
    lock functions of the full store are those of [Carts] on the views. *)
Lemma view_setLocked flag now cart :
  view (CartStore.setLocked flag now cart) = Carts.setLocked flag now (view cart).
Proof. reflexivity. Qed.

Lemma isCartLocked_view cartId (carts : Store) cart :
  JsMap.get cartId carts = Some cart ->
  CartStore.isCartLocked cartId carts
  = default false (Carts.lockedForCheckout (view cart)).
Proof. intros H. unfold CartStore.isCartLocked. rewrite H. reflexivity. Qed.



Section Prices.
Variable dollarsToCents : string -> Z.



End Prices.


(** X20. [remove_from_cart] answers "Cart not found" exactly when the
    store has no such cart, "locked for checkout" exactly when the cart is
    locked, and "Line item not found" exactly when the cart, not locked,
    has no line with that id; in these cases the store is as it was.
    Otherwise it removes the first line with that id, recalculates the
    subtotal as the sum of the remaining line totals and answers with the
    cart it stored. *)
Theorem remove_from_cart_removes_one_line
    (cartId lineId : string) (now : Z) (carts : CartStore.Store) :
  let '(reply, carts') := remove_from_cart cartId lineId now carts in
  match getCart cartId carts with
  | None => reply = CartTools.CartNotFound cartId /\ carts' = carts
  | Some cart =>
      if default false (lockedForCheckout cart)
      then reply = CartLocked cartId /\ carts' = carts
      else
        match removeLine lineId (lines cart) with
        | None =>
            reply = LineNotFound lineId cartId /\ carts' = carts
            /\ ~ In lineId (List.map CartLine.id (lines cart))
        | Some rest =>
            exists updated,
              reply = Removed updated
              /\ getCart cartId carts' = Some updated
              /\ lines updated = rest
              /\ subtotalCents updated = total rest
              /\ In lineId (List.map CartLine.id (lines cart))
              /\ length rest = pred (length (lines cart))
        end
  end.
Proof.
  unfold remove_from_cart, removeFromCart, getCart.
  destruct (JsMap.get cartId carts) as [cart|] eqn:Hget; [|auto].
  destruct (default false (lockedForCheckout cart)); [auto|].
  assert (Hrm : forall l,
    match removeLine lineId l with
    | None => ~ In lineId (List.map CartLine.id l)
    | Some rest =>
        In lineId (List.map CartLine.id l) /\ length rest = pred (length l)
    end).
  { intros l. induction l as [|line l IH]; simpl; [intros []|].
    destruct (String.eqb (CartLine.id line) lineId) eqn:E.
    - apply String.eqb_eq in E. auto.
    - apply String.eqb_neq in E. destruct (removeLine lineId l) as [rest|]; simpl.
      + destruct IH as [Hin Hlen]. split; [now right|].
        rewrite Hlen. destruct l; [contradiction|reflexivity].
      + intros [H|H]; [contradiction|]. apply IH. exact H. }
  specialize (Hrm (lines cart)).
  destruct (removeLine lineId (lines cart)) as [rest|]; [|auto].
  destruct Hrm as [Hin Hlen]. eexists. split; [reflexivity|].
  split; [apply JsMapFacts.get_set_eq|]. simpl. rewrite sumLines_total. auto.
Qed.

End CartToolsFacts.

(** ** The buy list *)

Module BuylistFacts.
Import Buylist BuylistTools BuylistSpec.

Lemma holdsFrom_spec n x p :
  holdsFrom n x p = true -> forall y, x <= y < x + Z.of_nat n -> p y = true.
Proof.
  revert x. induction n as [|n IH]; intros x H y Hy; [lia|].
  simpl in H. apply andb_true_iff in H as [Hx Hrest].
  destruct (Z.eq_dec y x) as [->|Hne]; [exact Hx|].
  apply (IH (x + 1) Hrest). lia.
Qed.

(** The offers for the prices below [PRICES_CHECKED], computed one by
    one. *)
Lemma offers_checked : holdsFrom (Z.to_nat PRICES_CHECKED) 0 fair = true.
Proof. vm_compute. reflexivity. Qed.

Lemma offer_bounds x :
  0 <= x < PRICES_CHECKED ->
  7 * x / 10 - 1 <= calculateOfferPrice x <= 7 * x / 10.
Proof.
  intros Hx.
  assert (H : fair x = true).
  { apply (holdsFrom_spec _ _ _ offers_checked). rewrite Z2Nat.id by (unfold PRICES_CHECKED; lia).
    lia. }
  unfold fair in H. apply andb_true_iff in H as [H1 H2].
  apply Z.leb_le in H1. apply Z.leb_le in H2. lia.
Qed.

(** X21. For a retail price of less than 1000.00 (an integer of cents
    below 100000) the offer that [calculateOfferPrice] computes in double
    arithmetic is seventy per cent of the price rounded down to the cent,
    or one cent less; it never exceeds seventy per cent of the price.  The
    cent less does occur: the double nearest to 0.7 is below 0.7, and the
    offer for 90 cents is 62 cents, not 63. *)
Theorem offer_is_seventy_percent_or_a_cent_less (retailPriceCents : Z)
    (Hprice : 0 <= retailPriceCents < 100000) :
  let offer := BuylistTools.calculateOfferPrice retailPriceCents in
  7 * retailPriceCents / 10 - 1 <= offer <= 7 * retailPriceCents / 10
  /\ 10 * offer <= 7 * retailPriceCents
  /\ BuylistTools.calculateOfferPrice 90 = 62.
Proof.
  pose proof (offer_bounds retailPriceCents Hprice) as H.
  simpl. split; [exact H|]. split; [|vm_compute; reflexivity].
  pose proof (Z.mul_div_le (7 * retailPriceCents) 10). lia.
Qed.

Lemma offer_is_seventy_percent_or_a_cent_less_witness :
  0 <= 1999 < 100000 /\ 1398 <= BuylistTools.calculateOfferPrice 1999 <= 1399.
Proof.
  assert (H : 0 <= 1999 < 100000) by lia.
  split; [exact H|].
  exact (proj1 (offer_is_seventy_percent_or_a_cent_less 1999 H)).
Defined.

Section Prices.
Variable dollarsToCents : string -> Z.


End Prices.


(** Replacing the value of a key by one that a filter and a view do not
    tell from the old one changes nothing in the filtered view of the
    values. *)
Lemma values_set_alike {A : Type} (p : BuylistRequest -> bool) (g : BuylistRequest -> A)
    k v v' (m : Requests) :
  JsMap.get k m = Some v -> p v' = p v -> g v' = g v ->
  List.map g (List.filter p (JsMap.values (JsMap.set k v' m)))
  = List.map g (List.filter p (JsMap.values m)).
Proof.
  intros Hget Hp Hg. induction m as [|[k0 v0] m IH]; [discriminate Hget|].
  simpl in Hget |- *. destruct (String.eqb k k0) eqn:E.
  - injection Hget as ->. simpl. rewrite Hp. destruct (p v); simpl; [rewrite Hg|]; reflexivity.
  - specialize (IH Hget). unfold JsMap.values in IH |- *.
    cbn [List.map List.filter snd]. destruct (p v0); cbn [List.map]; [f_equal|]; exact IH.
Qed.

Lemma length_set_present k v v' (m : Requests) :
  JsMap.get k m = Some v -> length (JsMap.set k v' m) = length m.
Proof.
  intros Hget. induction m as [|[k0 v0] m IH]; [discriminate Hget|].
  simpl in Hget |- *. destruct (String.eqb k k0); simpl; [reflexivity|].
  rewrite IH; [reflexivity|exact Hget].
Qed.

(** X25. [updateBuylistRequestStatus] answers [null] and changes nothing
    for an id that the buy list does not hold.  For a request that it
    holds, it changes the status and the time stamp of that request and
    nothing else: the offer, the quantity and the seller stay, whatever
    the status was before (a rejected request can be approved); the other
    requests are untouched, the list of the requests of every seller that
    [getRequestsBySeller] gives names the same requests in the same order,
    and the count of the requests is the same. *)
Theorem status_update_changes_one_request_only
    (requestId : string) (st : Buylist.BuylistRequestStatus) (now : Z)
    (requests : Buylist.Requests) :
  let '(updated, requests') :=
    Buylist.updateBuylistRequestStatus requestId st now requests in
  (getBuylistRequest requestId requests = None ->
     updated = None /\ requests' = requests)
  /\ (forall request,
        getBuylistRequest requestId requests = Some request ->
        exists request',
          updated = Some request'
          /\ getBuylistRequest requestId requests' = Some request'
          /\ check_buylist_status requestId requests' = Status request' (statusMessage st)
          /\ status request' = st
          /\ updatedAt request' = now
          /\ createdAt request' = createdAt request
          /\ offerPriceCents request' = offerPriceCents request
          /\ retailPriceCents request' = retailPriceCents request
          /\ quantity request' = quantity request
          /\ sellerUnicityId request' = sellerUnicityId request)
  /\ (forall other,
        other <> requestId ->
        getBuylistRequest other requests' = getBuylistRequest other requests)
  /\ (forall seller,
        List.map Buylist.id (getRequestsBySeller seller requests')
        = List.map Buylist.id (getRequestsBySeller seller requests))
  /\ getBuylistRequestCount requests' = getBuylistRequestCount requests.
Proof.
  unfold updateBuylistRequestStatus, getBuylistRequest.
  destruct (JsMap.get requestId requests) as [request|] eqn:Hget.
  - split; [discriminate|].
    split.
    { intros r [= <-]. eexists. split; [reflexivity|].
      split; [apply JsMapFacts.get_set_eq|].
      split; [unfold check_buylist_status, getBuylistRequest;
              rewrite JsMapFacts.get_set_eq; reflexivity|].
      repeat split. }
    split; [intros other Hne; apply JsMapFacts.get_set_ne; congruence|].
    split.
    + intros seller. unfold getRequestsBySeller.
      apply (values_set_alike _ _ requestId request); [exact Hget|reflexivity|reflexivity].
    + unfold getBuylistRequestCount. apply (length_set_present _ request). exact Hget.
  - split; [intros _; split; reflexivity|].
    split; [intros r [=]|].
    split; [reflexivity|].
    split; reflexivity.
Qed.

End BuylistFacts.

(** ** A payment that is waited for *)

Module PaymentFlow.
Import Nostr NostrSpec NostrRunSpec.
Import Tools Payment PaymentSpec.





End PaymentFlow.
